(** * myprofiler: the sampling / normalization / summarization pipeline

    A shallow embedding of [myprofiler.go] and the properties of its
    normalizer, its two summarizers, the ranked report and the sampling
    loop.

    Conventions of the embedding.
    - A Go [string] is a byte sequence: [string] here, and [list ascii]
      inside the regular-expression matcher.
    - [int] and [int64] are [Z] with two's complement wrap-around
      ([wrap64]) written out at every arithmetic operation.
    - [map[string]int64] is [gmap string Z]; the zero value of a missing
      key is written out.
    - An [io.Writer] is a value carrying what has been written and the
      outcomes of the writes still to come.
    - The database, the clock and the order in which the Go runtime walks
      a map are inputs of the model. *)

From Stdlib Require Import ZArith Ascii String List Lia Bool.
From Stdlib Require Import Numbers.DecimalString.
From stdpp Require Import base option list sorting gmap strings fin_maps.

Local Open Scope Z_scope.

(** ** Machine integers *)

Module Int64.

Definition modulus : Z := 2 ^ 64.
Definition half : Z := 2 ^ 63.

(** The value an [int64] holds after an operation whose mathematical
    result is [z]. *)
Definition wrap64 (z : Z) : Z := (z + half) mod modulus - half.

Definition add (a b : Z) : Z := wrap64 (a + b).
Definition incr (a : Z) : Z := add a 1.

Definition in_range (z : Z) : Prop := - half <= z < half.

End Int64.

(** ** Regular expressions, as the [regexp] package matches them

    Go strings are matched as UTF-8, one code point at a time.  Every
    class of the patterns below either lists ASCII characters or excludes
    one ASCII character, and the bytes of a multi-byte code point are all
    above 127, so matching byte by byte finds the same matches. *)

Module Regexp.

Inductive regex : Type :=
| Eps
| Class (neg : bool) (ranges : list (ascii * ascii))
| WordB
| Cat (r1 r2 : regex)
| Alt (r1 r2 : regex)
| Star (r : regex).

Definition Chr (c : ascii) : regex := Class false [(c, c)].
Definition NotChr (c : ascii) : regex := Class true [(c, c)].
Definition Plus (r : regex) : regex := Cat r (Star r).
Definition Opt (r : regex) : regex := Alt r Eps.
(** A capturing group matches what its body matches; no replacement
    string of the program refers to a group. *)
Definition Group (r : regex) : regex := r.
Fixpoint AtLeast (n : nat) (r : regex) : regex :=
  match n with
  | O => Star r
  | S n' => Cat r (AtLeast n' r)
  end.

Definition code (c : ascii) : N := N_of_ascii c.

Definition in_range (c : ascii) (rg : ascii * ascii) : bool :=
  (code (fst rg) <=? code c)%N && (code c <=? code (snd rg))%N.

Definition in_class (neg : bool) (ranges : list (ascii * ascii)) (c : ascii) : bool :=
  xorb neg (existsb (in_range c) ranges).

(** [\w] of RE2: [0-9A-Za-z_]. *)
Definition word_ranges : list (ascii * ascii) :=
  [("0", "9"); ("A", "Z"); ("a", "z"); ("_", "_")]%char.

Definition is_word (c : ascii) : bool := in_class false word_ranges c.

Definition is_word_opt (o : option ascii) : bool :=
  match o with
  | Some c => is_word c
  | None => false
  end.

(** [\b]: exactly one of the byte before and the byte after the position
    is a word character. *)
Definition at_word_boundary (prev : option ascii) (s : list ascii) : bool :=
  xorb (is_word_opt prev) (is_word_opt (head s)).

Definition result : Type := (option ascii * list ascii)%type.

Section Star.

(** The matcher of the body of a star. *)
Variable step : option ascii -> list ascii -> list result.

(** Greedy iteration: another round of the body first, as long as it
    consumes something, then stopping here.  [n] bounds the number of
    rounds; the length of the text is enough. *)
Fixpoint star_from (n : nat) (prev : option ascii) (s : list ascii) : list result :=
  match n with
  | O => [(prev, s)]
  | S n' =>
      flat_map
        (fun m =>
           if (length (snd m) <? length s)%nat
           then star_from n' (fst m) (snd m) else [])
        (step prev s)
      ++ [(prev, s)]
  end.

End Star.

(** All the ways [r] matches a prefix of [s], in the order a backtracking
    search tries them; each is the last byte before the end of the match
    and the text after it.  [prev] is the byte before [s]. *)
Fixpoint matches (r : regex) (prev : option ascii) (s : list ascii) : list result :=
  match r with
  | Eps => [(prev, s)]
  | Class neg ranges =>
      match s with
      | c :: s' => if in_class neg ranges c then [(Some c, s')] else []
      | [] => []
      end
  | WordB => if at_word_boundary prev s then [(prev, s)] else []
  | Cat r1 r2 =>
      flat_map (fun m => matches r2 (fst m) (snd m)) (matches r1 prev s)
  | Alt r1 r2 => matches r1 prev s ++ matches r2 prev s
  | Star r1 => star_from (matches r1) (length s) prev s
  end.

(** The leftmost-first match at the start of [s]. *)
Definition match_here (r : regex) (prev : option ascii) (s : list ascii)
  : option result :=
  head (matches r prev s).

(** [ReplaceAllString] with a replacement free of [$]: scan left to
    right; at each position take the leftmost-first match, if any.  An
    empty match directly after another match is not replaced. *)
Fixpoint replaceAll_go (fuel : nat) (re : regex) (subs : list ascii)
    (prev : option ascii) (after_match : bool) (s : list ascii) : list ascii :=
  match fuel with
  | O => s
  | S fuel' =>
      let copy :=
        match s with
        | [] => []
        | c :: s' => c :: replaceAll_go fuel' re subs (Some c) false s'
        end in
      match match_here re prev s with
      | Some (p, rest) =>
          if (length rest <? length s)%nat
          then subs ++ replaceAll_go fuel' re subs p true rest
          else (if after_match then [] else subs) ++ copy
      | None => copy
      end
  end.

Definition replaceAll (re : regex) (subs : list ascii) (s : list ascii) : list ascii :=
  replaceAll_go (S (length s)) re subs None false s.

Definition ReplaceAllString (re : regex) (src repl : string) : string :=
  string_of_list_ascii
    (replaceAll re (list_ascii_of_string repl) (list_ascii_of_string src)).

End Regexp.

Import Regexp.

(** ** The normalizer *)

Record NormalizePattern : Type := {
  re : regex;
  subs : string
}.

Definition Normalize (p : NormalizePattern) (q : string) : string :=
  ReplaceAllString (re p) q (subs p).

Definition digit : regex := Class false [("0", "9")]%char.
Definition hexdigit : regex :=
  Class false [("0", "9"); ("A", "F"); ("a", "f")]%char.
(** [\s] of RE2: tab, newline, form feed, carriage return, space. *)
Definition space : regex :=
  Class false [("009", "010"); ("012", "013"); (" ", " ")]%char.
Definition backslash : ascii := "\"%char.
Definition squote : ascii := "'"%char.
Definition dquote : ascii := "034"%char.

(** The rules of the table, in its order. *)
Definition spaces : NormalizePattern :=
  {| re := Plus (Chr " "); subs := " " |}.
Definition integer : NormalizePattern :=
  {| re := Cat (Opt (Class false [("+", "+"); ("-", "-")]%char))
             (Cat WordB (Cat (Plus digit) WordB));
     subs := "N" |}.
Definition hexadecimal : NormalizePattern :=
  {| re := Cat WordB (Cat (Chr "0") (Cat (Chr "x") (Cat (Plus hexdigit) WordB)));
     subs := "0xN" |}.
Definition escaped_squote : NormalizePattern :=
  {| re := Group (Cat (Chr backslash) (Chr squote)); subs := "" |}.
Definition escaped_dquote : NormalizePattern :=
  {| re := Group (Cat (Chr backslash) (Chr dquote)); subs := "" |}.
Definition squoted : NormalizePattern :=
  {| re := Cat (Chr squote) (Cat (Plus (NotChr squote)) (Chr squote)); subs := "S" |}.
Definition dquoted : NormalizePattern :=
  {| re := Cat (Chr dquote) (Cat (Plus (NotChr dquote)) (Chr dquote)); subs := "S" |}.
Definition long_list : NormalizePattern :=
  {| re := Group (AtLeast 4
             (Group (Cat (Class false [("N", "N"); ("S", "S")]%char)
                      (Cat (Star space) (Cat (Chr ",") (Star space))))));
     subs := "..." |}.

Definition normalizePatterns : list NormalizePattern :=
  [spaces; integer; hexadecimal; escaped_squote; escaped_dquote;
   squoted; dquoted; long_list].

Definition normalizeQuery (query : string) : string :=
  fold_left (fun q pat => Normalize pat q) normalizePatterns query.

(** ** What a pattern can and cannot match *)

Definition all_bytes : list ascii := ascii_of_nat <$> seq 0 256.

(** Every match of [r] holds a byte of [P]. *)
Fixpoint needs (P : ascii -> bool) (r : regex) : bool :=
  match r with
  | Eps | WordB | Star _ => false
  | Class neg ranges =>
      forallb (fun a => implb (in_class neg ranges a) (P a)) all_bytes
  | Cat r1 r2 => needs P r1 || needs P r2
  | Alt r1 r2 => needs P r1 && needs P r2
  end.

(** [r] may match the empty text. *)
Fixpoint nullable (r : regex) : bool :=
  match r with
  | Eps | WordB | Star _ => true
  | Class _ _ => false
  | Cat r1 r2 => nullable r1 && nullable r2
  | Alt r1 r2 => nullable r1 || nullable r2
  end.

(** [r] has no [\b]: its matches do not depend on the byte before. *)
Fixpoint wb_free (r : regex) : bool :=
  match r with
  | Eps | Class _ _ => true
  | WordB => false
  | Cat r1 r2 | Alt r1 r2 => wb_free r1 && wb_free r2
  | Star r1 => wb_free r1
  end.

(** Some class of [r] takes the byte [a]. *)
Fixpoint accepts (r : regex) (a : ascii) : bool :=
  match r with
  | Eps | WordB => false
  | Class neg ranges => in_class neg ranges a
  | Cat r1 r2 | Alt r1 r2 => accepts r1 a || accepts r2 a
  | Star r1 => accepts r1 a
  end.

(** [x] agrees with [y] up to a byte of [D], or throughout. *)
Inductive sim (D : ascii -> Prop) : list ascii -> list ascii -> Prop :=
| sim_nil : sim D [] []
| sim_dead d x y : D d -> sim D (d :: x) y
| sim_cons a x y : sim D x y -> sim D (a :: x) (a :: y).

(** [r] matches nowhere in [t]. *)
Fixpoint quiet (r : regex) (t : list ascii) : Prop :=
  (forall prev, matches r prev t = [])
  /\ match t with
     | [] => True
     | _ :: t' => quiet r t'
     end.

Definition sp : ascii := " "%char.

(** No two spaces in a row. *)
Fixpoint single_spaced (t : list ascii) : Prop :=
  match t with
  | a :: t' => (a = sp -> head t' <> Some sp) /\ single_spaced t'
  | [] => True
  end.

Definition is_digit (a : ascii) : bool := in_class false [("0", "9")]%char a.

Definition is_quote (a : ascii) : bool :=
  in_class false [(squote, squote); (dquote, dquote)] a.

(** No quote, and digits only inside words: each decimal digit of [s]
    comes directly after a word byte.  [prev] is the byte before [s]. *)
Fixpoint inner (prev : option ascii) (s : list ascii) : Prop :=
  match s with
  | [] => True
  | a :: s' =>
      (is_digit a = true -> is_word_opt prev = true)
      /\ is_quote a = false
      /\ inner (Some a) s'
  end.

(** [r] matches nowhere in [t], which comes after the byte [prev]. *)
Fixpoint quiet_from (r : regex) (prev : option ascii) (t : list ascii) : Prop :=
  matches r prev t = []
  /\ match t with
     | [] => True
     | a :: t' => quiet_from r (Some a) t'
     end.

(** The byte before a position is not a word byte. *)
Definition nonword (p : option ascii) : bool := negb (is_word_opt p).

(** The last byte before the end of a text [w] that comes after [prev]. *)
Definition last_or (prev : option ascii) (w : list ascii) : option ascii :=
  match last w with
  | Some a => Some a
  | None => prev
  end.

(** Where the matches of [r] end, as a pair: whether every match ends
    after a byte of [Q], and whether every match that starts after a
    byte of [Q] does. *)
Fixpoint reach (Q : option ascii -> bool) (r : regex) : bool * bool :=
  match r with
  | Eps | WordB => (false, true)
  | Class neg ranges =>
      let b := forallb (fun a => implb (in_class neg ranges a) (Q (Some a))) all_bytes in
      (b, b)
  | Cat r1 r2 =>
      let (e1, k1) := reach Q r1 in
      let (e2, k2) := reach Q r2 in
      (e2 || (e1 && k2), e2 || (k1 && k2))
  | Alt r1 r2 =>
      let (e1, k1) := reach Q r1 in
      let (e2, k2) := reach Q r2 in
      (e1 && e2, k1 && k2)
  | Star r1 => (false, snd (reach Q r1))
  end.

Definition ends (Q : option ascii -> bool) (r : regex) : bool := fst (reach Q r).
Definition keeps (Q : option ascii -> bool) (r : regex) : bool := snd (reach Q r).

(** [r] finds a match somewhere in the text. *)
Fixpoint occurs_from (r : regex) (prev : option ascii) (s : list ascii) : bool :=
  match match_here r prev s with
  | Some _ => true
  | None =>
      match s with
      | [] => false
      | a :: s' => occurs_from r (Some a) s'
      end
  end.

Definition occurs (r : regex) (s : string) : bool :=
  occurs_from r None (list_ascii_of_string s).


(** ** Writers

    An [io.Writer] carries the chunks written so far and the results of
    the [Write] calls still to come: [None] is a write that succeeds,
    [Some e] one that fails with [e] and writes nothing.  Once the list
    is used up every write succeeds. *)

Definition error : Type := option string.

Record Writer : Type := {
  written : list string;
  outcomes : list error
}.

Definition Write (w : Writer) (p : string) : Writer * error :=
  match outcomes w with
  | Some e :: os => ({| written := written w; outcomes := os |}, Some e)
  | None :: os => ({| written := written w ++ [p]; outcomes := os |}, None)
  | [] => ({| written := written w ++ [p]; outcomes := [] |}, None)
  end.

Definition newline : string := String "010"%char EmptyString.

(** [%d] *)
Definition format_d (z : Z) : string := NilZero.string_of_int (Z.to_int z).

(** [%4d]: right-aligned in a field of width 4. *)
Definition format_4d (z : Z) : string :=
  let s := format_d z in
  string_of_list_ascii (repeat " "%char (4 - String.length s)) +:+ s.

(** ** The process list *)

Record Row : Type := {
  id : Z;
  dbUser : option string;
  host : option string;
  db : option string;
  command : option string;
  timeSec : Z;
  state : option string;
  info : option string
}.

(** What [rows.Scan] gives for one row. *)
Inductive Scan : Type :=
| ScanOk (r : Row)
| ScanErr (e : string).

Record Rows : Type := {
  Columns : string + list string;
  scans : list Scan;
  Close : error
}.

(** What [db.Query] gives: an error or a row set. *)
Definition QueryResult : Type := (string + Rows)%type.

Definition DB : Type := string -> QueryResult.

Inductive Outcome (A : Type) : Type :=
| Returned (a : A)
| Panicked (e : string)
| Exited (code : Z).
Arguments Returned {A} a.
Arguments Panicked {A} e.
Arguments Exited {A} code.

Definition procList : string := "SHOW FULL PROCESSLIST".

(** The body of the [for rows.Next()] loop, for one row. *)
Definition scan_row (acc : list string * list string) (sc : Scan)
  : list string * list string :=
  let '(queries, log) := acc in
  match sc with
  | ScanErr e => (queries, log ++ [e])
  | ScanOk r =>
      match info r with
      | Some i =>
          if negb (String.eqb i "") && negb (String.eqb i procList)
          then (queries ++ [i], log)
          else (queries, log)
      | None => (queries, log)
      end
  end.

Definition close_rows (rows : Rows) (log : list string) : list string :=
  match Close rows with
  | Some e => log ++ ["Error closing rows: " +:+ e]
  | None => log
  end.

Definition join_words (l : list string) : string :=
  match l with
  | [] => ""
  | x :: xs => fold_left (fun acc y => acc +:+ " " +:+ y) xs x
  end.

(** [processList]: the statements of one snapshot and the lines logged. *)
Definition processList (db : DB) (log : list string)
  : Outcome (list string) * list string :=
  match db procList with
  | inl err => (Returned [], log ++ [err])
  | inr rows =>
      match Columns rows with
      | inl err => (Panicked err, close_rows rows log)
      | inr cs =>
          let lcs := length cs in
          if negb (Nat.eqb lcs 8) && negb (Nat.eqb lcs 9)
          then (Exited 1, log ++ ["Unknown columns: [" +:+ join_words cs +:+ "]"])
          else
            let '(queries, log') := fold_left scan_row (scans rows) ([], log) in
            (Returned queries, close_rows rows log')
      end
  end.

(** ** Counting *)

Record queryCount : Type := {
  q : string;
  c : Z
}.

Definition pairList : Type := list queryCount.

Definition Len (pl : pairList) : nat := length pl.

(** [pl[i].c > pl[j].c]; the sort only asks about indices in range. *)
Definition Less (pl : pairList) (i j : nat) : bool :=
  match pl !! i, pl !! j with
  | Some a, Some b => c a >? c b
  | _, _ => false
  end.

(** [pl[i], pl[j] = pl[j], pl[i]]; [None] is the panic of an index out
    of range. *)
Definition Swap (pl : pairList) (i j : nat) : option pairList :=
  match pl !! i, pl !! j with
  | Some a, Some b => Some (<[j := a]> (<[i := b]> pl))
  | _, _ => None
  end.

(** The order [sort.Sort] leaves a [pairList] in: no element is [Less]
    than one before it. *)
Definition by_count : relation queryCount := fun a b => c b <= c a.

Definition pair_of (e : string * Z) : queryCount := {| q := e.1; c := e.2 |}.

(** What the program leaves to the Go runtime and the [sort] package:
    the order in which [range] walks a map, which the language leaves
    open, and the arrangement [sort.Sort] picks among elements that
    compare equal, since that sort is not stable. *)
Class GoRuntime : Type := {
  mapRange : gmap string Z -> list (string * Z);
  sort_Sort : pairList -> pairList;
  mapRange_perm : forall m, mapRange m ≡ₚ map_to_list m;
  sort_Sort_perm : forall pl, sort_Sort pl ≡ₚ pl;
  sort_Sort_sorted : forall pl, Sorted by_count (sort_Sort pl)
}.

(** [sort.Strings]: ascending in the byte order of Go's [<] on strings.
    The order is total and antisymmetric, so the result does not depend
    on the algorithm. *)
Definition sort_Strings (l : list string) : list string :=
  merge_sort String.le l.

Definition format_line (p : queryCount) : string :=
  format_4d (c p) +:+ " " +:+ q p +:+ newline.

Definition Fprintf_line (w : Writer) (p : queryCount) : Writer * error :=
  Write w (format_line p).

(** The printing loop of [showSummary], from index [i]. *)
Fixpoint show_lines (w : Writer) (counts : pairList) (i n : Z) : Writer :=
  match counts with
  | [] => w
  | p :: rest =>
      if i >=? n then w
      else
        match Fprintf_line w p with
        | (w', Some _) => w'
        | (w', None) => show_lines w' rest (i + 1) n
        end
  end.

Record summarizer : Type := {
  s_counts : gmap string Z
}.

Record recentSummarizer : Type := {
  r_last : Z;
  r_counts : list (list queryCount)
}.

Definition bump (o : option Z) : Z := Int64.incr (default 0 o).

(** [s.counts[q]++] *)
Definition count_one (m : gmap string Z) (q : string) : gmap string Z :=
  <[q := bump (m !! q)]> m.

(** [sum[qc.q] += qc.c] *)
Definition add_count (m : gmap string Z) (qc : queryCount) : gmap string Z :=
  <[q qc := Int64.add (default 0 (m !! q qc)) (c qc)]> m.

(** An [Update] hands back the summarizer and the caller's slice as the
    call leaves it. *)
Definition summarizer_Update (s : summarizer) (queries : list string)
  : summarizer * list string :=
  ({| s_counts := fold_left count_one queries (s_counts s) |}, queries).

(** One step of the run-length encoding loop. *)
Definition rle_step (qc : list queryCount) (x : string) : list queryCount :=
  match last qc with
  | Some p =>
      if String.eqb (q p) x
      then alter (fun p => {| q := q p; c := Int64.incr (c p) |}) (length qc - 1)%nat qc
      else qc ++ [{| q := x; c := 1 |}]
  | None => qc ++ [{| q := x; c := 1 |}]
  end.

Definition recentSummarizer_Update (s : recentSummarizer) (queries : list string)
  : Outcome (recentSummarizer * list string) :=
  let sliced :=
    if Z.of_nat (length (r_counts s)) >=? r_last s
    then match r_counts s with
         | [] => Panicked "slice bounds out of range [1:0]"
         | _ :: t => Returned t
         end
    else Returned (r_counts s) in
  match sliced with
  | Returned counts =>
      let queries' := sort_Strings queries in
      let qc := fold_left rle_step queries' [] in
      Returned ({| r_last := r_last s; r_counts := counts ++ [qc] |}, queries')
  | Panicked e => Panicked e
  | Exited n => Exited n
  end.

(** The aggregate [recentSummarizer.Show] builds. *)
Definition recent_sum (s : recentSummarizer) : gmap string Z :=
  fold_left (fun sum qcs => fold_left add_count qcs sum) (r_counts s) ∅.

Inductive Summarizer : Type :=
| OfSummarizer (s : summarizer)
| OfRecent (s : recentSummarizer).

Definition Update (s : Summarizer) (queries : list string)
  : Outcome (Summarizer * list string) :=
  match s with
  | OfSummarizer s0 =>
      let '(s1, qs) := summarizer_Update s0 queries in Returned (OfSummarizer s1, qs)
  | OfRecent s0 =>
      match recentSummarizer_Update s0 queries with
      | Returned (s1, qs) => Returned (OfRecent s1, qs)
      | Panicked e => Panicked e
      | Exited n => Exited n
      end
  end.

Definition NewSummarizer (last : Z) : Summarizer :=
  if last >? 0 then OfRecent {| r_last := last; r_counts := [] |}
  else OfSummarizer {| s_counts := ∅ |}.

(** ** Reports and the sampling loop *)

Record Config : Type := {
  cfg_dump : option Writer;
  cfg_topN : Z;
  cfg_last : Z;
  cfg_delay : Z
}.

(** What one iteration of the loop takes from outside: the database at
    that moment and the local time, formatted. *)
Record Env : Type := {
  env_db : DB;
  env_now : string
}.

Record LoopState : Type := {
  summ : Summarizer;
  cnt : Z;
  dump : option Writer;
  stdout : Writer;
  logged : list string
}.

Inductive Status : Type :=
| Looping
| Stopped
| Crashed (e : string)
| Killed (code : Z).

(** The raw dump of one round: two writes per statement. *)
Fixpoint dump_queries (w : Writer) (queries : list string) : Writer * error :=
  match queries with
  | [] => (w, None)
  | x :: rest =>
      match Write w x with
      | (w1, Some e) => (w1, Some e)
      | (w1, None) =>
          match Write w1 newline with
          | (w2, Some e) => (w2, Some e)
          | (w2, None) => dump_queries w2 rest
          end
      end
  end.

Definition header (now : string) : string := "## " +:+ " " +:+ now +:+ newline.

Section Program.

Context `{rt : GoRuntime}.

Definition showSummary (w : Writer) (sum : gmap string Z) (n : Z) : Writer :=
  let counts := pair_of <$> mapRange sum in
  let counts := sort_Sort counts in
  show_lines w counts 0 n.

Definition summarizer_Show (s : summarizer) (out : Writer) (num : Z) : Writer :=
  showSummary out (s_counts s) num.

Definition recentSummarizer_Show (s : recentSummarizer) (out : Writer) (num : Z)
  : Writer :=
  showSummary out (recent_sum s) num.

Definition Show (s : Summarizer) (out : Writer) (num : Z) : Writer :=
  match s with
  | OfSummarizer s0 => summarizer_Show s0 out num
  | OfRecent s0 => recentSummarizer_Show s0 out num
  end.

(** The part of an iteration after [processList] has returned. *)
Definition round (cfg : Config) (st : LoopState) (now : string)
    (queries : list string) (log : list string) : LoopState * Status :=
  let dumped :=
    match dump st with
    | Some w => let '(w', err) := dump_queries w queries in (Some w', err)
    | None => (None, None)
    end in
  match dumped with
  | (d, Some _) =>
      ({| summ := summ st; cnt := cnt st; dump := d;
          stdout := stdout st; logged := log |}, Stopped)
  | (d, None) =>
      let queries := normalizeQuery <$> queries in
      match Update (summ st) queries with
      | Panicked e =>
          ({| summ := summ st; cnt := cnt st; dump := d;
              stdout := stdout st; logged := log |}, Crashed e)
      | Exited n =>
          ({| summ := summ st; cnt := cnt st; dump := d;
              stdout := stdout st; logged := log |}, Killed n)
      | Returned (s', _) =>
          let cnt' := Int64.incr (cnt st) in
          if cnt' >=? cfg_delay cfg
          then
            let out := fst (Write (stdout st) (header now)) in
            ({| summ := s'; cnt := 0; dump := d;
                stdout := Show s' out (cfg_topN cfg); logged := log |}, Looping)
          else
            ({| summ := s'; cnt := cnt'; dump := d;
                stdout := stdout st; logged := log |}, Looping)
      end
  end.

(** One iteration of the [for] loop of [profile]. *)
Definition iteration (cfg : Config) (st : LoopState) (e : Env)
  : LoopState * Status :=
  match processList (env_db e) (logged st) with
  | (Panicked err, log) =>
      ({| summ := summ st; cnt := cnt st; dump := dump st;
          stdout := stdout st; logged := log |}, Crashed err)
  | (Exited n, log) =>
      ({| summ := summ st; cnt := cnt st; dump := dump st;
          stdout := stdout st; logged := log |}, Killed n)
  | (Returned queries, log) => round cfg st (env_now e) queries log
  end.

(** The loop, run against the environments of its successive iterations;
    [Looping] at the end says the loop is still going. *)
Fixpoint profile_loop (cfg : Config) (st : LoopState) (envs : list Env)
  : LoopState * Status :=
  match envs with
  | [] => (st, Looping)
  | e :: rest =>
      match iteration cfg st e with
      | (st', Looping) => profile_loop cfg st' rest
      | stopped => stopped
      end
  end.

Definition profile_init (cfg : Config) (out : Writer) : LoopState :=
  {| summ := NewSummarizer (cfg_last cfg); cnt := 0; dump := cfg_dump cfg;
     stdout := out; logged := [] |}.

Definition profile (cfg : Config) (out : Writer) (envs : list Env)
  : LoopState * Status :=
  profile_loop cfg (profile_init cfg out) envs.

End Program.

(** A runtime to run the program on: the map is walked in the order of
    [map_to_list] and the counts are merge sorted. *)
Global Instance by_count_dec : RelDecision by_count.
Proof. intros a b. unfold by_count. apply _. Defined.

Global Instance by_count_total : Total by_count.
Proof. intros a b. unfold by_count. lia. Qed.

Global Instance by_count_trans : Transitive by_count.
Proof. intros a b d. unfold by_count. lia. Qed.

Definition merge_runtime : GoRuntime.
Proof.
  refine {| mapRange := map_to_list; sort_Sort := merge_sort by_count |}.
  - reflexivity.
  - intros pl. apply merge_sort_Permutation.
  - intros pl. apply Sorted_merge_sort. apply _.
Defined.

(** A [recentSummarizer] as [NewSummarizer] builds it has a positive
    retention. *)
Definition wf_summarizer (s : Summarizer) : Prop :=
  match s with
  | OfSummarizer _ => True
  | OfRecent r => 0 < r_last r
  end.

(** The rounds a [recentSummarizer] holds after a run of [Update]s. *)
Fixpoint recent_updates (s : recentSummarizer) (batches : list (list string))
  : Outcome recentSummarizer :=
  match batches with
  | [] => Returned s
  | b :: rest =>
      match recentSummarizer_Update s b with
      | Returned (s', _) => recent_updates s' rest
      | Panicked e => Panicked e
      | Exited n => Exited n
      end
  end.

(** How often [x] occurs in a batch. *)
Definition occurrences (x : string) (l : list string) : Z :=
  Z.of_nat (length (filter (fun y => y = x) l)).

(** The filter of the process list in words: a row contributes its
    statement text unless the text is null, empty or the snapshot query
    itself.  A row that does not decode has no text. *)
Definition contributes (sc : Scan) : option string :=
  match sc with
  | ScanOk r =>
      match info r with
      | Some i => if decide (i <> ""%string /\ i <> procList) then Some i else None
      | None => None
      end
  | ScanErr _ => None
  end.

(** The decode errors of a row set, in row order. *)
Definition decode_error (sc : Scan) : option string :=
  match sc with
  | ScanOk _ => None
  | ScanErr e => Some e
  end.

(** A row set whose column layout [processList] accepts. *)
Definition known_columns (rows : Rows) : Prop :=
  exists cs, Columns rows = inr cs /\ (length cs = 8%nat \/ length cs = 9%nat).

Definition with_scans (rows : Rows) (l : list Scan) : Rows :=
  {| Columns := Columns rows; scans := l; Close := Close rows |}.

Definition with_log (st : LoopState) (log : list string) : LoopState :=
  {| summ := summ st; cnt := cnt st; dump := dump st;
     stdout := stdout st; logged := log |}.

(** ** Sample inputs *)

Definition sample_row (i : option string) : Scan :=
  ScanOk {| id := 1; dbUser := Some "app"; host := Some "localhost"; db := None;
            command := Some "Query"; timeSec := 0; state := None; info := i |}%string.

Definition cols8 : list string :=
  ["Id"; "User"; "Host"; "db"; "Command"; "Time"; "State"; "Info"]%string.

Definition sample_rows (l : list Scan) : Rows :=
  {| Columns := inr cols8; scans := l; Close := None |}.

Definition sample_db (l : list Scan) : DB := fun _ => inr (sample_rows l).

Definition failing_db (e : string) : DB := fun _ => inl e.

(** A writer all of whose writes succeed, and one whose next write fails. *)
Definition sound_writer : Writer := {| written := []; outcomes := [] |}.
Definition broken_writer : Writer :=
  {| written := []; outcomes := [Some "no space left on device"%string] |}.

Definition sample_cfg : Config :=
  {| cfg_dump := None; cfg_topN := 10; cfg_last := 0; cfg_delay := 1 |}.

(** The sum of the counts a round holds for [x]. *)
Definition total (qcs : list queryCount) (x : string) : Z :=
  foldr (fun p acc => (if decide (q p = x) then c p else 0) + acc) 0 qcs.

(** All the writes a writer still has to do succeed. *)
Definition sound (w : Writer) : Prop := Forall (fun o => o = None) (outcomes w).

(** A map holds the counts of a list of statements: each statement of
    the list with the number of times it occurs, as an [int64], and
    nothing else. *)
Definition counts_of (l : list string) (m : gmap string Z) : Prop :=
  forall x, m !! x = if decide (x ∈ l) then Some (Int64.wrap64 (occurrences x l)) else None.

(** The batch of a snapshot. *)
Definition snapshot (db : DB) : Outcome (list string) := fst (processList db []).

(** No write to the raw dump, if there is one, is going to fail. *)
Definition dump_ok (d : option Writer) : Prop :=
  match d with
  | Some w => sound w
  | None => True
  end.


Definition cadence_two : Config :=
  {| cfg_dump := None; cfg_topN := 10; cfg_last := 0; cfg_delay := 2 |}.

Definition dumping (w : Writer) : Config :=
  {| cfg_dump := Some w; cfg_topN := 10; cfg_last := 0; cfg_delay := 1 |}.

Definition sample_env (now : string) (statements : list string) : Env :=
  {| env_db := sample_db (sample_row <$> (Some <$> statements)); env_now := now |}.

(** A statement without quotes whose digits are all inside words. *)
Definition wordy (s : string) : Prop := inner None (list_ascii_of_string s).

(** A statement holds the byte [a]. *)
Definition holds (s : string) (a : ascii) : Prop := a ∈ list_ascii_of_string s.

(** The pattern of a literal between two quotes [qc]. *)
Definition quoted (qc : ascii) : regex :=
  Cat (Chr qc) (Cat (Plus (NotChr qc)) (Chr qc)).

(** Bytes that start or make up what rules 2 to 5 look for: decimal
    digits and the backslash. *)
Definition digit_or_backslash (a : ascii) : bool :=
  in_class false [("0", "9"); (backslash, backslash)]%char a.

(** Text around a literal on which no rule acts: no digit, no quote, no
    backslash, no comma. *)
Definition tame_byte (a : ascii) : bool :=
  in_class true [("0", "9"); (squote, squote); (dquote, dquote);
                 (backslash, backslash); (",", ",")]%char a.

Definition tame (s : string) : Prop :=
  forall a, holds s a -> tame_byte a = true.


(** ** Runs of updates, rounds and windows *)

(** The round [recentSummarizer.Update] appends for a batch. *)
Definition round_of (b : list string) : list queryCount :=
  fold_left rle_step (sort_Strings b) [].

(** The last [n] elements of a list. *)
Definition last_n {A : Type} (n : nat) (l : list A) : list A :=
  drop (length l - n) l.

(** The counts a [summarizer] holds after a run of [Update]s. *)
Definition summarizer_updates (s : summarizer) (batches : list (list string))
  : summarizer :=
  fold_left (fun s b => fst (summarizer_Update s b)) batches s.

(** A run of [Update]s through the interface; it ends at the first one
    that does not return. *)
Fixpoint updates (s : Summarizer) (batches : list (list string))
  : Outcome Summarizer :=
  match batches with
  | [] => Returned s
  | b :: rest =>
      match Update s b with
      | Returned (s', _) => updates s' rest
      | Panicked e => Panicked e
      | Exited n => Exited n
      end
  end.

(** One text strictly before the other in the byte order of strings. *)
Definition text_lt (a b : string) : Prop := String.le a b /\ a <> b.

(** Where [Swap] on [i] and [j] takes the entry of index [k] from. *)
Definition swap_index (i j k : nat) : nat :=
  if decide (k = i) then j else if decide (k = j) then i else k.

(** ** Reports and the raw dump over a run *)

(** What the raw dump receives for a batch: each statement, then a line
    feed, as separate writes. *)
Definition dump_trail (queries : list string) : list string :=
  flat_map (fun x => [x; newline]) queries.

(** The snapshot of each iteration returns the batch listed for it. *)
Definition snapshots_return (envs : list Env) (bs : list (list string)) : Prop :=
  Forall2 (fun e b => snapshot (env_db e) = Returned b) envs bs.

(** The batches as [Update] receives them. *)
Definition normalized (bs : list (list string)) : list (list string) :=
  (fun b : list string => normalizeQuery <$> b) <$> bs.

(** Why a run of the loop can end. *)
Definition ends_for_a_reason (cfg : Config) (envs : list Env) (status : Status) : Prop :=
  match status with
  | Looping => True
  | Stopped => exists w, cfg_dump cfg = Some w /\ ~ sound w
  | Crashed err =>
      exists e rows, e ∈ envs /\ env_db e procList = inr rows /\ Columns rows = inl err
  | Killed code =>
      code = 1
      /\ exists e rows cs,
          e ∈ envs /\ env_db e procList = inr rows /\ Columns rows = inr cs
          /\ length cs <> 8%nat /\ length cs <> 9%nat
  end.

Section Reports.

Context `{rt : GoRuntime}.

(** One report: the header line and the lines of [Show]. *)
Definition report_of (s : Summarizer) (now : string) (n : Z) : list string :=
  header now :: written (Show s sound_writer n).

End Reports.

(** ** Measures of a pattern *)

(** A lower bound on the length of what [r] matches. *)
Fixpoint minlen (r : regex) : nat :=
  match r with
  | Eps | WordB | Star _ => 0
  | Class _ _ => 1
  | Cat r1 r2 => minlen r1 + minlen r2
  | Alt r1 r2 => Nat.min (minlen r1) (minlen r2)
  end.

(** The bytes of a text other than spaces, in order. *)
Definition unspaced (t : list ascii) : list ascii :=
  filter (fun a => a <> sp) t.

(** ** Integer literals *)

Definition is_sign (a : ascii) : bool :=
  in_class false [("+", "+"); ("-", "-")]%char a.

(** A run of one or more decimal digits. *)
Definition digits (s : string) : Prop :=
  s <> ""%string /\ forall a, holds s a -> is_digit a = true.

(** The text ends outside a word and not on a sign. *)
Definition ends_open (s : string) : Prop :=
  match last (list_ascii_of_string s) with
  | Some a => is_word a = false /\ is_sign a = false
  | None => True
  end.

(** The text starts outside a word. *)
Definition starts_open (s : string) : Prop :=
  match head (list_ascii_of_string s) with
  | Some a => is_word a = false
  | None => True
  end.

(** A byte on which no rule can start or go on: the negation of
    [tame_byte]. *)
Definition wild_byte (a : ascii) : bool := negb (tame_byte a).

(** ** Hexadecimal literals *)

Definition is_hexdigit (a : ascii) : bool :=
  in_class false [("0", "9"); ("A", "F"); ("a", "f")]%char a.

(** A run of one or more hexadecimal digits. *)
Definition hexdigits (s : string) : Prop :=
  s <> ""%string /\ forall a, holds s a -> is_hexdigit a = true.

(** The text ends outside a word. *)
Definition ends_outside_word (s : string) : Prop :=
  match last (list_ascii_of_string s) with
  | Some a => is_word a = false
  | None => True
  end.

(** Quotes, the backslash and the comma: what rules 4 to 8 need. *)
Definition is_mark (a : ascii) : bool :=
  in_class false [(squote, squote); (dquote, dquote);
                  (backslash, backslash); (",", ",")]%char a.

(** ** Escaped quotes *)

(** A byte that can stand inside a literal without ending it or being
    taken by another rule: no digit, no quote, no backslash. *)
Definition plain_byte (a : ascii) : bool :=
  in_class true [("0", "9"); (squote, squote); (dquote, dquote);
                 (backslash, backslash)]%char a.

Definition plain (s : string) : Prop :=
  forall a, holds s a -> plain_byte a = true.

(** The pattern of a quote [qc] after a backslash. *)
Definition escaped (qc : ascii) : regex := Cat (Chr backslash) (Chr qc).

(** ** The connection settings of [main]

    The fields of [mysql_defaults_file.Config] that [main] reads or
    writes.  What the defaults file gave, the environment variable
    [MYSQL_PWD] and the result of [user.Current] are inputs. *)

Record MyConfig : Type := {
  Host : string;
  User : string;
  Password : string;
  Port : Z
}.

(** The connection flags, with the names of the variables of [main]. *)
Record Flags : Type := {
  flag_host : string;
  flag_dbuser : string;
  flag_password : string;
  flag_port : Z
}.

(** The zero value of the struct: what [config] is without [~/.my.cnf]. *)
Definition zero_config : MyConfig :=
  {| Host := ""; User := ""; Password := ""; Port := 0 |}.

(** The conversion [uint16(port)]. *)
Definition uint16 (z : Z) : Z := z mod 65536.

Definition nonempty (s : string) : bool := negb (String.eqb s "").

(** Lines 250 to 280 of [main]: [my_cnf] is the configuration read from
    the defaults file if there is one, [mysql_pwd] the value of the
    environment variable (empty when unset), [current] the [Name] of
    the current user unless [user.Current] fails. *)
Definition connection_config (fl : Flags) (my_cnf : option MyConfig)
    (mysql_pwd : string) (current : option string) : MyConfig :=
  let config := default zero_config my_cnf in
  let config :=
    if nonempty (flag_host fl)
    then {| Host := flag_host fl; User := User config;
            Password := Password config; Port := Port config |}
    else config in
  let config :=
    if nonempty (flag_dbuser fl)
    then {| Host := Host config; User := flag_dbuser fl;
            Password := Password config; Port := Port config |}
    else config in
  let config :=
    if nonempty (flag_password fl)
    then {| Host := Host config; User := User config;
            Password := flag_password fl; Port := Port config |}
    else if nonempty mysql_pwd
    then {| Host := Host config; User := User config;
            Password := mysql_pwd; Port := Port config |}
    else config in
  let config :=
    if negb (flag_port fl =? 0)
    then {| Host := Host config; User := User config;
            Password := Password config; Port := uint16 (flag_port fl) |}
    else config in
  let config :=
    if nonempty (Host config) then config
    else {| Host := "localhost"; User := User config;
            Password := Password config; Port := Port config |} in
  if nonempty (User config) then config
  else match current with
       | Some name => {| Host := Host config; User := name;
                         Password := Password config; Port := Port config |}
       | None => config
       end.

(** The first text of a list that is not empty, or the empty text. *)
Fixpoint first_nonempty (l : list string) : string :=
  match l with
  | [] => ""
  | s :: rest => if nonempty s then s else first_nonempty rest
  end.

(** ** Long lists *)

(** One item of a list, as the last rule sees it: [N] or [S], blanks, a
    comma, blanks. *)
Definition list_item : regex :=
  Cat (Class false [("N", "N"); ("S", "S")]%char)
    (Cat (Star space) (Cat (Chr ",") (Star space))).

Definition item_byte (a : ascii) : bool :=
  in_class false [("N", "N"); ("S", "S")]%char a.

Definition is_space (a : ascii) : bool :=
  in_class false [("009", "010"); ("012", "013"); (" ", " ")]%char a.

Definition is_comma (a : ascii) : bool := in_class false [(",", ",")]%char a.

Definition blank (s : string) : Prop := forall a, holds s a -> is_space a = true.

Definition item (s : string) : Prop :=
  exists c s1 s2,
    s = String c (s1 +:+ String "," s2)
    /\ item_byte c = true /\ blank s1 /\ blank s2.

(** The texts of a list one after the other. *)
Definition join (l : list string) : string := foldr String.append ""%string l.

(** No item starts at the start of the text, and the text does not
    start with a blank. *)
Definition no_item_at (s : string) : Prop :=
  (forall p, matches list_item p (list_ascii_of_string s) = [])
  /\ match head (list_ascii_of_string s) with
     | Some a => is_space a = false
     | None => True
     end.

(** How many bytes of [P] a text holds. *)
Fixpoint count (P : ascii -> bool) (s : list ascii) : nat :=
  match s with
  | [] => 0
  | a :: s' => (if P a then 1 else 0) + count P s'
  end.

(** A lower bound on the number of bytes of [P] in what [r] matches. *)
Fixpoint mincount (P : ascii -> bool) (r : regex) : nat :=
  match r with
  | Eps | WordB | Star _ => 0
  | Class neg ranges =>
      if forallb (fun a => implb (in_class neg ranges a) (P a)) all_bytes then 1 else 0
  | Cat r1 r2 => mincount P r1 + mincount P r2
  | Alt r1 r2 => Nat.min (mincount P r1) (mincount P r2)
  end.

(** An item, as a list of bytes. *)
Definition item_bytes (it : list ascii) : Prop :=
  exists c s1 s2,
    it = (c :: s1 ++ "," :: s2)%char
    /\ item_byte c = true
    /\ (forall a, a ∈ s1 -> is_space a = true)
    /\ (forall a, a ∈ s2 -> is_space a = true).

(** A second runtime: the map is walked in the opposite order. *)
Definition reversed_runtime : GoRuntime.
Proof.
  refine {| mapRange := fun m => reverse (map_to_list m);
            sort_Sort := merge_sort by_count |}.
  - intros m. apply reverse_Permutation.
  - intros pl. apply merge_sort_Permutation.
  - intros pl. apply Sorted_merge_sort. apply _.
Defined.

(** Two states of the loop that differ at most in the report sink. *)
Definition same_but_stdout (st1 st2 : LoopState) : Prop :=
  summ st1 = summ st2 /\ cnt st1 = cnt st2 /\ dump st1 = dump st2
  /\ logged st1 = logged st2.
(** Goals about the members of a list that is given in full: [each_in]
    when the goal holds of each member by computation, [absent_in] when
    the hypothesis names a member the list does not have. *)
Ltac each_in H :=
  vm_compute in H;
  repeat (apply elem_of_cons in H as [->|H]; [by repeat split|]);
  by apply elem_of_nil in H.

Ltac absent_in H :=
  vm_compute in H;
  repeat (apply elem_of_cons in H as [H|H]; [discriminate|]);
  by apply elem_of_nil in H.

(** ** Windowed retention *)

Lemma recent_Update_returns (s : recentSummarizer) (queries : list string) :
  0 < r_last s ->
  exists counts,
    recentSummarizer_Update s queries
    = Returned ({| r_last := r_last s;
                   r_counts := counts ++ [fold_left rle_step (sort_Strings queries) []] |},
                sort_Strings queries)
    /\ counts = (if Z.of_nat (length (r_counts s)) >=? r_last s
                 then tail (r_counts s) else r_counts s).
Proof.
  intros Hpos. unfold recentSummarizer_Update.
  destruct (Z.of_nat (length (r_counts s)) >=? r_last s) eqn:Hge.
  - destruct (r_counts s) as [|r0 rs] eqn:Hc.
    + apply Z.geb_le in Hge. simpl in Hge. lia.
    + eexists. split; reflexivity.
  - eexists. split; reflexivity.
Qed.

Lemma recent_Update_bound (s s' : recentSummarizer) (queries qs' : list string) :
  0 < r_last s ->
  Z.of_nat (length (r_counts s)) <= r_last s ->
  recentSummarizer_Update s queries = Returned (s', qs') ->
  r_last s' = r_last s /\ Z.of_nat (length (r_counts s')) <= r_last s.
Proof.
  intros Hpos Hlen Hupd.
  destruct (recent_Update_returns s queries Hpos) as (counts & Heq & Hcounts).
  rewrite Heq in Hupd. injection Hupd as <- <-. simpl. split; [reflexivity|].
  rewrite length_app. simpl. subst counts.
  destruct (Z.of_nat (length (r_counts s)) >=? r_last s) eqn:Hge.
  - apply Z.geb_le in Hge. destruct (r_counts s); simpl in *; lia.
  - lia.
Qed.

Lemma recent_updates_bound (batches : list (list string)) :
  forall s : recentSummarizer,
    0 < r_last s ->
    Z.of_nat (length (r_counts s)) <= r_last s ->
    exists s', recent_updates s batches = Returned s'
               /\ r_last s' = r_last s
               /\ Z.of_nat (length (r_counts s')) <= r_last s.
Proof.
  induction batches as [|b rest IH]; intros s Hpos Hlen; simpl.
  - exists s. auto.
  - destruct (recent_Update_returns s b Hpos) as (counts & Heq & _).
    pose proof (recent_Update_bound s _ b _ Hpos Hlen Heq) as [Hl Hb].
    rewrite Heq.
    match goal with |- context [recent_updates ?s1 rest] =>
      destruct (IH s1) as (s' & Hrun & Hl' & Hb') end.
    + rewrite Hl. exact Hpos.
    + rewrite Hl. exact Hb.
    + exists s'. rewrite Hl in Hl', Hb'. auto.
Qed.

(** C6. A windowed summarizer built with retention [N > 0] holds at most
    [N] rounds after any run of [Update] calls from the empty state, and
    none of those calls fails.  The run is arbitrary, so the bound holds
    after each call of it. *)
Theorem recent_queue_never_exceeds_capacity (N : Z) (batches : list (list string)) :
  0 < N ->
  exists s', recent_updates {| r_last := N; r_counts := [] |} batches = Returned s'
             /\ Z.of_nat (length (r_counts s')) <= N.
Proof.
  intros HN.
  destruct (recent_updates_bound batches {| r_last := N; r_counts := [] |})
    as (s' & Hrun & _ & Hb); simpl; try lia.
  exists s'. auto.
Qed.

Lemma recent_queue_never_exceeds_capacity_witness :
  exists s', recent_updates {| r_last := 2; r_counts := [] |}
               [["a"; "b"]; ["c"]; ["a"]; []]%string = Returned s'
             /\ Z.of_nat (length (r_counts s')) <= 2.
Proof.
  apply (recent_queue_never_exceeds_capacity 2 [["a"; "b"]; ["c"]; ["a"]; []]%string).
  lia.
Defined.

(** ** In-place sorting of the batch *)

(** C10. [recentSummarizer.Update] leaves the caller's slice sorted
    ascending by statement text: a permutation of what was passed in,
    and a different sequence whenever the batch was not already sorted.
    [summarizer.Update] leaves the slice as it was. *)
Theorem Update_effect_on_batch (s : summarizer) (queries : list string) :
  (forall r : recentSummarizer,
      0 < r_last r ->
      exists r' qs',
        recentSummarizer_Update r queries = Returned (r', qs')
        /\ qs' ≡ₚ queries
        /\ Sorted String.le qs'
        /\ (~ Sorted String.le queries -> qs' <> queries))
  /\ snd (summarizer_Update s queries) = queries.
Proof.
  split; [|reflexivity]. intros r Hpos.
  destruct (recent_Update_returns r queries Hpos) as (counts & Heq & _).
  eexists _, _. split; [exact Heq|].
  assert (Hs : Sorted String.le (sort_Strings queries))
    by (apply Sorted_merge_sort; apply _).
  split; [apply merge_sort_Permutation|].
  split; [exact Hs|].
  intros Hns Heq'. apply Hns. rewrite <- Heq'. exact Hs.
Qed.

Lemma Update_effect_on_batch_witness :
  (exists r' qs',
      recentSummarizer_Update {| r_last := 1; r_counts := [] |} ["b"; "a"; "b"]%string
      = Returned (r', qs')
      /\ qs' ≡ₚ ["b"; "a"; "b"]%string
      /\ Sorted String.le qs'
      /\ (~ Sorted String.le ["b"; "a"; "b"]%string -> qs' <> ["b"; "a"; "b"]%string))
  /\ snd (summarizer_Update {| s_counts := ∅ |} ["b"; "a"; "b"]%string)
     = ["b"; "a"; "b"]%string.
Proof.
  destruct (Update_effect_on_batch {| s_counts := ∅ |} ["b"; "a"; "b"]%string)
    as [Hr Hs].
  split; [|exact Hs]. apply Hr. simpl. lia.
Defined.

(** The batch of the witness is handed back as [a; b; b]. *)
Example Update_sorts_in_place :
  recentSummarizer_Update {| r_last := 1; r_counts := [] |} ["b"; "a"; "b"]%string
  = Returned ({| r_last := 1;
                 r_counts := [[{| q := "a"; c := 1 |}; {| q := "b"; c := 2 |}]] |},
              ["a"; "b"; "b"]%string).
Proof. vm_compute. reflexivity. Qed.

(** ** The process list *)

Lemma scan_rows_fold (l : list Scan) :
  forall queries log,
    fold_left scan_row l (queries, log)
    = (queries ++ omap contributes l, log ++ omap decode_error l).
Proof.
  induction l as [|sc l IH]; intros queries log; simpl.
  - by rewrite !app_nil_r.
  - destruct sc as [r|e]; simpl.
    + destruct (info r) as [i|] eqn:Hi; simpl.
      * destruct (String.eqb_spec i ""); simpl.
        { rewrite IH. rewrite decide_False by tauto. reflexivity. }
        destruct (String.eqb_spec i procList); simpl.
        { rewrite IH. rewrite decide_False by tauto. reflexivity. }
        rewrite IH. rewrite decide_True by tauto.
        by rewrite <- app_assoc.
      * apply IH.
    + rewrite IH. by rewrite <- app_assoc.
Qed.

Lemma processList_known (db : DB) (rows : Rows) (log : list string) :
  db procList = inr rows ->
  known_columns rows ->
  processList db log
  = (Returned (omap contributes (scans rows)),
     close_rows rows (log ++ omap decode_error (scans rows))).
Proof.
  intros Hq (cs & Hcs & Hlen). unfold processList. rewrite Hq, Hcs.
  assert (Hb : negb (Nat.eqb (length cs) 8) && negb (Nat.eqb (length cs) 9) = false).
  { destruct Hlen as [-> | ->]; reflexivity. }
  rewrite Hb, scan_rows_fold. reflexivity.
Qed.

(** C8. For a snapshot whose columns are the known ones, the batch
    [processList] returns is, in row order, the statement text of every
    row whose text is neither null, nor empty, nor the snapshot query;
    a statement is in the batch exactly when such a row carries it. *)
Theorem processList_filters_rows (db : DB) (rows : Rows) (log : list string) :
  db procList = inr rows ->
  known_columns rows ->
  exists queries,
    fst (processList db log) = Returned queries
    /\ queries = omap contributes (scans rows)
    /\ (forall x, x ∈ queries <->
          exists r, ScanOk r ∈ scans rows /\ info r = Some x
                    /\ x <> ""%string /\ x <> procList).
Proof.
  intros Hq Hk. rewrite (processList_known db rows log Hq Hk). simpl.
  eexists. split; [reflexivity|]. split; [reflexivity|].
  intros x. rewrite list_elem_of_omap. split.
  - intros (sc & Hin & Hc). destruct sc as [r|e]; simpl in Hc; [|discriminate].
    destruct (info r) as [i|] eqn:Hi; [|discriminate].
    case_decide; [|discriminate]. injection Hc as ->.
    exists r. tauto.
  - intros (r & Hin & Hi & Hne & Hnp). exists (ScanOk r). split; [exact Hin|].
    simpl. rewrite Hi. rewrite decide_True by tauto. reflexivity.
Qed.

Lemma processList_filters_rows_witness :
  exists queries,
    fst (processList
           (sample_db [sample_row (Some "SELECT 1"); sample_row None;
                       sample_row (Some ""); sample_row (Some procList);
                       ScanErr "bad row"; sample_row (Some "SELECT 2")]%string) [])
    = Returned queries
    /\ queries
       = omap contributes
           (scans (sample_rows
                     [sample_row (Some "SELECT 1"); sample_row None;
                      sample_row (Some ""); sample_row (Some procList);
                      ScanErr "bad row"; sample_row (Some "SELECT 2")]%string))
    /\ (forall x, x ∈ queries <->
          exists r,
            ScanOk r ∈ scans (sample_rows
                     [sample_row (Some "SELECT 1"); sample_row None;
                      sample_row (Some ""); sample_row (Some procList);
                      ScanErr "bad row"; sample_row (Some "SELECT 2")]%string)
            /\ info r = Some x /\ x <> ""%string /\ x <> procList).
Proof.
  apply (processList_filters_rows _ (sample_rows _) []).
  - reflexivity.
  - exists cols8. split; [reflexivity | left; reflexivity].
Defined.

Example processList_filters_sample :
  fst (processList
         (sample_db [sample_row (Some "SELECT 1"); sample_row None;
                     sample_row (Some ""); sample_row (Some procList);
                     ScanErr "bad row"; sample_row (Some "SELECT 2")]%string) [])
  = Returned ["SELECT 1"; "SELECT 2"]%string.
Proof. vm_compute. reflexivity. Qed.


(** ** Arithmetic of [int64] *)

Lemma wrap64_idem_l (a b : Z) :
  Int64.wrap64 (Int64.wrap64 a + b) = Int64.wrap64 (a + b).
Proof.
  unfold Int64.wrap64. f_equal.
  replace ((a + Int64.half) mod Int64.modulus - Int64.half + b + Int64.half)
    with ((a + Int64.half) mod Int64.modulus + b) by lia.
  rewrite Zplus_mod_idemp_l. f_equal. lia.
Qed.

Lemma wrap64_idem_r (a b : Z) :
  Int64.wrap64 (a + Int64.wrap64 b) = Int64.wrap64 (a + b).
Proof. rewrite (Z.add_comm a), wrap64_idem_l. f_equal. lia. Qed.

Lemma wrap64_small (z : Z) : Int64.in_range z -> Int64.wrap64 z = z.
Proof.
  unfold Int64.in_range, Int64.wrap64, Int64.half, Int64.modulus. intros H.
  rewrite Z.mod_small; lia.
Qed.

Lemma wrap64_add_congr (a a' b b' : Z) :
  Int64.wrap64 a = Int64.wrap64 a' ->
  Int64.wrap64 b = Int64.wrap64 b' ->
  Int64.wrap64 (a + b) = Int64.wrap64 (a' + b').
Proof.
  intros Ha Hb.
  rewrite <- (wrap64_idem_l a b), <- (wrap64_idem_r _ b), Ha, Hb.
  by rewrite wrap64_idem_r, wrap64_idem_l.
Qed.

(** ** Counting statements *)

Lemma occurrences_nil (x : string) : occurrences x [] = 0.
Proof. reflexivity. Qed.

Lemma occurrences_cons (x y : string) (l : list string) :
  occurrences x (y :: l) = (if decide (y = x) then 1 else 0) + occurrences x l.
Proof.
  unfold occurrences. rewrite filter_cons.
  destruct (decide (y = x)); simpl length; lia.
Qed.

Lemma occurrences_app (x : string) (l1 l2 : list string) :
  occurrences x (l1 ++ l2) = occurrences x l1 + occurrences x l2.
Proof. unfold occurrences. rewrite filter_app, length_app. lia. Qed.

Lemma occurrences_notin (x : string) (l : list string) :
  x ∉ l -> occurrences x l = 0.
Proof.
  induction l as [|y l IH]; intros Hn; [reflexivity|].
  rewrite occurrences_cons.
  rewrite not_elem_of_cons in Hn. destruct Hn as [Hne Hn].
  rewrite (IH Hn). rewrite decide_False by congruence. reflexivity.
Qed.


Lemma occurrences_le_length (x : string) (l : list string) :
  occurrences x l <= Z.of_nat (length l).
Proof. unfold occurrences. pose proof (length_filter (fun y => y = x) l). lia. Qed.

Lemma occurrences_perm (x : string) (l1 l2 : list string) :
  l1 ≡ₚ l2 -> occurrences x l1 = occurrences x l2.
Proof. intros H. unfold occurrences. by rewrite H. Qed.

(** The counts [summarizer.Update] leaves. *)
Lemma count_fold (l : list string) :
  forall (m : gmap string Z) (x : string),
    fold_left count_one l m !! x
    = if decide (x ∈ l)
      then Some (Int64.wrap64 (default 0 (m !! x) + occurrences x l))
      else m !! x.
Proof.
  induction l as [|y l IH]; intros m x; cbn [fold_left].
  - destruct (decide (x ∈ [])) as [H|H]; [by apply elem_of_nil in H | reflexivity].
  - rewrite IH, occurrences_cons. unfold count_one, bump, Int64.incr, Int64.add.
    destruct (decide (y = x)) as [->|Hne].
    + rewrite lookup_insert_eq. simpl.
      rewrite (decide_True (P := x ∈ x :: l)) by (apply elem_of_cons; by left).
      destruct (decide (x ∈ l)) as [Hin|Hnin].
      * rewrite wrap64_idem_l. do 2 f_equal. lia.
      * rewrite occurrences_notin by exact Hnin. rewrite Z.add_0_r. reflexivity.
    + rewrite lookup_insert_ne by exact Hne.
      destruct (decide (x ∈ l)) as [Hin|Hnin].
      * rewrite (decide_True (P := x ∈ y :: l)) by (apply elem_of_cons; by right).
        reflexivity.
      * rewrite (decide_False (P := x ∈ y :: l))
          by (intros [?|?]%elem_of_cons; congruence).
        reflexivity.
Qed.

Lemma count_fold_empty (l : list string) : counts_of l (fold_left count_one l ∅).
Proof. intros x. rewrite count_fold, lookup_empty. reflexivity. Qed.

Lemma total_app (l1 l2 : list queryCount) (x : string) :
  total (l1 ++ l2) x = total l1 x + total l2 x.
Proof.
  unfold total. induction l1 as [|p l1 IH]; simpl; [reflexivity|].
  rewrite IH. lia.
Qed.

Lemma total_notin (qcs : list queryCount) (x : string) :
  x ∉ q <$> qcs -> total qcs x = 0.
Proof.
  unfold total. induction qcs as [|p l IH]; simpl; intros Hn; [reflexivity|].
  rewrite not_elem_of_cons in Hn. destruct Hn as [Hne Hn].
  rewrite (IH Hn). rewrite decide_False by congruence. reflexivity.
Qed.

(** One step of the encoding adds the statement to the keys and one to
    its count. *)
Lemma rle_step_spec (qc : list queryCount) (y x : string) :
  (x ∈ q <$> rle_step qc y <-> x ∈ q <$> qc \/ x = y)
  /\ Int64.wrap64 (total (rle_step qc y) x)
     = Int64.wrap64 (total qc x + if decide (y = x) then 1 else 0).
Proof.
  assert (Hsnoc : forall l,
    (x ∈ q <$> l ++ [{| q := y; c := 1 |}] <-> x ∈ q <$> l \/ x = y)
    /\ Int64.wrap64 (total (l ++ [{| q := y; c := 1 |}]) x)
       = Int64.wrap64 (total l x + if decide (y = x) then 1 else 0)).
  { intros l. split.
    - rewrite fmap_app, elem_of_app. simpl. rewrite list_elem_of_singleton. tauto.
    - rewrite total_app. unfold total at 2. simpl. do 2 f_equal. lia. }
  unfold rle_step. destruct (last qc) as [p|] eqn:Hlast; [|apply Hsnoc].
  destruct (String.eqb_spec (q p) y) as [Heq|Hne]; [|apply Hsnoc].
  apply last_Some in Hlast. destruct Hlast as (l' & ->).
  replace (length (l' ++ [p]) - 1)%nat with (length l' + 0)%nat
    by (rewrite length_app; simpl; lia).
  rewrite alter_app_r. simpl. split.
  - rewrite !fmap_app, !elem_of_app. simpl. rewrite !list_elem_of_singleton.
    split; [tauto|]. intros [H|H]; [exact H|]. right. congruence.
  - rewrite !total_app. unfold total at 2 4. simpl. subst y.
    destruct (decide (q p = x)) as [Hx|Hx].
    + unfold Int64.incr, Int64.add. rewrite Z.add_0_r, wrap64_idem_r.
      f_equal. lia.
    + f_equal. lia.
Qed.

Lemma rle_fold (l : list string) :
  forall (qc : list queryCount) (x : string),
    (x ∈ q <$> fold_left rle_step l qc <-> x ∈ q <$> qc \/ x ∈ l)
    /\ Int64.wrap64 (total (fold_left rle_step l qc) x)
       = Int64.wrap64 (total qc x + occurrences x l).
Proof.
  induction l as [|y l IH]; intros qc x; cbn [fold_left].
  - split.
    + rewrite elem_of_nil. tauto.
    + rewrite occurrences_nil. f_equal. lia.
  - destruct (IH (rle_step qc y) x) as [IHk IHt].
    destruct (rle_step_spec qc y x) as [Hk Ht]. split.
    + rewrite IHk, Hk, elem_of_cons. tauto.
    + rewrite IHt, occurrences_cons.
      rewrite <- (wrap64_idem_l (total (rle_step qc y) x)), Ht, wrap64_idem_l.
      f_equal. lia.
Qed.

(** The round [recentSummarizer.Update] records for a batch. *)
Lemma round_of_batch (b : list string) (x : string) :
  (x ∈ q <$> fold_left rle_step (sort_Strings b) [] <-> x ∈ b)
  /\ Int64.wrap64 (total (fold_left rle_step (sort_Strings b) []) x)
     = Int64.wrap64 (occurrences x b).
Proof.
  destruct (rle_fold (sort_Strings b) [] x) as [Hk Ht].
  assert (Hp : sort_Strings b ≡ₚ b) by apply merge_sort_Permutation.
  split.
  - rewrite Hk, Hp. simpl. rewrite elem_of_nil. tauto.
  - rewrite Ht. rewrite (occurrences_perm x _ _ Hp). reflexivity.
Qed.

(** The aggregate after the rounds of one more retained round. *)
Lemma add_count_fold (qcs : list queryCount) :
  forall (sum : gmap string Z) (x : string),
    fold_left add_count qcs sum !! x
    = if decide (x ∈ q <$> qcs)
      then Some (Int64.wrap64 (default 0 (sum !! x) + total qcs x))
      else sum !! x.
Proof.
  induction qcs as [|p l IH]; intros sum x; cbn [fold_left].
  - destruct (decide (x ∈ q <$> [])) as [H|H]; [by apply elem_of_nil in H | reflexivity].
  - rewrite IH. unfold add_count, Int64.add.
    change (total (p :: l) x) with ((if decide (q p = x) then c p else 0) + total l x).
    rewrite fmap_cons.
    destruct (decide (q p = x)) as [Heq|Hne].
    + rewrite Heq, lookup_insert_eq. simpl.
      rewrite (decide_True (P := x ∈ x :: (q <$> l))) by (apply elem_of_cons; by left).
      destruct (decide (x ∈ q <$> l)) as [Hin|Hnin].
      * rewrite wrap64_idem_l. do 2 f_equal. lia.
      * rewrite total_notin by exact Hnin. rewrite Z.add_0_r. reflexivity.
    + rewrite lookup_insert_ne by exact Hne.
      destruct (decide (x ∈ q <$> l)) as [Hin|Hnin].
      * rewrite (decide_True (P := x ∈ q p :: (q <$> l)))
          by (apply elem_of_cons; by right).
        reflexivity.
      * rewrite (decide_False (P := x ∈ q p :: (q <$> l)))
          by (intros [?|?]%elem_of_cons; congruence).
        reflexivity.
Qed.

(** ** The printing loop *)


Lemma Write_sound (w : Writer) (p : string) :
  sound w ->
  exists w', Write w p = (w', None) /\ written w' = written w ++ [p] /\ sound w'.
Proof.
  unfold sound, Write. intros Hs.
  destruct (outcomes w) as [|[e|] os] eqn:Ho.
  - eexists. split; [reflexivity|]. simpl. split; [reflexivity|]. constructor.
  - inversion Hs; discriminate.
  - eexists. split; [reflexivity|]. simpl. split; [reflexivity|]. by inversion Hs.
Qed.


(** On a sink that takes every write, the lines written are those of the
    counts at the indices below [n]. *)
Lemma show_lines_sound (counts : pairList) :
  forall (w : Writer) (i n : Z),
    sound w ->
    written (show_lines w counts i n)
    = written w ++ (format_line <$> take (Z.to_nat (n - i)) counts)
    /\ sound (show_lines w counts i n).
Proof.
  induction counts as [|p rest IH]; intros w i n Hs; cbn [show_lines].
  - rewrite take_nil. simpl. by rewrite app_nil_r.
  - destruct (i >=? n) eqn:Hin.
    + apply Z.geb_le in Hin. replace (Z.to_nat (n - i)) with 0%nat by lia.
      simpl. by rewrite app_nil_r.
    + assert (i < n) by (destruct (Z.geb_spec i n); [discriminate | lia]).
      unfold Fprintf_line.
      destruct (Write_sound w (format_line p) Hs) as (w' & Hw & Hwr & Hs').
      rewrite Hw. destruct (IH w' (i + 1) n Hs') as [Hk Hs''].
      split; [|exact Hs''].
      rewrite Hk, Hwr. replace (Z.to_nat (n - i)) with (S (Z.to_nat (n - (i + 1)))) by lia.
      simpl. by rewrite <- app_assoc.
Qed.


(** ** The ranked report *)

Section Report.

Context `{rt : GoRuntime}.




Lemma sorted_lookup (pl : pairList) :
  StronglySorted by_count pl ->
  forall i j a b,
    (i < j)%nat -> pl !! i = Some a -> pl !! j = Some b -> by_count a b.
Proof.
  induction 1 as [|x l Hl IH Hx]; intros i j a b Hij Hi Hj; [discriminate|].
  destruct j as [|j']; [lia|]. destruct i as [|i']; simpl in Hi, Hj.
  - injection Hi as <-. rewrite Forall_forall in Hx. apply Hx.
    apply list_elem_of_lookup. by exists j'.
  - apply (IH i' j'); [lia | exact Hi | exact Hj].
Qed.

(** In a sorted [pairList] no element is [Less] than an earlier one. *)
Lemma sorted_no_Less (pl : pairList) (i j : nat) :
  Sorted by_count pl -> (i < j)%nat -> Less pl j i = false.
Proof.
  intros Hs Hij. apply Sorted_StronglySorted in Hs; [|apply _].
  unfold Less. destruct (pl !! j) as [b|] eqn:Hj; [|reflexivity].
  destruct (pl !! i) as [a|] eqn:Hi; [|reflexivity].
  pose proof (sorted_lookup pl Hs i j a b Hij Hi Hj) as H.
  unfold by_count in H. destruct (Z.gtb_spec (c b) (c a)); [lia | reflexivity].
Qed.



End Report.


Example rank_all_sample :
  written (showSummary (rt := merge_runtime) sound_writer
             (<["SELECT N" := 3]> (<["UPDATE t SET a = S" := 7]> (<["COMMIT" := 12345]> ∅)))%string
             4)
  = ["12345 COMMIT" +:+ newline; "   7 UPDATE t SET a = S" +:+ newline;
     "   3 SELECT N" +:+ newline]%string.
Proof. vm_compute. reflexivity. Qed.

(** ** The window of the last two rounds *)



Section Window.

Context `{rt : GoRuntime}.


End Window.


Example windowed_two_report :
  (let '(s3, out) :=
     match recent_updates {| r_last := 2; r_counts := [] |}
             [["A"; "B"; "A"]; ["B"; "C"]; ["C"; "D"; "C"]]%string with
     | Returned s3 => (s3, recentSummarizer_Show (rt := merge_runtime) s3 sound_writer 10)
     | _ => ({| r_last := 0; r_counts := [] |}, sound_writer)
     end in
   (r_counts s3, written out))
  = ([[{| q := "B"; c := 1 |}; {| q := "C"; c := 1 |}];
      [{| q := "C"; c := 2 |}; {| q := "D"; c := 1 |}]],
     ["   3 C" +:+ newline; "   1 D" +:+ newline; "   1 B" +:+ newline])%string.
Proof. vm_compute. reflexivity. Qed.

(** ** The sampling loop *)

Lemma processList_fst (db : DB) (log : list string) :
  fst (processList db log) = snapshot db.
Proof.
  unfold snapshot, processList. destruct (db procList) as [err|rows]; [reflexivity|].
  destruct (Columns rows) as [err|cs]; [reflexivity|].
  destruct (negb (Nat.eqb (length cs) 8) && negb (Nat.eqb (length cs) 9)); [reflexivity|].
  rewrite !scan_rows_fold. reflexivity.
Qed.

Lemma dump_queries_sound (queries : list string) :
  forall w, sound w -> exists w', dump_queries w queries = (w', None) /\ sound w'.
Proof.
  induction queries as [|x rest IH]; intros w Hs; cbn [dump_queries].
  - by exists w.
  - destruct (Write_sound w x Hs) as (w1 & Hw1 & _ & Hs1). rewrite Hw1.
    destruct (Write_sound w1 newline Hs1) as (w2 & Hw2 & _ & Hs2). rewrite Hw2.
    by apply IH.
Qed.

Section Sampling.

Context `{rt : GoRuntime}.

(** A round of the cumulative summarizer whose dump writes go through. *)
Lemma round_cumulative (cfg : Config) (st : LoopState) (now : string)
    (queries log : list string) (s : summarizer) :
  summ st = OfSummarizer s ->
  dump_ok (dump st) ->
  exists d',
    dump_ok d'
    /\ round cfg st now queries log
       = (let s' := OfSummarizer
                      {| s_counts := fold_left count_one (normalizeQuery <$> queries)
                                       (s_counts s) |} in
          if Int64.incr (cnt st) >=? cfg_delay cfg
          then {| summ := s'; cnt := 0; dump := d';
                  stdout := Show s' (fst (Write (stdout st) (header now))) (cfg_topN cfg);
                  logged := log |}
          else {| summ := s'; cnt := Int64.incr (cnt st); dump := d';
                  stdout := stdout st; logged := log |},
          Looping).
Proof.
  intros Hs Hd. unfold round. rewrite Hs.
  destruct (dump st) as [w|].
  - destruct (dump_queries_sound queries w Hd) as (w' & Hw & Hs').
    rewrite Hw. exists (Some w'). split; [exact Hs'|].
    cbn [Update summarizer_Update].
    destruct (Int64.incr (cnt st) >=? cfg_delay cfg); reflexivity.
  - exists None. split; [exact I|].
    cbn [Update summarizer_Update].
    destruct (Int64.incr (cnt st) >=? cfg_delay cfg); reflexivity.
Qed.

Lemma iteration_returned (cfg : Config) (st : LoopState) (e : Env) (b : list string) :
  snapshot (env_db e) = Returned b ->
  iteration cfg st e
  = round cfg st (env_now e) b (snd (processList (env_db e) (logged st))).
Proof.
  intros Hb. unfold iteration.
  pose proof (processList_fst (env_db e) (logged st)) as Hf. rewrite Hb in Hf.
  destruct (processList (env_db e) (logged st)) as [o log]. simpl in Hf. subst o.
  reflexivity.
Qed.

(** An iteration whose snapshot returns and whose dump writes go through
    ends with the loop running. *)
Lemma iteration_continues (cfg : Config) (st : LoopState) (e : Env) (b : list string) :
  wf_summarizer (summ st) ->
  dump_ok (dump st) ->
  snapshot (env_db e) = Returned b ->
  snd (iteration cfg st e) = Looping.
Proof.
  intros Hwf Hd Hb. rewrite (iteration_returned cfg st e b Hb). unfold round.
  assert (Hdump : exists d,
             match dump st with
             | Some w => let '(w', err) := dump_queries w b in (Some w', err)
             | None => (None, None)
             end = (d, None)).
  { destruct (dump st) as [w|]; [|by eexists].
    destruct (dump_queries_sound b w Hd) as (w' & -> & _). by eexists. }
  destruct Hdump as (d & ->).
  assert (Hu : exists s' qs, Update (summ st) (normalizeQuery <$> b) = Returned (s', qs)).
  { destruct (summ st) as [s0|r0]; cbn [Update].
    - eexists _, _. reflexivity.
    - simpl in Hwf.
      destruct (recent_Update_returns r0 (normalizeQuery <$> b) Hwf) as (cs & -> & _).
      eexists _, _. reflexivity. }
  destruct Hu as (s' & qs & ->).
  destruct (Int64.incr (cnt st) >=? cfg_delay cfg); reflexivity.
Qed.

(** The summarizer of the loop is always one [NewSummarizer] could have
    built: a windowed one keeps its positive retention. *)
Lemma NewSummarizer_wf (last : Z) : wf_summarizer (NewSummarizer last).
Proof.
  unfold NewSummarizer. destruct (Z.gtb_spec last 0); simpl; [lia | exact I].
Qed.

Lemma Update_wf (s s' : Summarizer) (queries qs : list string) :
  wf_summarizer s -> Update s queries = Returned (s', qs) -> wf_summarizer s'.
Proof.
  destruct s as [s0|r0]; cbn [Update summarizer_Update]; intros Hwf Hu.
  - by injection Hu as <- _.
  - simpl in Hwf. destruct (recent_Update_returns r0 queries Hwf) as (cs & Heq & _).
    rewrite Heq in Hu. by injection Hu as <- _.
Qed.

Lemma iteration_wf (cfg : Config) (st st' : LoopState) (e : Env) (status : Status) :
  wf_summarizer (summ st) ->
  iteration cfg st e = (st', status) ->
  wf_summarizer (summ st').
Proof.
  intros Hwf. unfold iteration.
  destruct (processList (env_db e) (logged st)) as [[b|err|n] log];
    [|by intros [= <- _]|by intros [= <- _]].
  unfold round.
  destruct (match dump st with
            | Some w => let '(w', err) := dump_queries w b in (Some w', err)
            | None => (None, None)
            end) as [d [err|]]; [by intros [= <- _]|].
  destruct (Update (summ st) (normalizeQuery <$> b)) as [[s1 qs]|err|n] eqn:Hu;
    [|by intros [= <- _]|by intros [= <- _]].
  pose proof (Update_wf _ _ _ _ Hwf Hu) as Hwf'.
  destruct (Int64.incr (cnt st) >=? cfg_delay cfg); by intros [= <- _].
Qed.

Lemma profile_loop_wf (cfg : Config) (envs : list Env) :
  forall st st' status,
    wf_summarizer (summ st) ->
    profile_loop cfg st envs = (st', status) ->
    wf_summarizer (summ st').
Proof.
  induction envs as [|e rest IH]; intros st st' status Hwf; cbn [profile_loop].
  - by intros [= <- _].
  - destruct (iteration cfg st e) as [st1 status1] eqn:Hit.
    pose proof (iteration_wf _ _ _ _ _ Hwf Hit) as Hwf1.
    destruct status1; try by intros [= <- _].
    by apply IH.
Qed.

Lemma profile_wf (cfg : Config) (out : Writer) (envs : list Env)
    (st : LoopState) (status : Status) :
  profile cfg out envs = (st, status) -> wf_summarizer (summ st).
Proof. apply profile_loop_wf. apply NewSummarizer_wf. Qed.

(** C9. With a cadence of 2 and the cumulative summarizer, a run over
    three snapshots writes nothing on the report sink in the first
    round, writes in the second round one header and the ranked lines of
    the counts of the statements of rounds 1 and 2 together, and writes
    nothing in the third.  The sinks are taken to accept their writes. *)
Theorem one_report_after_round_two
    (cfg : Config) (out : Writer) (e1 e2 e3 : Env) (b1 b2 b3 : list string) :
  cfg_delay cfg = 2 ->
  cfg_last cfg <= 0 ->
  dump_ok (cfg_dump cfg) ->
  sound out ->
  snapshot (env_db e1) = Returned b1 ->
  snapshot (env_db e2) = Returned b2 ->
  snapshot (env_db e3) = Returned b3 ->
  exists st1 st2 st3 m,
    profile cfg out [e1] = (st1, Looping)
    /\ written (stdout st1) = written out
    /\ profile cfg out [e1; e2] = (st2, Looping)
    /\ counts_of ((normalizeQuery <$> b1) ++ (normalizeQuery <$> b2)) m
    /\ written (stdout st2)
       = written out
         ++ header (env_now e2)
            :: (format_line
                  <$> take (Z.to_nat (cfg_topN cfg)) (sort_Sort (pair_of <$> mapRange m)))
    /\ profile cfg out [e1; e2; e3] = (st3, Looping)
    /\ written (stdout st3) = written (stdout st2).
Proof.
  intros Hdelay Hlast Hdump Hout H1 H2 H3.
  unfold profile. cbn [profile_loop].
  rewrite (iteration_returned cfg _ e1 b1 H1).
  assert (Hnew : NewSummarizer (cfg_last cfg) = OfSummarizer {| s_counts := ∅ |}).
  { unfold NewSummarizer. destruct (Z.gtb_spec (cfg_last cfg) 0); [lia | reflexivity]. }
  destruct (round_cumulative cfg (profile_init cfg out) (env_now e1) b1
              (snd (processList (env_db e1) (logged (profile_init cfg out))))
              {| s_counts := ∅ |} Hnew Hdump) as (d1 & Hd1 & ->).
  rewrite Hdelay. cbn [profile_init cnt s_counts].
  change (Int64.incr 0 >=? 2) with false. cbv iota zeta.
  rewrite (iteration_returned cfg _ e2 b2 H2).
  match goal with |- context [round cfg ?st (env_now e2) b2 ?log] =>
    destruct (round_cumulative cfg st (env_now e2) b2 log _ eq_refl Hd1)
      as (d2 & Hd2 & ->) end.
  rewrite Hdelay. cbn [cnt s_counts stdout].
  change (Int64.incr (Int64.incr 0) >=? 2) with true. cbv iota zeta.
  rewrite (iteration_returned cfg _ e3 b3 H3).
  match goal with |- context [round cfg ?st (env_now e3) b3 ?log] =>
    destruct (round_cumulative cfg st (env_now e3) b3 log _ eq_refl Hd2)
      as (d3 & Hd3 & ->) end.
  rewrite Hdelay. cbn [cnt s_counts stdout].
  change (Int64.incr 0 >=? 2) with false. cbv iota zeta.
  eexists _, _, _,
    (fold_left count_one (normalizeQuery <$> b2)
       (fold_left count_one (normalizeQuery <$> b1) ∅)).
  split; [reflexivity|]. split; [reflexivity|].
  split; [reflexivity|]. split; [|split; [|split; reflexivity]].
  - rewrite <- fold_left_app. apply count_fold_empty.
  - change (stdout (profile_init cfg out)) with out.
    destruct (Write_sound out (header (env_now e2)) Hout) as (w' & Hw & Hwr & Hs').
    rewrite Hw. cbn [fst stdout Show].
    unfold summarizer_Show, showSummary. cbv zeta. cbn [s_counts].
    match goal with |- context [show_lines w' ?cs 0 ?n] =>
      destruct (show_lines_sound cs w' 0 n Hs') as [Hk _] end.
    rewrite Hk, Hwr, Z.sub_0_r, <- app_assoc. reflexivity.
Qed.


End Sampling.

Section Loop.

Context `{rt : GoRuntime}.

Lemma round_empty_continues (cfg : Config) (st : LoopState) (now : string)
    (log : list string) :
  wf_summarizer (summ st) ->
  exists st', round cfg st now [] log = (st', Looping)
              /\ logged st' = log /\ dump st' = dump st
              /\ Update (summ st) [] = Returned (summ st', []).
Proof.
  intros Hwf. unfold round.
  assert (Hd : (match dump st with
                | Some w => let '(w', err) := dump_queries w [] in (Some w', err)
                | None => (None, None)
                end) = (dump st, None)).
  { destruct (dump st); reflexivity. }
  rewrite Hd. simpl fmap.
  assert (Hu : exists s', Update (summ st) [] = Returned (s', [])).
  { destruct (summ st) as [s0|r0]; simpl.
    - eexists; reflexivity.
    - simpl in Hwf. destruct (recent_Update_returns r0 [] Hwf) as (cs & Heq & _).
      rewrite Heq. eexists; reflexivity. }
  destruct Hu as (s' & Hu). rewrite Hu.
  destruct (Int64.incr (cnt st) >=? cfg_delay cfg);
    eexists; (split; [reflexivity|]); auto.
Qed.

Lemma round_log_irrelevant (cfg : Config) (st : LoopState) (now : string)
    (queries : list string) (log log' : list string) :
  round cfg st now queries log'
  = (with_log (fst (round cfg st now queries log)) log',
     snd (round cfg st now queries log)).
Proof.
  unfold round.
  destruct (match dump st with
            | Some w => let '(w', err) := dump_queries w queries in (Some w', err)
            | None => (None, None)
            end) as [d [err|]]; [reflexivity|].
  destruct (Update (summ st) (normalizeQuery <$> queries)) as [[s' qs]|e|n];
    try reflexivity.
  destruct (Int64.incr (cnt st) >=? cfg_delay cfg); reflexivity.
Qed.

(** C7. A snapshot query that fails is logged and gives an empty round:
    [processList] returns no statement and the iteration goes on to the
    next one.  A row that fails to decode is logged and skipped: the
    batch is the one the other rows give, and the iteration ends as it
    would without that row. *)
Theorem snapshot_errors_are_absorbed (cfg : Config) (st : LoopState) (e : Env) :
  wf_summarizer (summ st) ->
  (forall err,
      env_db e procList = inl err ->
      processList (env_db e) (logged st) = (Returned [], logged st ++ [err])
      /\ exists st', iteration cfg st e = (st', Looping)
                     /\ logged st' = logged st ++ [err]
                     /\ dump st' = dump st
                     /\ Update (summ st) [] = Returned (summ st', []))
  /\ (forall rows pre err post e',
        env_db e procList = inr rows ->
        known_columns rows ->
        scans rows = pre ++ ScanErr err :: post ->
        env_db e' procList = inr (with_scans rows (pre ++ post)) ->
        env_now e' = env_now e ->
        exists queries log log',
          processList (env_db e) (logged st) = (Returned queries, log)
          /\ processList (env_db e') (logged st) = (Returned queries, log')
          /\ queries = omap contributes pre ++ omap contributes post
          /\ err ∈ log
          /\ iteration cfg st e
             = (with_log (fst (iteration cfg st e')) log, snd (iteration cfg st e'))
          /\ (dump_ok (dump st) -> snd (iteration cfg st e) = Looping)).
Proof.
  intros Hwf. split.
  - intros err Hq.
    assert (Hp : processList (env_db e) (logged st) = (Returned [], logged st ++ [err])).
    { unfold processList. rewrite Hq. reflexivity. }
    split; [exact Hp|]. unfold iteration. rewrite Hp.
    apply round_empty_continues. exact Hwf.
  - intros rows pre err post e' Hq Hk Hs Hq' Hnow.
    assert (Hk' : known_columns (with_scans rows (pre ++ post))) by exact Hk.
    pose proof (processList_known _ _ (logged st) Hq Hk) as Hp.
    pose proof (processList_known _ _ (logged st) Hq' Hk') as Hp'.
    rewrite Hs in Hp. simpl scans in Hp'.
    rewrite !omap_app in Hp, Hp'. simpl in Hp.
    eexists _, _, _. split; [exact Hp|]. split; [exact Hp'|].
    split; [reflexivity|]. split.
    + unfold close_rows. 
      assert (Hin : err ∈ logged st ++ omap decode_error pre ++ err :: omap decode_error post).
      { rewrite !elem_of_app. right. right. left. }
      destruct (Close rows); [apply elem_of_app; left|]; exact Hin.
    + split; [unfold iteration; rewrite Hp, Hp', Hnow; apply round_log_irrelevant|].
      intros Hd. eapply iteration_continues; [exact Hwf | exact Hd |].
      rewrite <- (processList_fst (env_db e) (logged st)), Hp. reflexivity.
Qed.

End Loop.

Lemma snapshot_errors_are_absorbed_witness :
  (processList (failing_db "connection refused") []
   = (Returned [], [] ++ ["connection refused"%string])
   /\ exists st',
       iteration (rt := merge_runtime) sample_cfg (profile_init sample_cfg sound_writer)
         {| env_db := failing_db "connection refused"; env_now := "12:00" |}
       = (st', Looping)
       /\ logged st' = [] ++ ["connection refused"%string]
       /\ dump st' = None
       /\ Update (summ (profile_init sample_cfg sound_writer)) []
          = Returned (summ st', []))
  /\ exists queries log log',
      processList (sample_db [sample_row (Some "SELECT 1"); ScanErr "bad row";
                              sample_row (Some "SELECT 2")]%string) []
      = (Returned queries, log)
      /\ processList (sample_db [sample_row (Some "SELECT 1");
                                 sample_row (Some "SELECT 2")]%string) []
         = (Returned queries, log')
      /\ queries = omap contributes [sample_row (Some "SELECT 1"%string)]
                   ++ omap contributes [sample_row (Some "SELECT 2"%string)]
      /\ "bad row"%string ∈ log
      /\ iteration (rt := merge_runtime) sample_cfg (profile_init sample_cfg sound_writer)
           {| env_db := sample_db [sample_row (Some "SELECT 1"); ScanErr "bad row";
                                   sample_row (Some "SELECT 2")]%string;
              env_now := "12:00" |}
         = (with_log
              (fst (iteration (rt := merge_runtime) sample_cfg
                      (profile_init sample_cfg sound_writer)
                      {| env_db := sample_db [sample_row (Some "SELECT 1");
                                              sample_row (Some "SELECT 2")]%string;
                         env_now := "12:00" |})) log,
            snd (iteration (rt := merge_runtime) sample_cfg
                   (profile_init sample_cfg sound_writer)
                   {| env_db := sample_db [sample_row (Some "SELECT 1");
                                           sample_row (Some "SELECT 2")]%string;
                      env_now := "12:00" |}))
      /\ (dump_ok (dump (profile_init sample_cfg sound_writer)) ->
          snd (iteration (rt := merge_runtime) sample_cfg
                 (profile_init sample_cfg sound_writer)
                 {| env_db := sample_db [sample_row (Some "SELECT 1"); ScanErr "bad row";
                                         sample_row (Some "SELECT 2")]%string;
                    env_now := "12:00" |}) = Looping).
Proof.
  split.
  - apply (proj1 (snapshot_errors_are_absorbed (rt := merge_runtime) sample_cfg
                    (profile_init sample_cfg sound_writer)
                    {| env_db := failing_db "connection refused"; env_now := "12:00" |}
                    I)).
    reflexivity.
  - apply (proj2 (snapshot_errors_are_absorbed (rt := merge_runtime) sample_cfg
                    (profile_init sample_cfg sound_writer)
                    {| env_db := sample_db [sample_row (Some "SELECT 1"); ScanErr "bad row";
                                            sample_row (Some "SELECT 2")]%string;
                       env_now := "12:00" |}
                    I)
             (sample_rows [sample_row (Some "SELECT 1"); ScanErr "bad row";
                           sample_row (Some "SELECT 2")]%string)
             [sample_row (Some "SELECT 1"%string)] "bad row"%string
             [sample_row (Some "SELECT 2"%string)]
             {| env_db := sample_db [sample_row (Some "SELECT 1");
                                     sample_row (Some "SELECT 2")]%string;
                env_now := "12:00" |}).
    + reflexivity.
    + exists cols8. split; [reflexivity | left; reflexivity].
    + reflexivity.
    + reflexivity.
    + reflexivity.
Defined.


Lemma one_report_after_round_two_witness :
  exists st1 st2 st3 m,
    profile (rt := merge_runtime) cadence_two sound_writer
      [sample_env "12:00:01" ["SELECT 1"; "SELECT 2"]]%string = (st1, Looping)
    /\ written (stdout st1) = written sound_writer
    /\ profile (rt := merge_runtime) cadence_two sound_writer
         [sample_env "12:00:01" ["SELECT 1"; "SELECT 2"];
          sample_env "12:00:02" ["SELECT 3"; "COMMIT"]]%string = (st2, Looping)
    /\ counts_of ((normalizeQuery <$> ["SELECT 1"; "SELECT 2"]%string)
                  ++ (normalizeQuery <$> ["SELECT 3"; "COMMIT"]%string)) m
    /\ written (stdout st2)
       = written sound_writer
         ++ header (env_now (sample_env "12:00:02" ["SELECT 3"; "COMMIT"]%string))
            :: (format_line
                  <$> take (Z.to_nat (cfg_topN cadence_two))
                        (sort_Sort (GoRuntime := merge_runtime)
                           (pair_of <$> mapRange (GoRuntime := merge_runtime) m)))
    /\ profile (rt := merge_runtime) cadence_two sound_writer
         [sample_env "12:00:01" ["SELECT 1"; "SELECT 2"];
          sample_env "12:00:02" ["SELECT 3"; "COMMIT"];
          sample_env "12:00:03" ["ROLLBACK"]]%string = (st3, Looping)
    /\ written (stdout st3) = written (stdout st2).
Proof.
  apply (one_report_after_round_two (rt := merge_runtime) cadence_two sound_writer
           (sample_env "12:00:01" ["SELECT 1"; "SELECT 2"]%string)
           (sample_env "12:00:02" ["SELECT 3"; "COMMIT"]%string)
           (sample_env "12:00:03" ["ROLLBACK"]%string)
           ["SELECT 1"; "SELECT 2"]%string ["SELECT 3"; "COMMIT"]%string
           ["ROLLBACK"]%string).
  - reflexivity.
  - simpl. lia.
  - exact I.
  - constructor.
  - reflexivity.
  - reflexivity.
  - reflexivity.
Defined.

(** The report sink after each of the three rounds of that run. *)
Example one_report_after_round_two_run :
  (written (stdout (fst (profile (rt := merge_runtime) cadence_two sound_writer
      [sample_env "12:00:01" ["SELECT 1"; "SELECT 2"]]%string))),
   written (stdout (fst (profile (rt := merge_runtime) cadence_two sound_writer
      [sample_env "12:00:01" ["SELECT 1"; "SELECT 2"];
       sample_env "12:00:02" ["SELECT 3"; "COMMIT"]]%string))),
   written (stdout (fst (profile (rt := merge_runtime) cadence_two sound_writer
      [sample_env "12:00:01" ["SELECT 1"; "SELECT 2"];
       sample_env "12:00:02" ["SELECT 3"; "COMMIT"];
       sample_env "12:00:03" ["ROLLBACK"]]%string))))
  = ([],
     ["##  12:00:02" +:+ newline; "   3 SELECT N" +:+ newline; "   1 COMMIT" +:+ newline],
     ["##  12:00:02" +:+ newline; "   3 SELECT N" +:+ newline; "   1 COMMIT" +:+ newline]
    )%string.
Proof. vm_compute. reflexivity. Qed.



(** ** The matcher *)

Lemma elem_of_flat_map {A B : Type} (f : A -> list B) (l : list A) (y : B) :
  y ∈ flat_map f l <-> exists x, x ∈ l /\ y ∈ f x.
Proof.
  rewrite list_elem_of_In, in_flat_map. split.
  - intros (x & Hx & Hy). exists x. by rewrite !list_elem_of_In.
  - intros (x & Hx & Hy). exists x. by rewrite <- !list_elem_of_In.
Qed.

Lemma flat_map_nil {A B : Type} (f : A -> list B) (l : list A) :
  (forall x, x ∈ l -> f x = []) -> flat_map f l = [].
Proof.
  induction l as [|x l IH]; intros H; simpl; [reflexivity|].
  rewrite (H x) by (apply elem_of_cons; by left).
  apply IH. intros y Hy. apply H. apply elem_of_cons. by right.
Qed.

Lemma elem_of_star_from (step : option ascii -> list ascii -> list result)
    (n : nat) (prev : option ascii) (s : list ascii) (m : result) :
  m ∈ star_from step n prev s <->
  m = (prev, s)
  \/ exists n' m0, n = S n' /\ m0 ∈ step prev s
                   /\ (length (snd m0) < length s)%nat
                   /\ m ∈ star_from step n' (fst m0) (snd m0).
Proof.
  destruct n as [|n']; simpl.
  - rewrite list_elem_of_singleton. split; [by left|].
    intros [H|(n' & m0 & Hn & _)]; [exact H | discriminate].
  - rewrite elem_of_app, elem_of_flat_map, list_elem_of_singleton. split.
    + intros [(m0 & Hm0 & Hm)|H]; [right | by left].
      destruct (Nat.ltb_spec (length (snd m0)) (length s)) as [Hlt|Hge].
      * exists n', m0. auto.
      * by apply elem_of_nil in Hm.
    + intros [H|(n0 & m0 & Hn & Hm0 & Hlt & Hm)]; [by right | left].
      injection Hn as <-. exists m0. split; [exact Hm0|].
      destruct (Nat.ltb_spec (length (snd m0)) (length s)); [exact Hm | lia].
Qed.

(** What is left after a match is an end part of the text. *)
Lemma matches_suffix (r : regex) :
  forall prev s m, m ∈ matches r prev s -> snd m `suffix_of` s.
Proof.
  induction r as [|neg ranges| |r1 IH1 r2 IH2|r1 IH1 r2 IH2|r1 IH1];
    intros prev s m Hm; cbn [matches] in Hm.
  - apply list_elem_of_singleton in Hm as ->. reflexivity.
  - destruct s as [|a s']; [by apply elem_of_nil in Hm|].
    destruct (in_class neg ranges a); [|by apply elem_of_nil in Hm].
    apply list_elem_of_singleton in Hm as ->. apply suffix_cons_r. reflexivity.
  - destruct (at_word_boundary prev s); [|by apply elem_of_nil in Hm].
    apply list_elem_of_singleton in Hm as ->. reflexivity.
  - apply elem_of_flat_map in Hm as (m0 & Hm0 & Hm).
    etrans; [eapply IH2, Hm | eapply IH1, Hm0].
  - apply elem_of_app in Hm as [Hm|Hm]; [eapply IH1, Hm | eapply IH2, Hm].
  - remember (length s) as n eqn:Hn. clear Hn.
    revert prev s m Hm. induction n as [|n IHn]; intros prev s m Hm;
      apply elem_of_star_from in Hm as [->|(n' & m0 & Hn & Hm0 & _ & Hm)];
      try reflexivity; try discriminate.
    injection Hn as <-. etrans; [eapply IHn, Hm | eapply IH1, Hm0].
Qed.

Lemma matches_length (r : regex) prev s m :
  m ∈ matches r prev s -> (length (snd m) <= length s)%nat.
Proof. intros Hm. apply suffix_length. eapply matches_suffix, Hm. Qed.

(** A pattern that cannot match the empty text consumes a byte. *)
Lemma matches_consume (r : regex) :
  nullable r = false ->
  forall prev s m, m ∈ matches r prev s -> (length (snd m) < length s)%nat.
Proof.
  induction r as [|neg ranges| |r1 IH1 r2 IH2|r1 IH1 r2 IH2|r1 IH1];
    cbn [nullable]; intros Hnull prev s m Hm; try discriminate; cbn [matches] in Hm.
  - destruct s as [|a s']; [by apply elem_of_nil in Hm|].
    destruct (in_class neg ranges a); [|by apply elem_of_nil in Hm].
    apply list_elem_of_singleton in Hm as ->. simpl. lia.
  - apply elem_of_flat_map in Hm as (m0 & Hm0 & Hm).
    pose proof (matches_length _ _ _ _ Hm0). pose proof (matches_length _ _ _ _ Hm).
    apply andb_false_iff in Hnull as [Hn|Hn].
    + specialize (IH1 Hn _ _ _ Hm0). lia.
    + specialize (IH2 Hn _ _ _ Hm). lia.
  - apply orb_false_iff in Hnull as [Hn1 Hn2].
    apply elem_of_app in Hm as [Hm|Hm]; [eapply IH1 | eapply IH2]; eassumption.
Qed.

Lemma all_bytes_complete (a : ascii) : a ∈ all_bytes.
Proof.
  unfold all_bytes. apply list_elem_of_fmap. exists (nat_of_ascii a).
  split; [by rewrite ascii_nat_embedding|].
  apply list_elem_of_In, in_seq. pose proof (nat_ascii_bounded a). lia.
Qed.

(** A pattern every match of which holds a byte of [P] has no match in
    a text without such bytes. *)
Lemma needs_no_match (P : ascii -> bool) (r : regex) :
  needs P r = true ->
  forall prev s, (forall a, a ∈ s -> P a = false) -> matches r prev s = [].
Proof.
  induction r as [|neg ranges| |r1 IH1 r2 IH2|r1 IH1 r2 IH2|r1 IH1];
    cbn [needs]; intros Hneeds prev s Hs; try discriminate; cbn [matches].
  - destruct s as [|a s']; [reflexivity|].
    destruct (in_class neg ranges a) eqn:Hin; [|reflexivity].
    rewrite forallb_forall in Hneeds.
    specialize (Hneeds a (proj1 (list_elem_of_In _ _) (all_bytes_complete a))).
    rewrite Hin in Hneeds. simpl in Hneeds.
    rewrite (Hs a) in Hneeds by (apply elem_of_cons; by left). discriminate.
  - apply orb_true_iff in Hneeds as [Hn|Hn].
    + rewrite (IH1 Hn) by exact Hs. reflexivity.
    + apply flat_map_nil. intros m Hm. apply (IH2 Hn).
      intros a Ha. apply Hs.
      destruct (matches_suffix _ _ _ _ Hm) as (k & ->).
      apply elem_of_app. by right.
  - apply andb_true_iff in Hneeds as [Hn1 Hn2].
    rewrite (IH1 Hn1), (IH2 Hn2) by exact Hs. reflexivity.
Qed.

(** ** Replacing *)

(** Where the pattern matches nowhere, nothing is replaced. *)
Lemma replaceAll_go_quiet (re : regex) (subs : list ascii) (t : list ascii) :
  quiet re t ->
  forall fuel prev am, replaceAll_go fuel re subs prev am t = t.
Proof.
  induction t as [|a t IH]; intros [Hq Ht] fuel prev am;
    destruct fuel as [|f]; try reflexivity; cbn [replaceAll_go];
    unfold match_here; rewrite Hq; cbn [head]; [reflexivity|].
  f_equal. apply IH. exact Ht.
Qed.

Lemma needs_quiet (P : ascii -> bool) (r : regex) (t : list ascii) :
  needs P r = true -> (forall a, a ∈ t -> P a = false) -> quiet r t.
Proof.
  intros Hn. induction t as [|a t IH]; intros Ht; cbn [quiet].
  - split; [|exact I]. intros prev. by apply (needs_no_match P).
  - split.
    + intros prev. by apply (needs_no_match P).
    + apply IH. intros b Hb. apply Ht. apply elem_of_cons. by right.
Qed.

Lemma replaceAll_needs (P : ascii -> bool) (r : regex) (subs t : list ascii) :
  needs P r = true -> (forall a, a ∈ t -> P a = false) -> replaceAll r subs t = t.
Proof.
  intros Hn Ht. apply replaceAll_go_quiet. by apply (needs_quiet P).
Qed.

(** Replacing brings in no byte besides those of the replacement. *)
Lemma replaceAll_go_elem (re : regex) (subs : list ascii) (fuel : nat) :
  forall prev am s a,
    a ∈ replaceAll_go fuel re subs prev am s -> a ∈ s \/ a ∈ subs.
Proof.
  induction fuel as [|f IH]; intros prev am s a Ha; cbn [replaceAll_go] in Ha.
  - by left.
  - assert (Hcopy : a ∈ match s with
                        | [] => []
                        | c0 :: s' => c0 :: replaceAll_go f re subs (Some c0) false s'
                        end -> a ∈ s \/ a ∈ subs).
    { destruct s as [|c0 s']; [by left|].
      intros [->|H]%elem_of_cons; [left; apply elem_of_cons; by left|].
      destruct (IH _ _ _ _ H) as [H'|H']; [left; apply elem_of_cons|]; by right. }
    destruct (match_here re prev s) as [[p rest]|] eqn:Hm; [|by apply Hcopy].
    destruct (length rest <? length s)%nat.
    + apply elem_of_app in Ha as [Ha|Ha]; [by right|].
      destruct (IH _ _ _ _ Ha) as [H'|H']; [left | by right].
      unfold match_here in Hm.
      assert (Hin : (p, rest) ∈ matches re prev s).
      { destruct (matches re prev s) as [|m ms]; [discriminate|].
        injection Hm as ->. apply elem_of_cons. by left. }
      destruct (matches_suffix _ _ _ _ Hin) as (k & ->).
      apply elem_of_app. by right.
    + apply elem_of_app in Ha as [Ha|Ha]; [|by apply Hcopy].
      destruct am; [by apply elem_of_nil in Ha | by right].
Qed.

Lemma fmap_flat_map {A B C : Type} (f : B -> C) (g : A -> list B) (l : list A) :
  f <$> flat_map g l = flat_map (fun x => f <$> g x) l.
Proof.
  induction l as [|x l IH]; [reflexivity|].
  cbn [flat_map]. by rewrite fmap_app, IH.
Qed.

Lemma flat_map_fmap {A B C : Type} (f : A -> B) (g : B -> list C) (l : list A) :
  flat_map g (f <$> l) = flat_map (fun x => g (f x)) l.
Proof.
  induction l as [|x l IH]; [reflexivity|].
  rewrite fmap_cons. cbn [flat_map]. by rewrite IH.
Qed.

(** Without [\b] the text left by the matches does not depend on the
    byte before. *)
Lemma matches_prev_indep (r : regex) :
  wb_free r = true ->
  forall prev prev' s, snd <$> matches r prev s = snd <$> matches r prev' s.
Proof.
  induction r as [|neg ranges| |r1 IH1 r2 IH2|r1 IH1 r2 IH2|r1 IH1];
    cbn [wb_free]; intros Hwb prev prev' s; try discriminate; cbn [matches].
  - reflexivity.
  - destruct s as [|a s']; [reflexivity|]. destruct (in_class neg ranges a); reflexivity.
  - apply andb_true_iff in Hwb as [H1 H2].
    rewrite !fmap_flat_map.
    rewrite (flat_map_ext _ (fun m => snd <$> matches r2 None (snd m)))
      by (intros m; apply IH2, H2).
    rewrite (flat_map_ext (fun m => snd <$> matches r2 (fst m) (snd m))
               (fun m => snd <$> matches r2 None (snd m)))
      by (intros m; apply IH2, H2).
    rewrite <- !(flat_map_fmap snd (fun z => snd <$> matches r2 None z)).
    by rewrite (IH1 H1 prev prev').
  - apply andb_true_iff in Hwb as [H1 H2].
    by rewrite !fmap_app, (IH1 H1 prev prev'), (IH2 H2 prev prev').
  - remember (length s) as n eqn:Hn. clear Hn. revert prev prev' s.
    induction n as [|n IHn]; intros prev prev' s; cbn [star_from]; [reflexivity|].
    rewrite !fmap_app, !fmap_flat_map. f_equal.
    pose (H := fun z : list ascii =>
                 if (length z <? length s)%nat
                 then snd <$> star_from (matches r1) n None z else []).
    rewrite (flat_map_ext _ (fun m => H (snd m))).
    2:{ intros m. unfold H. destruct (length (snd m) <? length s)%nat; [|reflexivity].
        apply IHn. }
    rewrite (flat_map_ext (fun m => snd <$> (if (length (snd m) <? length s)%nat
                                            then star_from (matches r1) n (fst m) (snd m)
                                            else []))
               (fun m => H (snd m))).
    2:{ intros m. unfold H. destruct (length (snd m) <? length s)%nat; [|reflexivity].
        apply IHn. }
    rewrite <- !(flat_map_fmap snd H).
    by rewrite (IH1 Hwb prev prev').
Qed.

Lemma match_here_prev_indep (r : regex) (prev prev' : option ascii) (s : list ascii) :
  wb_free r = true ->
  snd <$> match_here r prev s = snd <$> match_here r prev' s.
Proof.
  intros Hwb. unfold match_here.
  pose proof (matches_prev_indep r Hwb prev prev' s) as H.
  destruct (matches r prev s) as [|m ms], (matches r prev' s) as [|m' ms'];
    try discriminate; [reflexivity|].
  simpl in *. by injection H as -> _.
Qed.

Lemma match_here_elem (r : regex) prev s m :
  match_here r prev s = Some m -> m ∈ matches r prev s.
Proof.
  unfold match_here. destruct (matches r prev s) as [|m0 ms]; [discriminate|].
  intros [= ->]. apply elem_of_cons. by left.
Qed.

(** For a pattern without [\b] that consumes a byte, replacing depends
    neither on the bound of the scan, nor on the byte before, nor on
    whether a match has just ended. *)
Lemma replaceAll_go_indep (re : regex) (subs : list ascii) :
  wb_free re = true ->
  nullable re = false ->
  forall fuel fuel' prev prev' am am' s,
    (length s < fuel)%nat -> (length s < fuel')%nat ->
    replaceAll_go fuel re subs prev am s = replaceAll_go fuel' re subs prev' am' s.
Proof.
  intros Hwb Hnull. induction fuel as [|f IH];
    intros fuel' prev prev' am am' s Hf Hf'; [lia|].
  destruct fuel' as [|f']; [lia|]. cbn [replaceAll_go].
  pose proof (match_here_prev_indep re prev prev' s Hwb) as Hm.
  destruct (match_here re prev s) as [[p rest]|] eqn:H1,
           (match_here re prev' s) as [[p' rest']|] eqn:H2; try discriminate.
  - simpl in Hm. injection Hm as <-.
    pose proof (matches_consume re Hnull _ _ _ (match_here_elem _ _ _ _ H1)) as Hlt.
    simpl in Hlt. destruct (Nat.ltb_spec (length rest) (length s)); [|lia].
    f_equal. apply IH; lia.
  - destruct s as [|a s']; [reflexivity|]. f_equal. simpl in *. apply IH; lia.
Qed.

(** ** Replacing twice *)

(** If [x] follows [y] up to a byte the pattern never takes, a match on
    [x] is a match on [y] that consumes the same bytes. *)
Lemma sim_matches (D : ascii -> Prop) (r : regex) :
  wb_free r = true ->
  (forall d, D d -> accepts r d = false) ->
  forall x y prev prev' m,
    sim D x y -> m ∈ matches r prev x ->
    exists m' w, m' ∈ matches r prev' y
                 /\ x = w ++ snd m /\ y = w ++ snd m' /\ sim D (snd m) (snd m').
Proof.
  induction r as [|neg ranges| |r1 IH1 r2 IH2|r1 IH1 r2 IH2|r1 IH1];
    cbn [wb_free accepts]; intros Hwb Hdead x y prev prev' m Hsim Hm;
    try discriminate; cbn [matches] in *.
  - apply list_elem_of_singleton in Hm as ->.
    exists (prev', y), []. split; [apply list_elem_of_singleton; reflexivity|]. auto.
  - destruct x as [|a x1]; [by apply elem_of_nil in Hm|].
    destruct (in_class neg ranges a) eqn:Hin; [|by apply elem_of_nil in Hm].
    apply list_elem_of_singleton in Hm as ->.
    inversion Hsim as [|d x' y' Hd|a' x' y' Hs]; subst.
    + rewrite (Hdead a Hd) in Hin. discriminate.
    + exists (Some a, y'), [a]. rewrite Hin.
      split; [apply list_elem_of_singleton; reflexivity|]. auto.
  - apply andb_true_iff in Hwb as [H1 H2].
    assert (Hd1 : forall d, D d -> accepts r1 d = false)
      by (intros d Hd; specialize (Hdead d Hd); by apply orb_false_iff in Hdead as [? ?]).
    assert (Hd2 : forall d, D d -> accepts r2 d = false)
      by (intros d Hd; specialize (Hdead d Hd); by apply orb_false_iff in Hdead as [? ?]).
    apply elem_of_flat_map in Hm as (m0 & Hm0 & Hm).
    destruct (IH1 H1 Hd1 x y prev prev' m0 Hsim Hm0) as (m0' & w0 & Hm0' & Hx & Hy & Hs0).
    destruct (IH2 H2 Hd2 _ _ (fst m0) (fst m0') m Hs0 Hm) as (m' & w1 & Hm' & Hx1 & Hy1 & Hs1).
    exists m', (w0 ++ w1). split; [apply elem_of_flat_map; by exists m0'|].
    rewrite <- !app_assoc, <- Hx1, <- Hy1. auto.
  - apply andb_true_iff in Hwb as [H1 H2].
    assert (Hd1 : forall d, D d -> accepts r1 d = false)
      by (intros d Hd; specialize (Hdead d Hd); by apply orb_false_iff in Hdead as [? ?]).
    assert (Hd2 : forall d, D d -> accepts r2 d = false)
      by (intros d Hd; specialize (Hdead d Hd); by apply orb_false_iff in Hdead as [? ?]).
    apply elem_of_app in Hm as [Hm|Hm].
    + destruct (IH1 H1 Hd1 x y prev prev' m Hsim Hm) as (m' & w & Hm' & H).
      exists m', w. split; [apply elem_of_app; by left | exact H].
    + destruct (IH2 H2 Hd2 x y prev prev' m Hsim Hm) as (m' & w & Hm' & H).
      exists m', w. split; [apply elem_of_app; by right | exact H].
  - assert (Hstar : forall n k x y prev prev' m,
               (length y <= k)%nat -> sim D x y ->
               m ∈ star_from (matches r1) n prev x ->
               exists m' w, m' ∈ star_from (matches r1) k prev' y
                            /\ x = w ++ snd m /\ y = w ++ snd m'
                            /\ sim D (snd m) (snd m')).
    { clear x y prev prev' m Hsim Hm.
      induction n as [|n IHn]; intros k x y prev prev' m Hk Hsim Hm;
        apply elem_of_star_from in Hm as [->|(n' & m0 & Hn & Hm0 & Hlt & Hm)];
        try discriminate.
      - exists (prev', y), []. split; [apply elem_of_star_from; by left | auto].
      - exists (prev', y), []. split; [apply elem_of_star_from; by left | auto].
      - injection Hn as <-.
        destruct (IH1 Hwb Hdead x y prev prev' m0 Hsim Hm0)
          as (m0' & w0 & Hm0' & Hx & Hy & Hs0).
        assert (Hw0 : (0 < length w0)%nat).
        { rewrite Hx, length_app in Hlt. lia. }
        assert (Hlt' : (length (snd m0') < length y)%nat).
        { assert (length y = length w0 + length (snd m0'))%nat
            by (rewrite Hy at 1; apply length_app).
          lia. }
        destruct k as [|k']; [lia|].
        assert (Hk' : (length (snd m0') <= k')%nat) by lia.
        destruct (IHn k' _ _ (fst m0) (fst m0') m Hk' Hs0 Hm)
          as (m' & w1 & Hm' & Hx1 & Hy1 & Hs1).
        exists m', (w0 ++ w1). split.
        + apply elem_of_star_from. right. exists k', m0'. auto.
        + rewrite <- !app_assoc, <- Hx1, <- Hy1. auto. }
    eapply Hstar; [reflexivity | exact Hsim | exact Hm].
Qed.

Lemma matches_nil_nonnull (r : regex) (prev : option ascii) :
  nullable r = false -> matches r prev [] = [].
Proof.
  intros Hn. apply elem_of_nil_inv. intros m Hm.
  pose proof (matches_consume r Hn _ _ _ Hm) as H. simpl in H. lia.
Qed.

Section Settle.

Variable D : ascii -> Prop.
Variable re : regex.
Variable subs : list ascii.
Hypothesis re_wb_free : wb_free re = true.
Hypothesis re_consumes : nullable re = false.
Hypothesis re_dead : forall d, D d -> accepts re d = false.
Hypothesis subs_dead : Forall D subs.
Hypothesis subs_nonempty : subs <> [].

Lemma dead_no_match (d : ascii) (z : list ascii) (prev : option ascii) :
  D d -> matches re prev (d :: z) = [].
Proof.
  intros Hd. apply elem_of_nil_inv. intros m Hm.
  destruct (sim_matches D re re_wb_free re_dead (d :: z) [] prev None m
              (sim_dead D d z [] Hd) Hm) as (m' & w & Hm' & _).
  rewrite (matches_nil_nonnull re None re_consumes) in Hm'.
  by apply elem_of_nil in Hm'.
Qed.

Lemma quiet_dead_prefix (ds t : list ascii) :
  Forall D ds -> quiet re t -> quiet re (ds ++ t).
Proof.
  induction 1 as [|d ds Hd Hds IH]; intros Hq; [exact Hq|].
  cbn [app quiet]. split; [|by apply IH].
  intros prev. by apply dead_no_match.
Qed.

(** After replacing, the pattern matches nowhere. *)
Lemma replaceAll_go_settles (fuel : nat) :
  forall prev am u,
    (length u < fuel)%nat ->
    quiet re (replaceAll_go fuel re subs prev am u)
    /\ sim D (replaceAll_go fuel re subs prev am u) u.
Proof.
  induction fuel as [|f IH]; intros prev am u Hf; [lia|]. cbn [replaceAll_go].
  destruct (match_here re prev u) as [[p rest]|] eqn:Hm.
  - pose proof (matches_consume re re_consumes _ _ _ (match_here_elem _ _ _ _ Hm)) as Hlt.
    simpl in Hlt. destruct (Nat.ltb_spec (length rest) (length u)); [|lia].
    destruct (IH p true rest ltac:(lia)) as [Hq Hs]. split.
    + by apply quiet_dead_prefix.
    + destruct subs as [|d ds]; [done|]. inversion subs_dead; subst.
      cbn [app]. by constructor.
  - assert (Hnone : forall prev', matches re prev' u = []).
    { intros prev'. pose proof (match_here_prev_indep re prev prev' u re_wb_free) as H.
      rewrite Hm in H. unfold match_here in H.
      destruct (matches re prev' u); [reflexivity | discriminate]. }
    destruct u as [|a u'].
    + split; [split; [exact Hnone | exact I] | constructor].
    + simpl in Hf. destruct (IH (Some a) false u' ltac:(lia)) as [Hq Hs].
      split; [|by constructor].
      cbn [quiet]. split; [|exact Hq].
      intros prev'. apply elem_of_nil_inv. intros m Hin.
      destruct (sim_matches D re re_wb_free re_dead _ (a :: u') prev' prev m
                  (sim_cons D a _ _ Hs) Hin) as (m' & w & Hm' & _).
      rewrite Hnone in Hm'. by apply elem_of_nil in Hm'.
Qed.

Lemma replaceAll_idem (u : list ascii) :
  replaceAll re subs (replaceAll re subs u) = replaceAll re subs u.
Proof.
  unfold replaceAll at 1. apply replaceAll_go_quiet.
  apply replaceAll_go_settles. lia.
Qed.

End Settle.

(** ** Classes and greedy runs *)

Lemma code_inj (a b : ascii) : code a = code b -> a = b.
Proof.
  unfold code. intros H.
  rewrite <- (ascii_N_embedding a), <- (ascii_N_embedding b). by rewrite H.
Qed.

Lemma in_class_Chr (c0 a : ascii) : in_class false [(c0, c0)] a = true <-> a = c0.
Proof.
  unfold in_class, in_range. cbn [existsb fst snd xorb].
  rewrite orb_false_r, andb_true_iff, !N.leb_le. split.
  - intros [H1 H2]. apply code_inj. lia.
  - intros ->. lia.
Qed.

Lemma in_class_NotChr (c0 a : ascii) : in_class true [(c0, c0)] a = true <-> a <> c0.
Proof.
  pose proof (in_class_Chr c0 a) as H. unfold in_class in *.
  destruct (existsb (in_range a) [(c0, c0)]); cbn [xorb negb] in *; split.
  - discriminate.
  - intros Hne. exfalso. apply Hne. by apply H.
  - intros _ Heq. apply H in Heq. discriminate.
  - reflexivity.
Qed.

(** The text after [a], cut after its longest run of bytes of [P]. *)
Lemma span_class (P : ascii -> bool) (l : list ascii) :
  exists run z,
    l = run ++ z
    /\ (forall a, a ∈ run -> P a = true)
    /\ match head z with Some a => P a = false | None => True end.
Proof.
  induction l as [|a l (run & z & -> & Hrun & Hz)].
  - exists [], []. split; [reflexivity|]. split; [|exact I].
    intros a Ha. by apply elem_of_nil in Ha.
  - destruct (P a) eqn:Ha.
    + exists (a :: run), z. split; [reflexivity|]. split; [|exact Hz].
      intros b [->|Hb]%elem_of_cons; auto.
    + exists [], (a :: run ++ z). split; [reflexivity|]. split; [|exact Ha].
      intros b Hb. by apply elem_of_nil in Hb.
Qed.

(** The first way a star of a class matches is the longest run. *)
Lemma star_class_greedy (neg : bool) (ranges : list (ascii * ascii)) (run : list ascii) :
  forall z p n,
    (forall a, a ∈ run -> in_class neg ranges a = true) ->
    match head z with Some a => in_class neg ranges a = false | None => True end ->
    (length (run ++ z) <= n)%nat ->
    exists p' others,
      star_from (matches (Class neg ranges)) n p (run ++ z) = (p', z) :: others.
Proof.
  induction run as [|a run IH]; intros z p n Hrun Hz Hn.
  - cbn [app]. destruct n as [|n']; cbn [star_from]; [by eexists _, _|].
    assert (Hnone : matches (Class neg ranges) p z = []).
    { cbn [matches]. destruct z as [|b z']; [reflexivity|].
      simpl in Hz. by rewrite Hz. }
    rewrite Hnone. cbn [flat_map app]. by eexists _, _.
  - destruct n as [|n']; [simpl in Hn; lia|].
    assert (Hstep : matches (Class neg ranges) p (a :: run ++ z) = [(Some a, run ++ z)]).
    { cbn [matches]. by rewrite (Hrun a) by (apply elem_of_cons; by left). }
    cbn [star_from app]. rewrite Hstep.
    cbn [flat_map fst snd]. rewrite app_nil_r.
    destruct (Nat.ltb_spec (length (run ++ z)) (length (a :: run ++ z))) as [_|Hge];
      [|simpl in Hge; lia].
    destruct (IH z (Some a) n') as (p' & others & ->).
    + intros b Hb. apply Hrun. apply elem_of_cons. by right.
    + exact Hz.
    + simpl in Hn. lia.
    + by eexists _, _.
Qed.

Lemma plus_class_greedy (neg : bool) (ranges : list (ascii * ascii))
    (a : ascii) (run z : list ascii) (prev : option ascii) :
  in_class neg ranges a = true ->
  (forall b, b ∈ run -> in_class neg ranges b = true) ->
  match head z with Some b => in_class neg ranges b = false | None => True end ->
  exists p' others,
    matches (Plus (Class neg ranges)) prev (a :: run ++ z) = (p', z) :: others.
Proof.
  intros Ha Hrun Hz. unfold Plus.
  change (matches (Cat (Class neg ranges) (Star (Class neg ranges))) prev (a :: run ++ z))
    with (flat_map (fun m => star_from (matches (Class neg ranges))
                               (length (snd m)) (fst m) (snd m))
            (matches (Class neg ranges) prev (a :: run ++ z))).
  assert (Hstep : matches (Class neg ranges) prev (a :: run ++ z) = [(Some a, run ++ z)])
    by (cbn [matches]; by rewrite Ha).
  rewrite Hstep. cbn [flat_map fst snd]. rewrite app_nil_r.
  by apply star_class_greedy.
Qed.

Lemma plus_class_none (neg : bool) (ranges : list (ascii * ascii))
    (s : list ascii) (prev : option ascii) :
  match head s with Some b => in_class neg ranges b = false | None => True end ->
  matches (Plus (Class neg ranges)) prev s = [].
Proof.
  intros Hs. unfold Plus.
  change (matches (Cat (Class neg ranges) (Star (Class neg ranges))) prev s)
    with (flat_map (fun m => star_from (matches (Class neg ranges))
                               (length (snd m)) (fst m) (snd m))
            (matches (Class neg ranges) prev s)).
  assert (Hstep : matches (Class neg ranges) prev s = []).
  { cbn [matches]. destruct s as [|b s']; [reflexivity|]. simpl in Hs. by rewrite Hs. }
  by rewrite Hstep.
Qed.

(** ** Runs of spaces *)

Lemma spaces_match_here (prev : option ascii) (s : list ascii) :
  match s with
  | a :: s' =>
      if decide (a = sp)
      then exists p' z, match_here (re spaces) prev s = Some (p', z)
                        /\ z `suffix_of` s' /\ head z <> Some sp
                        /\ (head s' <> Some sp -> z = s')
      else match_here (re spaces) prev s = None
  | [] => match_here (re spaces) prev s = None
  end.
Proof.
  unfold match_here.
  change (re spaces) with (Plus (Class false [(sp, sp)])).
  destruct s as [|a s'].
  - by rewrite plus_class_none.
  - destruct (decide (a = sp)) as [->|Hne].
    + destruct (span_class (in_class false [(sp, sp)]) s') as (run & z & -> & Hrun & Hz).
      destruct (plus_class_greedy false [(sp, sp)] sp run z prev) as (p' & others & ->);
        [by apply in_class_Chr | exact Hrun | exact Hz |].
      exists p', z. split; [reflexivity|]. split; [by apply suffix_app_r|]. split.
      * destruct z as [|b z']; [discriminate|]. cbn [head] in *. intros [= ->].
        assert (Hsp : in_class false [(sp, sp)] sp = true) by by apply in_class_Chr.
        rewrite Hsp in Hz. discriminate.
      * intros Hh. destruct run as [|b run']; [reflexivity|].
        exfalso. apply Hh. simpl. f_equal. apply in_class_Chr, Hrun.
        apply elem_of_cons. by left.
    + rewrite plus_class_none; [reflexivity|]. cbn [head].
      destruct (in_class false [(sp, sp)] a) eqn:Hin; [|reflexivity].
      apply in_class_Chr in Hin. contradiction.
Qed.

(** Collapsing spaces keeps the first byte. *)
Lemma spaces_head (fuel : nat) (prev : option ascii) (am : bool) (s : list ascii) :
  (length s < fuel)%nat ->
  head (replaceAll_go fuel (re spaces) [sp] prev am s) = head s.
Proof.
  intros Hf. destruct fuel as [|f]; [lia|]. cbn [replaceAll_go].
  pose proof (spaces_match_here prev s) as H.
  destruct s as [|a s']; [by rewrite H|].
  destruct (decide (a = sp)) as [->|Hne]; [|by rewrite H].
  destruct H as (p' & z & -> & Hsuf & _).
  apply suffix_length in Hsuf.
  destruct (Nat.ltb_spec (length z) (length (sp :: s'))); [reflexivity | simpl in *; lia].
Qed.

(** Collapsing spaces leaves no two spaces in a row. *)
Lemma spaces_single_spaced (fuel : nat) :
  forall prev am s,
    (length s < fuel)%nat ->
    single_spaced (replaceAll_go fuel (re spaces) [sp] prev am s).
Proof.
  induction fuel as [|f IH]; intros prev am s Hf; [lia|]. cbn [replaceAll_go].
  pose proof (spaces_match_here prev s) as H.
  destruct s as [|a s']; [by rewrite H|]. simpl in Hf.
  destruct (decide (a = sp)) as [->|Hne].
  - destruct H as (p' & z & -> & Hsuf & Hz & _).
    pose proof (suffix_length _ _ Hsuf) as Hlen.
    destruct (Nat.ltb_spec (length z) (length (sp :: s'))); [|simpl in *; lia].
    cbn [app single_spaced]. split; [|apply IH; lia].
    intros _. rewrite spaces_head by lia. exact Hz.
  - rewrite H. cbn [single_spaced]. split; [contradiction|]. apply IH. lia.
Qed.

(** A text with no two spaces in a row is left as it is. *)
Lemma spaces_fixed (fuel : nat) :
  forall prev am t,
    (length t < fuel)%nat ->
    single_spaced t ->
    replaceAll_go fuel (re spaces) [sp] prev am t = t.
Proof.
  induction fuel as [|f IH]; intros prev am t Hf Ht; [lia|]. cbn [replaceAll_go].
  pose proof (spaces_match_here prev t) as H.
  destruct t as [|a t']; [by rewrite H|]. simpl in Hf.
  destruct Ht as [Ha Ht'].
  destruct (decide (a = sp)) as [->|Hne].
  - destruct H as (p' & z & -> & Hsuf & Hz & Hsame).
    rewrite (Hsame (Ha eq_refl)).
    destruct (Nat.ltb_spec (length t') (length (sp :: t'))); [|simpl in *; lia].
    cbn [app]. f_equal. apply IH; [lia | exact Ht'].
  - rewrite H. f_equal. apply IH; [lia | exact Ht'].
Qed.




Lemma byte_forall (f : ascii -> bool) :
  forallb f all_bytes = true -> forall a, f a = true.
Proof.
  intros H a. rewrite forallb_forall in H. apply H.
  apply list_elem_of_In, all_bytes_complete.
Qed.

(** ** Where a match ends *)

Lemma matches_Cat (r1 r2 : regex) (prev : option ascii) (s : list ascii) :
  matches (Cat r1 r2) prev s
  = flat_map (fun m => matches r2 (fst m) (snd m)) (matches r1 prev s).
Proof. reflexivity. Qed.

Lemma matches_Alt (r1 r2 : regex) (prev : option ascii) (s : list ascii) :
  matches (Alt r1 r2) prev s = matches r1 prev s ++ matches r2 prev s.
Proof. reflexivity. Qed.

Lemma matches_WordB (prev : option ascii) (s : list ascii) :
  matches WordB prev s = if at_word_boundary prev s then [(prev, s)] else [].
Proof. reflexivity. Qed.

Lemma last_or_cons (prev : option ascii) (a : ascii) (w : list ascii) :
  last_or prev (a :: w) = last_or (Some a) w.
Proof.
  unfold last_or. destruct w as [|b w]; [reflexivity|]. rewrite last_cons_cons.
  destruct (last (b :: w)) eqn:H; [reflexivity|]. by apply last_None in H.
Qed.

Lemma last_or_app (prev : option ascii) (w1 w2 : list ascii) :
  last_or prev (w1 ++ w2) = last_or (last_or prev w1) w2.
Proof.
  revert prev. induction w1 as [|a w1 IH]; intros prev; [reflexivity|].
  cbn [app]. by rewrite !last_or_cons, IH.
Qed.

(** A match hands back the last byte before its end. *)
Lemma matches_consumed (r : regex) :
  forall prev s m,
    m ∈ matches r prev s -> exists w, s = w ++ snd m /\ fst m = last_or prev w.
Proof.
  induction r as [|neg ranges| |r1 IH1 r2 IH2|r1 IH1 r2 IH2|r1 IH1];
    intros prev s m Hm; cbn [matches] in Hm.
  - apply list_elem_of_singleton in Hm as ->. by exists [].
  - destruct s as [|a s']; [by apply elem_of_nil in Hm|].
    destruct (in_class neg ranges a); [|by apply elem_of_nil in Hm].
    apply list_elem_of_singleton in Hm as ->. by exists [a].
  - destruct (at_word_boundary prev s); [|by apply elem_of_nil in Hm].
    apply list_elem_of_singleton in Hm as ->. by exists [].
  - apply elem_of_flat_map in Hm as (m0 & Hm0 & Hm).
    destruct (IH1 _ _ _ Hm0) as (w0 & -> & H0).
    destruct (IH2 _ _ _ Hm) as (w1 & H1 & H2).
    exists (w0 ++ w1). rewrite <- app_assoc, <- H1, last_or_app, <- H0. auto.
  - apply elem_of_app in Hm as [Hm|Hm]; [eapply IH1, Hm | eapply IH2, Hm].
  - remember (length s) as n eqn:Hn. clear Hn.
    revert prev s m Hm. induction n as [|n IHn]; intros prev s m Hm;
      apply elem_of_star_from in Hm as [->|(n' & m0 & Hn & Hm0 & _ & Hm)];
      try (by exists []); try discriminate.
    injection Hn as <-.
    destruct (IH1 _ _ _ Hm0) as (w0 & -> & H0).
    destruct (IHn _ _ _ Hm) as (w1 & H1 & H2).
    exists (w0 ++ w1). rewrite <- app_assoc, <- H1, last_or_app, <- H0. auto.
Qed.

Lemma class_within (Q : option ascii -> bool) (neg : bool)
    (ranges : list (ascii * ascii)) (a : ascii) :
  forallb (fun a => implb (in_class neg ranges a) (Q (Some a))) all_bytes = true ->
  in_class neg ranges a = true -> Q (Some a) = true.
Proof.
  intros H Ha. pose proof (byte_forall _ H a) as Hb. cbv beta in Hb.
  by rewrite Ha in Hb.
Qed.

Lemma ends_keeps_sound (Q : option ascii -> bool) (r : regex) :
  (ends Q r = true ->
   forall prev s m, m ∈ matches r prev s -> Q (fst m) = true)
  /\ (keeps Q r = true ->
      forall prev s m, Q prev = true -> m ∈ matches r prev s -> Q (fst m) = true).
Proof.
  unfold ends, keeps.
  induction r as [|neg ranges| |r1 [IE1 IK1] r2 [IE2 IK2]|r1 [IE1 IK1] r2 [IE2 IK2]
                  |r1 [IE1 IK1]];
    cbn [reach];
    try (destruct (reach Q r1) as [e1 k1]); try (destruct (reach Q r2) as [e2 k2]);
    cbn [fst snd] in *;
    (split; [intros He prev s m Hm | intros Hk prev s m HQ Hm]);
    try discriminate; cbn [matches] in Hm.
  - by apply list_elem_of_singleton in Hm as ->.
  - destruct s as [|a s']; [by apply elem_of_nil in Hm|].
    destruct (in_class neg ranges a) eqn:Ha; [|by apply elem_of_nil in Hm].
    apply list_elem_of_singleton in Hm as ->. by apply (class_within Q neg ranges).
  - destruct s as [|a s']; [by apply elem_of_nil in Hm|].
    destruct (in_class neg ranges a) eqn:Ha; [|by apply elem_of_nil in Hm].
    apply list_elem_of_singleton in Hm as ->. by apply (class_within Q neg ranges).
  - destruct (at_word_boundary prev s); [|by apply elem_of_nil in Hm].
    by apply list_elem_of_singleton in Hm as ->.
  - apply elem_of_flat_map in Hm as (m0 & Hm0 & Hm).
    apply orb_true_iff in He as [He|[He1 Hk2]%andb_true_iff].
    + eapply IE2; eassumption.
    + eapply IK2; [exact Hk2 | eapply IE1; eassumption | exact Hm].
  - apply elem_of_flat_map in Hm as (m0 & Hm0 & Hm).
    apply orb_true_iff in Hk as [He|[Hk1 Hk2]%andb_true_iff].
    + eapply IE2; eassumption.
    + eapply IK2; [exact Hk2 | eapply IK1; eassumption | exact Hm].
  - apply andb_true_iff in He as [He1 He2].
    apply elem_of_app in Hm as [Hm|Hm]; [eapply IE1 | eapply IE2]; eassumption.
  - apply andb_true_iff in Hk as [Hk1 Hk2].
    apply elem_of_app in Hm as [Hm|Hm]; [eapply IK1 | eapply IK2]; eassumption.
  - remember (length s) as n eqn:Hn. clear Hn.
    revert prev s m HQ Hm. induction n as [|n IHn]; intros prev s m HQ Hm;
      apply elem_of_star_from in Hm as [->|(n' & m0 & Hn & Hm0 & _ & Hm)];
      try exact HQ; try discriminate.
    injection Hn as <-. eapply IHn; [|exact Hm]. eapply IK1; eassumption.
Qed.

Lemma ends_sound (Q : option ascii -> bool) (r : regex) prev s m :
  ends Q r = true -> m ∈ matches r prev s -> Q (fst m) = true.
Proof. intros He. by apply (proj1 (ends_keeps_sound Q r) He). Qed.

(** ** Statements whose digits are inside words *)

Lemma inner_weaken (p p' : option ascii) (t : list ascii) :
  (is_word_opt p = true -> is_word_opt p' = true) -> inner p t -> inner p' t.
Proof.
  destruct t as [|a t]; [auto|]. intros Hpp (Hd & Hq & Ht).
  split; [auto | split; assumption].
Qed.

Lemma inner_app (w : list ascii) :
  forall p z, inner p (w ++ z) -> inner (last_or p w) z.
Proof.
  induction w as [|a w IH]; intros p z H; [exact H|].
  rewrite last_or_cons. apply IH. by destruct H as (_ & _ & H).
Qed.

Lemma inner_match (r : regex) prev s m :
  inner prev s -> m ∈ matches r prev s -> inner (fst m) (snd m).
Proof.
  intros Hs Hm. destruct (matches_consumed r _ _ _ Hm) as (w & Hw & ->).
  apply inner_app. by rewrite <- Hw.
Qed.

Lemma inner_no_quote (t : list ascii) :
  forall p a, inner p t -> a ∈ t -> is_quote a = false.
Proof.
  induction t as [|b t IH]; intros p a Ht Ha; [by apply elem_of_nil in Ha|].
  destruct Ht as (_ & Hq & Ht). apply elem_of_cons in Ha as [->|Ha]; [exact Hq|].
  by apply (IH (Some b)).
Qed.

Lemma inner_prepend (ds : list ascii) :
  forall p t,
    (forall a, a ∈ ds -> is_digit a = false /\ is_quote a = false) ->
    inner (last_or p ds) t -> inner p (ds ++ t).
Proof.
  induction ds as [|d ds IH]; intros p t Hds Ht; [exact Ht|].
  destruct (Hds d) as [Hd Hq]; [apply elem_of_cons; by left|].
  cbn [app inner]. split; [by rewrite Hd|]. split; [exact Hq|].
  apply IH; [|by rewrite <- (last_or_cons p)].
  intros a Ha. apply Hds. apply elem_of_cons. by right.
Qed.

(** Replacing keeps digits inside words, when the pattern ends its
    matches after a byte that is no word byte and the replacement, free
    of digits and quotes, ends with such a byte too. *)
Lemma replaceAll_go_inner (r : regex) (subs : list ascii) :
  nullable r = false ->
  ends nonword r = true ->
  (forall a, a ∈ subs -> is_digit a = false /\ is_quote a = false) ->
  is_Some (last subs) -> nonword (last subs) = true ->
  forall fuel prev am u,
    inner prev u -> inner prev (replaceAll_go fuel r subs prev am u).
Proof.
  intros Hnull Hends Hsubs [b Hb] Hlast.
  induction fuel as [|f IH]; intros prev am u Hu; [exact Hu|].
  cbn [replaceAll_go].
  destruct (match_here r prev u) as [[p rest]|] eqn:Hm.
  - pose proof (match_here_elem _ _ _ _ Hm) as Hin.
    pose proof (matches_consume r Hnull _ _ _ Hin) as Hlt. simpl in Hlt.
    destruct (Nat.ltb_spec (length rest) (length u)); [|lia].
    apply inner_prepend; [exact Hsubs|].
    apply (inner_weaken p).
    + pose proof (ends_sound nonword r _ _ _ Hends Hin) as Hp.
      unfold nonword in Hp. simpl in Hp. intros Hw. rewrite Hw in Hp. discriminate.
    + apply IH. apply (inner_match r prev u (p, rest) Hu Hin).
  - destruct u as [|a u']; [exact I|].
    destruct Hu as (Hd & Hq & Hu'). cbn [inner]. auto.
Qed.

Lemma replaceAll_go_quiet_from (re : regex) (subs : list ascii) (t : list ascii) :
  forall prev,
    quiet_from re prev t ->
    forall fuel am, replaceAll_go fuel re subs prev am t = t.
Proof.
  induction t as [|a t IH]; intros prev [Hq Ht] fuel am;
    destruct fuel as [|f]; try reflexivity; cbn [replaceAll_go];
    unfold match_here; rewrite Hq; cbn [head]; [reflexivity|].
  f_equal. apply IH. exact Ht.
Qed.

Lemma digit_is_word (a : ascii) : is_digit a = true -> is_word a = true.
Proof.
  intros H.
  pose proof (byte_forall (fun a => implb (is_digit a) (is_word a)) eq_refl a) as Hb.
  cbv beta in Hb. by rewrite H in Hb.
Qed.

(** After a word byte, or before a byte that is no digit, the part
    [\b\d+\b] of the integer rule finds nothing. *)
Lemma bounded_digits_none (p : option ascii) (z : list ascii) :
  (forall d, head z = Some d -> is_digit d = true -> is_word_opt p = true) ->
  matches (Cat WordB (Cat (Plus digit) WordB)) p z = [].
Proof.
  intros Hz. rewrite matches_Cat, matches_WordB.
  destruct (at_word_boundary p z) eqn:Hb; [|reflexivity].
  cbn [flat_map fst snd]. rewrite app_nil_r, matches_Cat.
  unfold digit. rewrite plus_class_none; [reflexivity|].
  destruct z as [|d z']; [exact I|]. cbn [head].
  destruct (in_class false [("0", "9")]%char d) eqn:Hd; [|reflexivity].
  unfold at_word_boundary in Hb. cbn [head is_word_opt] in Hb.
  rewrite (Hz d eq_refl Hd), (digit_is_word d Hd) in Hb. discriminate.
Qed.

Lemma integer_no_match (prev : option ascii) (t : list ascii) :
  inner prev t -> matches (re integer) prev t = [].
Proof.
  intros Ht.
  change (re integer)
    with (Cat (Alt (Class false [("+", "+"); ("-", "-")]%char) Eps)
            (Cat WordB (Cat (Plus digit) WordB))).
  rewrite matches_Cat, matches_Alt, flat_map_app.
  change (matches Eps prev t) with [(prev, t)]. cbn [flat_map fst snd].
  rewrite app_nil_r.
  rewrite (bounded_digits_none prev t).
  2:{ intros d Hd Hdig. destruct t as [|a t']; [discriminate|].
      injection Hd as ->. by apply Ht. }
  rewrite app_nil_r. apply flat_map_nil. intros m Hm.
  destruct t as [|a t']; [by apply elem_of_nil in Hm|]. cbn [matches] in Hm.
  destruct (in_class false [("+", "+"); ("-", "-")]%char a); [|by apply elem_of_nil in Hm].
  apply list_elem_of_singleton in Hm as ->. cbn [fst snd].
  apply bounded_digits_none.
  intros d Hd Hdig. destruct Ht as (_ & _ & Ht'). destruct t' as [|a' t'']; [discriminate|].
  injection Hd as ->. by apply Ht'.
Qed.

Lemma hexadecimal_no_match (prev : option ascii) (t : list ascii) :
  inner prev t -> matches (re hexadecimal) prev t = [].
Proof.
  intros Ht.
  change (re hexadecimal)
    with (Cat WordB (Cat (Chr "0") (Cat (Chr "x") (Cat (Plus hexdigit) WordB)))).
  rewrite matches_Cat, matches_WordB.
  destruct (at_word_boundary prev t) eqn:Hb; [|reflexivity].
  cbn [flat_map fst snd]. rewrite app_nil_r, matches_Cat.
  assert (H0 : matches (Chr "0") prev t = []); [|by rewrite H0].
  unfold Chr. cbn [matches]. destruct t as [|a t']; [reflexivity|].
  destruct (in_class false [("0"%char, "0"%char)] a) eqn:Ha; [|reflexivity].
  apply in_class_Chr in Ha as ->. destruct Ht as (Hd & _).
  unfold at_word_boundary in Hb. cbn [head is_word_opt] in Hb.
  rewrite (Hd eq_refl) in Hb. discriminate.
Qed.

Lemma inner_quiet (r : regex) (t : list ascii) :
  (forall prev u, inner prev u -> matches r prev u = []) ->
  forall prev, inner prev t -> quiet_from r prev t.
Proof.
  intros Hr. induction t as [|a t IH]; intros prev Ht; cbn [quiet_from].
  - split; [by apply Hr | exact I].
  - split; [by apply Hr|]. apply IH. by destruct Ht as (_ & _ & Ht).
Qed.

(** ** The normalizer on statements without literals *)

Lemma L_Normalize (p : NormalizePattern) (x : string) :
  list_ascii_of_string (Normalize p x)
  = replaceAll (re p) (list_ascii_of_string (subs p)) (list_ascii_of_string x).
Proof.
  unfold Normalize, ReplaceAllString. apply list_ascii_of_string_of_list_ascii.
Qed.

Lemma normalizeQuery_rules (x : string) :
  normalizeQuery x
  = Normalize long_list (Normalize dquoted (Normalize squoted
      (Normalize escaped_dquote (Normalize escaped_squote
         (Normalize hexadecimal (Normalize integer (Normalize spaces x))))))).
Proof. reflexivity. Qed.

Lemma spaces_inner (l : list ascii) :
  inner None l ->
  inner None (replaceAll (re spaces) (list_ascii_of_string (subs spaces)) l).
Proof.
  apply replaceAll_go_inner; try reflexivity.
  - intros a Ha. each_in Ha.
  - by eexists.
Qed.


(** Rules 2 to 7 leave a statement without literals as it is. *)
Lemma literal_rules_fixed (p : NormalizePattern) (l : list ascii) :
  p ∈ [integer; hexadecimal; escaped_squote; escaped_dquote; squoted; dquoted] ->
  inner None l ->
  replaceAll (re p) (list_ascii_of_string (subs p)) l = l.
Proof.
  intros Hp Hl.
  assert (Hq : forall a, a ∈ l -> is_quote a = false)
    by (intros a; apply (inner_no_quote l None a Hl)).
  repeat (apply elem_of_cons in Hp as [->|Hp]);
    [ apply replaceAll_go_quiet_from, (inner_quiet _ _ integer_no_match), Hl
    | apply replaceAll_go_quiet_from, (inner_quiet _ _ hexadecimal_no_match), Hl
    | by apply (replaceAll_needs is_quote)
    | by apply (replaceAll_needs is_quote)
    | by apply (replaceAll_needs is_quote)
    | by apply (replaceAll_needs is_quote)
    | by apply elem_of_nil in Hp ].
Qed.

(** On a statement without literals only the collapsing of spaces and
    the folding of long lists act. *)
Lemma normalizeQuery_wordy (x : string) :
  wordy x ->
  list_ascii_of_string (normalizeQuery x)
  = replaceAll (re long_list) (list_ascii_of_string (subs long_list))
      (replaceAll (re spaces) (list_ascii_of_string (subs spaces))
         (list_ascii_of_string x)).
Proof.
  intros Hx. rewrite normalizeQuery_rules. rewrite !L_Normalize.
  pose proof (spaces_inner _ Hx) as H1.
  rewrite (literal_rules_fixed integer) by (set_solver || exact H1).
  rewrite (literal_rules_fixed hexadecimal) by (set_solver || exact H1).
  rewrite (literal_rules_fixed escaped_squote) by (set_solver || exact H1).
  rewrite (literal_rules_fixed escaped_dquote) by (set_solver || exact H1).
  rewrite (literal_rules_fixed squoted) by (set_solver || exact H1).
  rewrite (literal_rules_fixed dquoted) by (set_solver || exact H1).
  reflexivity.
Qed.




Example normalizeQuery_wordy_sample :
  normalizeQuery "SELECT  a1, b_2 FROM t1 WHERE x IN (N, N,N ,N,N)  AND c3 = d"
  = "SELECT a1, b_2 FROM t1 WHERE x IN (...N) AND c3 = d"%string.
Proof. vm_compute. reflexivity. Qed.


(** ** Quoted literals *)

Lemma quoted_match_here (qc : ascii) (prev : option ascii) (body y : list ascii) :
  body <> [] -> qc ∉ body ->
  exists p', match_here (quoted qc) prev (qc :: body ++ qc :: y) = Some (p', y).
Proof.
  intros Hne Hq. destruct body as [|b run]; [done|].
  apply not_elem_of_cons in Hq as [Hb Hrun].
  destruct (plus_class_greedy true [(qc, qc)] b run (qc :: y) (Some qc))
    as (p' & others & Hplus).
  - apply in_class_NotChr. congruence.
  - intros a Ha. apply in_class_NotChr. intros ->. contradiction.
  - cbn [head]. destruct (in_class true [(qc, qc)] qc) eqn:H; [|reflexivity].
    apply in_class_NotChr in H. contradiction.
  - assert (Hq1 : matches (Chr qc) prev (qc :: (b :: run) ++ qc :: y)
                  = [(Some qc, (b :: run) ++ qc :: y)]).
    { unfold Chr. cbn [matches].
      by rewrite (proj2 (in_class_Chr qc qc) eq_refl). }
    assert (Hq2 : matches (Chr qc) p' (qc :: y) = [(Some qc, y)]).
    { unfold Chr. cbn [matches].
      by rewrite (proj2 (in_class_Chr qc qc) eq_refl). }
    exists (Some qc). unfold match_here, quoted.
    change (matches (Cat (Chr qc) (Cat (Plus (NotChr qc)) (Chr qc))) prev
              (qc :: (b :: run) ++ qc :: y))
      with (flat_map
              (fun m => flat_map (fun m' => matches (Chr qc) (fst m') (snd m'))
                          (matches (Plus (NotChr qc)) (fst m) (snd m)))
              (matches (Chr qc) prev (qc :: (b :: run) ++ qc :: y))).
    rewrite Hq1. cbn [flat_map fst snd]. unfold NotChr.
    change ((b :: run) ++ qc :: y) with (b :: run ++ qc :: y).
    rewrite Hplus. cbn [flat_map fst snd]. rewrite Hq2. reflexivity.
Qed.

Lemma quoted_no_match (qc a : ascii) (prev : option ascii) (s : list ascii) :
  a <> qc -> match_here (quoted qc) prev (a :: s) = None.
Proof.
  intros Hne. unfold match_here, quoted.
  change (matches (Cat (Chr qc) (Cat (Plus (NotChr qc)) (Chr qc))) prev (a :: s))
    with (flat_map
            (fun m => matches (Cat (Plus (NotChr qc)) (Chr qc)) (fst m) (snd m))
            (matches (Chr qc) prev (a :: s))).
  assert (H : matches (Chr qc) prev (a :: s) = []).
  { unfold Chr. cbn [matches].
    destruct (in_class false [(qc, qc)] a) eqn:Hin; [|reflexivity].
    apply in_class_Chr in Hin. contradiction. }
  by rewrite H.
Qed.

(** The rule of a quoted literal on a text: up to the first quote
    nothing changes, the literal that starts there becomes the
    replacement, and the rule goes on with what follows. *)
Lemma replaceAll_quoted (qc : ascii) (subs : list ascii) (x body y : list ascii) :
  qc ∉ x -> body <> [] -> qc ∉ body ->
  replaceAll (quoted qc) subs (x ++ qc :: body ++ qc :: y)
  = x ++ subs ++ replaceAll (quoted qc) subs y.
Proof.
  intros Hx Hne Hb. unfold replaceAll at 1.
  remember (S (length (x ++ qc :: body ++ qc :: y))) as fuel eqn:Hfuel.
  assert (Hf : (length (x ++ qc :: body ++ qc :: y) < fuel)%nat) by lia.
  clear Hfuel. generalize (@None ascii) as prev. generalize false as am.
  revert fuel Hf. induction x as [|a x IH]; intros fuel Hf am prev.
  - cbn [app] in *. destruct fuel as [|f]; [lia|]. cbn [replaceAll_go].
    destruct (quoted_match_here qc prev body y Hne Hb) as (p' & ->).
    simpl in Hf. rewrite length_app in Hf. simpl in Hf.
    destruct (Nat.ltb_spec (length y) (length (qc :: body ++ qc :: y))) as [_|Hge].
    + f_equal. apply replaceAll_go_indep; [reflexivity | reflexivity | lia | lia].
    + simpl in Hge. rewrite length_app in Hge. simpl in Hge. lia.
  - apply not_elem_of_cons in Hx as [Ha Hx].
    destruct fuel as [|f]; [lia|]. cbn [app replaceAll_go].
    rewrite quoted_no_match by congruence. f_equal.
    apply (IH Hx). simpl in Hf. lia.
Qed.

Lemma L_app (a b : string) :
  list_ascii_of_string (a +:+ b) = list_ascii_of_string a ++ list_ascii_of_string b.
Proof. induction a as [|x a IH]; [reflexivity|]. simpl. by rewrite IH. Qed.

Lemma string_of_list_app (l1 l2 : list ascii) :
  string_of_list_ascii (l1 ++ l2) = string_of_list_ascii l1 +:+ string_of_list_ascii l2.
Proof. induction l1 as [|x l1 IH]; [reflexivity|]. simpl. by rewrite IH. Qed.

Lemma holds_app (a b : string) (x : ascii) :
  holds (a +:+ b) x <-> holds a x \/ holds b x.
Proof. unfold holds. rewrite L_app. apply elem_of_app. Qed.

(** The same on strings, for a rule of the table. *)
Lemma Normalize_quoted (p : NormalizePattern) (qc : ascii) (x body y : string) :
  re p = quoted qc ->
  ~ holds x qc -> body <> ""%string -> ~ holds body qc ->
  Normalize p (x +:+ String qc (body +:+ String qc y))
  = x +:+ subs p +:+ Normalize p y.
Proof.
  intros Hre Hx Hne Hb. unfold Normalize, ReplaceAllString. rewrite Hre.
  rewrite L_app. cbn [list_ascii_of_string]. rewrite L_app. cbn [list_ascii_of_string].
  rewrite replaceAll_quoted.
  - rewrite !string_of_list_app, !string_of_list_ascii_of_string. reflexivity.
  - exact Hx.
  - destruct body; [done | discriminate].
  - exact Hb.
Qed.

Lemma holds_String (c0 : ascii) (s : string) (a : ascii) :
  holds (String c0 s) a <-> a = c0 \/ holds s a.
Proof. unfold holds. cbn [list_ascii_of_string]. apply elem_of_cons. Qed.

Lemma Normalize_needs (P : ascii -> bool) (p : NormalizePattern) (s : string) :
  needs P (re p) = true ->
  (forall a, holds s a -> P a = false) ->
  Normalize p s = s.
Proof.
  intros Hn Hs. unfold Normalize, ReplaceAllString.
  rewrite (replaceAll_needs P) by assumption.
  apply string_of_list_ascii_of_string.
Qed.

Lemma Normalize_spaces_fixed (s : string) :
  single_spaced (list_ascii_of_string s) -> Normalize spaces s = s.
Proof.
  intros Hs. unfold Normalize, ReplaceAllString.
  change (list_ascii_of_string (subs spaces)) with [sp].
  unfold replaceAll. rewrite spaces_fixed by (lia || exact Hs).
  apply string_of_list_ascii_of_string.
Qed.

Lemma tame_facts (a : ascii) :
  tame_byte a = true ->
  digit_or_backslash a = false /\ a <> squote /\ a <> dquote /\ a <> ","%char.
Proof.
  intros Ht.
  pose proof (byte_forall
    (fun a => implb (tame_byte a)
                (negb (digit_or_backslash a)
                 && negb (in_class false [(squote, squote)] a)
                 && negb (in_class false [(dquote, dquote)] a)
                 && negb (in_class false [(",", ",")]%char a)))
    eq_refl a) as H.
  cbv beta in H. rewrite Ht in H. cbn [implb] in H.
  apply andb_true_iff in H as [H H4]. apply andb_true_iff in H as [H H3].
  apply andb_true_iff in H as [H1 H2].
  apply negb_true_iff in H1, H2, H3, H4.
  split; [exact H1|].
  split; [|split]; intros ->.
  - by rewrite (proj2 (in_class_Chr squote squote) eq_refl) in H2.
  - by rewrite (proj2 (in_class_Chr dquote dquote) eq_refl) in H3.
  - by rewrite (proj2 (in_class_Chr "," ",") eq_refl) in H4.
Qed.


Lemma not_Chr_false (c0 a : ascii) : a <> c0 -> in_class false [(c0, c0)] a = false.
Proof.
  intros Hne. destruct (in_class false [(c0, c0)] a) eqn:H; [|reflexivity].
  apply in_class_Chr in H. contradiction.
Qed.


(** An empty literal is no match of the rule of its quote. *)
Lemma quoted_empty_quiet (qc : ascii) (x y : list ascii) :
  qc = squote \/ qc = dquote ->
  qc ∉ x -> qc ∉ y ->
  quiet (quoted qc) (x ++ qc :: qc :: y).
Proof.
  intros Hqc Hx Hy.
  assert (Hrest : forall p z,
             qc ∉ z -> matches (Cat (Plus (NotChr qc)) (Chr qc)) p z = []).
  { intros p z Hz. apply (needs_no_match (in_class false [(qc, qc)])).
    - destruct Hqc as [-> | ->]; reflexivity.
    - intros a Ha. apply not_Chr_false. intros ->. contradiction. }
  assert (Hq1 : forall prev z, matches (Chr qc) prev (qc :: z) = [(Some qc, z)]).
  { intros prev z. unfold Chr. cbn [matches].
    by rewrite (proj2 (in_class_Chr qc qc) eq_refl). }
  assert (Hy' : quiet (quoted qc) y).
  { apply (needs_quiet (in_class false [(qc, qc)])).
    - destruct Hqc as [-> | ->]; reflexivity.
    - intros a Ha. apply not_Chr_false. intros ->. contradiction. }
  induction x as [|a x IH].
  - cbn [app quiet]. split; [|split; [|exact Hy']].
    + intros prev. unfold quoted. rewrite matches_Cat, Hq1.
      cbn [flat_map fst snd]. rewrite app_nil_r, matches_Cat.
      unfold NotChr. rewrite plus_class_none; [reflexivity|]. cbn [head].
      destruct (in_class true [(qc, qc)] qc) eqn:H; [|reflexivity].
      apply in_class_NotChr in H. contradiction.
    + intros prev. unfold quoted. rewrite matches_Cat, Hq1.
      cbn [flat_map fst snd]. rewrite app_nil_r. by apply Hrest.
  - apply not_elem_of_cons in Hx as [Ha Hx]. cbn [app quiet]. split; [|by apply IH].
    intros prev. pose proof (quoted_no_match qc a prev (x ++ qc :: qc :: y)) as H.
    unfold match_here in H.
    destruct (matches (quoted qc) prev (a :: x ++ qc :: qc :: y)); [reflexivity|].
    discriminate H. congruence.
Qed.

Lemma Normalize_empty_literal (p : NormalizePattern) (qc : ascii) (x y : string) :
  re p = quoted qc ->
  qc = squote \/ qc = dquote ->
  ~ holds x qc -> ~ holds y qc ->
  Normalize p (x +:+ String qc (String qc y)) = (x +:+ String qc (String qc y))%string.
Proof.
  intros Hre Hqc Hx Hy. unfold Normalize, ReplaceAllString. rewrite Hre.
  rewrite L_app. cbn [list_ascii_of_string].
  unfold replaceAll. rewrite replaceAll_go_quiet by by apply quoted_empty_quiet.
  rewrite string_of_list_app. cbn [string_of_list_ascii].
  by rewrite !string_of_list_ascii_of_string.
Qed.





(** Escaped quotes are taken out by rules 4 and 5 before the quote rules
    run, and a list of literals is folded after them. *)
Example escaped_quote_and_list :
  normalizeQuery "a = 'it\'s' AND b IN ('p', 'q', 'r', 's', 't')"
  = "a = S AND b IN (...S)"%string.
Proof. vm_compute. reflexivity. Qed.

(** * Further properties of the program *)

(** ** The cumulative summarizer over a run *)

Lemma summarizer_updates_counts (batches : list (list string)) :
  forall s,
    s_counts (summarizer_updates s batches)
    = fold_left count_one (concat batches) (s_counts s).
Proof.
  induction batches as [|b rest IH]; intros s; [reflexivity|].
  cbn [summarizer_updates fold_left concat]. rewrite fold_left_app.
  apply (IH (fst (summarizer_Update s b))).
Qed.

Lemma run_counts (bs : list (list string)) :
  counts_of (concat bs) (s_counts (summarizer_updates {| s_counts := ∅ |} bs)).
Proof. rewrite summarizer_updates_counts. apply count_fold_empty. Qed.

(** X1. After any run of [Update] calls from the empty state the
    cumulative summarizer holds, for each statement seen, the number of
    times it was seen in all the batches together, as an [int64], and
    holds no other key.  Batches that list the same statements the same
    number of times, in whatever order and however split, give the same
    counts. *)
Theorem cumulative_counts_of_run (batches batches' : list (list string)) :
  counts_of (concat batches)
    (s_counts (summarizer_updates {| s_counts := ∅ |} batches))
  /\ (concat batches ≡ₚ concat batches' ->
      s_counts (summarizer_updates {| s_counts := ∅ |} batches)
      = s_counts (summarizer_updates {| s_counts := ∅ |} batches')).
Proof.
  split; [apply run_counts|]. intros Hp. apply map_eq. intros x.
  rewrite (run_counts batches x), (run_counts batches' x).
  destruct (decide (x ∈ concat batches)) as [Hin|Hin];
    [rewrite decide_True by by rewrite <- Hp | rewrite decide_False by by rewrite <- Hp].
  - by rewrite (occurrences_perm x _ _ Hp).
  - reflexivity.
Qed.

Lemma cumulative_counts_of_run_witness :
  s_counts (summarizer_updates {| s_counts := ∅ |} [["A"; "B"]; ["A"]]%string)
  = s_counts (summarizer_updates {| s_counts := ∅ |} [["A"]; []; ["A"; "B"]]%string).
Proof.
  apply (proj2 (cumulative_counts_of_run [["A"; "B"]; ["A"]]%string
                  [["A"]; []; ["A"; "B"]]%string)).
  cbn [concat app]. apply Permutation_skip, Permutation_swap.
Defined.

(** X2. As long as fewer than 2^63 statements have been counted, no
    count has wrapped: each key of the cumulative summarizer holds the
    exact number of times the statement was seen, which is at least 1. *)
Theorem cumulative_counts_exact (batches : list (list string)) (x : string) (v : Z) :
  Z.of_nat (length (concat batches)) < Int64.half ->
  s_counts (summarizer_updates {| s_counts := ∅ |} batches) !! x = Some v ->
  v = occurrences x (concat batches) /\ 1 <= v.
Proof.
  intros Hlen Hx.
  rewrite (run_counts batches x) in Hx.
  destruct (decide (x ∈ concat batches)) as [Hin|Hin]; [|discriminate].
  injection Hx as <-.
  pose proof (occurrences_le_length x (concat batches)) as Hle.
  assert (Hpos : 1 <= occurrences x (concat batches)).
  { unfold occurrences.
    assert (x ∈ filter (fun y => y = x) (concat batches))
      by (apply list_elem_of_filter; auto).
    destruct (filter (fun y => y = x) (concat batches)) as [|y l];
      [by apply elem_of_nil in H | simpl length; lia]. }
  rewrite wrap64_small; [auto|].
  unfold Int64.in_range. unfold Int64.half in *. lia.
Qed.

Lemma cumulative_counts_exact_witness :
  3 = occurrences "A" (concat [["A"; "A"; "B"]; ["A"]]%string) /\ 1 <= 3.
Proof.
  apply (cumulative_counts_exact [["A"; "A"; "B"]; ["A"]]%string "A"%string 3).
  - vm_compute. reflexivity.
  - vm_compute. reflexivity.
Defined.

(** ** The window over a run *)

Lemma last_n_all {A : Type} (n : nat) (l : list A) :
  (length l <= n)%nat -> last_n n l = l.
Proof. intros H. unfold last_n. replace (length l - n)%nat with 0%nat by lia. done. Qed.

Lemma last_n_length {A : Type} (n : nat) (l : list A) :
  length (last_n n l) = Nat.min n (length l).
Proof. unfold last_n. rewrite length_drop. lia. Qed.

Lemma tail_drop {A : Type} (k : nat) (l : list A) : tail (drop k l) = drop (S k) l.
Proof.
  revert l. induction k as [|k IH]; intros [|x l]; try reflexivity. apply IH.
Qed.

Lemma last_n_snoc {A : Type} (n : nat) (l : list A) (x : A) :
  (0 < n)%nat ->
  last_n n (l ++ [x])
  = (if (n <=? length l)%nat then tail (last_n n l) else last_n n l) ++ [x].
Proof.
  intros Hn. unfold last_n. rewrite length_app. cbn [length].
  destruct (Nat.leb_spec n (length l)) as [Hle|Hlt].
  - replace (length l + 1 - n)%nat with (S (length l - n)) by lia.
    rewrite drop_app_le by lia. f_equal.
    by rewrite tail_drop.
  - replace (length l + 1 - n)%nat with 0%nat by lia.
    replace (length l - n)%nat with 0%nat by lia. reflexivity.
Qed.

Lemma last_n_last_n_app {A : Type} (n : nat) (l l' : list A) :
  last_n n (last_n n l ++ l') = last_n n (l ++ l').
Proof.
  unfold last_n. rewrite !length_app, length_drop, !drop_app, drop_drop, length_drop.
  f_equal; f_equal; lia.
Qed.

Lemma recent_Update_window (N : Z) (prevs : list (list string)) (b : list string) :
  0 < N ->
  (length prevs <= Z.to_nat N)%nat ->
  recentSummarizer_Update {| r_last := N; r_counts := round_of <$> prevs |} b
  = Returned ({| r_last := N;
                 r_counts := round_of <$> last_n (Z.to_nat N) (prevs ++ [b]) |},
              sort_Strings b).
Proof.
  intros HN Hlen.
  destruct (recent_Update_returns {| r_last := N; r_counts := round_of <$> prevs |} b HN)
    as (counts & -> & ->).
  cbn [r_last r_counts]. do 3 f_equal.
  rewrite last_n_snoc by lia. rewrite fmap_app. cbn [fmap list_fmap].
  f_equal. rewrite length_fmap, last_n_all by exact Hlen.
  destruct (Z.geb_spec (Z.of_nat (length prevs)) N) as [Hge|Hlt];
    [destruct (Nat.leb_spec (Z.to_nat N) (length prevs)); [|lia]
    |destruct (Nat.leb_spec (Z.to_nat N) (length prevs)); [lia|]];
    [|reflexivity].
  destruct prevs; reflexivity.
Qed.

Lemma recent_updates_window (N : Z) (batches : list (list string)) :
  0 < N ->
  forall prevs,
    (length prevs <= Z.to_nat N)%nat ->
    recent_updates {| r_last := N; r_counts := round_of <$> prevs |} batches
    = Returned {| r_last := N;
                  r_counts := round_of <$> last_n (Z.to_nat N) (prevs ++ batches) |}.
Proof.
  intros HN. induction batches as [|b rest IH]; intros prevs Hlen; cbn [recent_updates].
  - by rewrite app_nil_r, last_n_all.
  - rewrite (recent_Update_window N prevs b HN Hlen).
    rewrite IH by (rewrite last_n_length; lia).
    by rewrite last_n_last_n_app, <- app_assoc.
Qed.

(** X3. A windowed summarizer of retention [N > 0] holds, after any run
    of [Update] calls from the empty state, the rounds of the last [N]
    batches of the run, oldest first, or of all of them while there are
    fewer than [N]. *)
Theorem window_holds_last_rounds (N : Z) (batches : list (list string)) :
  0 < N ->
  recent_updates {| r_last := N; r_counts := [] |} batches
  = Returned {| r_last := N;
                r_counts := round_of <$> last_n (Z.to_nat N) batches |}.
Proof.
  intros HN. apply (recent_updates_window N batches HN []). simpl. lia.
Qed.

Lemma window_holds_last_rounds_witness :
  recent_updates {| r_last := 2; r_counts := [] |}
    [["a"]; ["b"; "a"; "b"]; ["c"]]%string
  = Returned {| r_last := 2;
                r_counts := round_of <$> last_n (Z.to_nat 2)
                              [["a"]; ["b"; "a"; "b"]; ["c"]]%string |}.
Proof.
  apply (window_holds_last_rounds 2 [["a"]; ["b"; "a"; "b"]; ["c"]]%string). lia.
Defined.

Lemma add_round (b : list string) (m : gmap string Z) (x : string) :
  fold_left add_count (round_of b) m !! x
  = if decide (x ∈ b)
    then Some (Int64.wrap64 (default 0 (m !! x) + occurrences x b))
    else m !! x.
Proof.
  rewrite add_count_fold. unfold round_of.
  destruct (round_of_batch b x) as [Hk Ht].
  destruct (decide (x ∈ b)) as [Hin|Hin].
  - rewrite decide_True by by apply Hk.
    f_equal. by apply wrap64_add_congr.
  - rewrite decide_False by (intros H; by apply Hin, Hk). reflexivity.
Qed.

Lemma add_rounds (bs : list (list string)) :
  forall (m : gmap string Z) (x : string),
    fold_left (fun sum qcs => fold_left add_count qcs sum) (round_of <$> bs) m !! x
    = if decide (x ∈ concat bs)
      then Some (Int64.wrap64 (default 0 (m !! x) + occurrences x (concat bs)))
      else m !! x.
Proof.
  induction bs as [|b bs IH]; intros m x.
  - cbn. destruct (decide (x ∈ [])) as [H|H]; [by apply elem_of_nil in H | reflexivity].
  - rewrite fmap_cons. cbn [fold_left concat]. rewrite IH, add_round, occurrences_app.
    destruct (decide (x ∈ b)) as [Hb|Hb], (decide (x ∈ concat bs)) as [Hc|Hc].
    + rewrite decide_True by (apply elem_of_app; tauto). cbn [default from_option].
      unfold Datatypes.id. rewrite wrap64_idem_l. do 2 f_equal. lia.
    + rewrite decide_True by (apply elem_of_app; tauto).
      rewrite (occurrences_notin x (concat bs) Hc). do 2 f_equal. lia.
    + rewrite decide_True by (apply elem_of_app; tauto).
      rewrite (occurrences_notin x b Hb). do 2 f_equal.
    + rewrite decide_False by (rewrite elem_of_app; tauto). reflexivity.
Qed.

Lemma window_aggregate (N : Z) (bs : list (list string)) :
  counts_of (concat bs) (recent_sum {| r_last := N; r_counts := round_of <$> bs |}).
Proof.
  intros x. unfold recent_sum. cbn [r_counts]. rewrite add_rounds, lookup_empty.
  destruct (decide (x ∈ concat bs)); reflexivity.
Qed.

(** X4. The aggregate [recentSummarizer.Show] builds after any run from
    the empty state counts the statements of the last [N] batches of
    the run and nothing else: each with the number of times it occurs
    in those batches together, as an [int64]. *)
Theorem window_aggregate_counts_last_batches (N : Z) (batches : list (list string)) :
  0 < N ->
  exists s,
    recent_updates {| r_last := N; r_counts := [] |} batches = Returned s
    /\ counts_of (concat (last_n (Z.to_nat N) batches)) (recent_sum s).
Proof.
  intros HN. eexists. split.
  - apply (recent_updates_window N batches HN []). simpl. lia.
  - rewrite app_nil_l. apply window_aggregate.
Qed.

Lemma window_aggregate_counts_last_batches_witness :
  exists s,
    recent_updates {| r_last := 2; r_counts := [] |}
      [["a"]; ["b"; "a"; "b"]; ["c"; "b"]]%string = Returned s
    /\ counts_of (concat (last_n (Z.to_nat 2) [["a"]; ["b"; "a"; "b"]; ["c"; "b"]]%string))
         (recent_sum s).
Proof.
  apply (window_aggregate_counts_last_batches 2
           [["a"]; ["b"; "a"; "b"]; ["c"; "b"]]%string). lia.
Defined.

Section WindowAndCumulative.

Context `{rt : GoRuntime}.


End WindowAndCumulative.


(** ** The shape of a round *)

Lemma wrap64_in_range (z : Z) : Int64.in_range (Int64.wrap64 z).
Proof.
  unfold Int64.in_range, Int64.wrap64.
  pose proof (Z.mod_pos_bound (z + Int64.half) Int64.modulus) as H.
  unfold Int64.modulus, Int64.half in *. lia.
Qed.

Lemma rle_step_shape (qc : list queryCount) (y : string) :
  StronglySorted text_lt (q <$> qc) ->
  (forall k, k ∈ q <$> qc -> String.le k y) ->
  Forall (fun p => Int64.in_range (c p)) qc ->
  StronglySorted text_lt (q <$> rle_step qc y)
  /\ (forall k, k ∈ q <$> rle_step qc y -> k ∈ q <$> qc \/ k = y)
  /\ Forall (fun p => Int64.in_range (c p)) (rle_step qc y).
Proof.
  intros Hs Hle Hr.
  assert (Hin : forall k, k ∈ q <$> rle_step qc y -> k ∈ q <$> qc \/ k = y)
    by (intros k; apply (rle_step_spec qc y k)).
  split; [|split; [exact Hin|]].
  - unfold rle_step. destruct (last qc) as [p|] eqn:Hlast.
    + apply last_Some in Hlast. destruct Hlast as (l' & ->).
      destruct (String.eqb_spec (q p) y) as [Heq|Hne].
      * replace (length (l' ++ [p]) - 1)%nat with (length l' + 0)%nat
          by (rewrite length_app; simpl; lia).
        rewrite alter_app_r. simpl. by rewrite fmap_app in *.
      * rewrite fmap_app. apply StronglySorted_app. split; [|split].
        -- intros k y' Hk Hy'. apply list_elem_of_singleton in Hy'. subst y'.
           split; [by apply Hle|]. intros ->.
           rewrite fmap_app in Hk, Hs. apply elem_of_app in Hk as [Hk|Hk].
           ++ apply StronglySorted_app in Hs as (Hlt & _ & _).
              destruct (Hlt y (q p) Hk) as [Hyp Hnp];
                [simpl; apply list_elem_of_singleton; reflexivity|].
              apply Hnp. apply (anti_symm String.le); [exact Hyp|].
              apply Hle. rewrite fmap_app, elem_of_app. right.
              simpl. by apply list_elem_of_singleton.
           ++ simpl in Hk. apply list_elem_of_singleton in Hk. congruence.
        -- exact Hs.
        -- simpl. repeat constructor.
    + apply last_None in Hlast. subst qc. simpl. repeat constructor.
  - unfold rle_step. destruct (last qc) as [p|] eqn:Hlast.
    + destruct (String.eqb (q p) y).
      * apply Forall_alter; [exact Hr|]. intros p0 _ _. cbn [c].
        apply wrap64_in_range.
      * apply Forall_app. split; [exact Hr|]. repeat constructor; cbn [c];
          unfold Int64.half; lia.
    + apply Forall_app. split; [exact Hr|]. repeat constructor; cbn [c];
        unfold Int64.half; lia.
Qed.

Lemma rle_fold_shape (l : list string) :
  forall qc,
    StronglySorted String.le l ->
    StronglySorted text_lt (q <$> qc) ->
    (forall k y, k ∈ q <$> qc -> y ∈ l -> String.le k y) ->
    Forall (fun p => Int64.in_range (c p)) qc ->
    StronglySorted text_lt (q <$> fold_left rle_step l qc)
    /\ Forall (fun p => Int64.in_range (c p)) (fold_left rle_step l qc).
Proof.
  induction l as [|y l IH]; intros qc Hl Hs Hle Hr; cbn [fold_left]; [by split|].
  apply StronglySorted_inv in Hl as [Hl Hy].
  destruct (rle_step_shape qc y Hs) as (Hs' & Hin & Hr'); [|exact Hr|].
  { intros k Hk. apply Hle; [exact Hk | left]. }
  apply IH; [exact Hl | exact Hs' | | exact Hr'].
  intros k y' Hk Hy'. destruct (Hin k Hk) as [Hq| ->].
  - apply Hle; [exact Hq | by right].
  - rewrite Forall_forall in Hy. by apply Hy.
Qed.

Lemma round_of_shape (b : list string) :
  StronglySorted text_lt (q <$> round_of b)
  /\ Forall (fun p => Int64.in_range (c p)) (round_of b).
Proof.
  apply rle_fold_shape.
  - apply StronglySorted_merge_sort; apply _.
  - constructor.
  - intros k y Hk. by apply elem_of_nil in Hk.
  - constructor.
Qed.

Lemma total_of_entry (r : list queryCount) (p : queryCount) :
  StronglySorted text_lt (q <$> r) -> p ∈ r -> total r (q p) = c p.
Proof.
  induction r as [|p0 r IH]; intros Hs Hp; [by apply elem_of_nil in Hp|].
  rewrite fmap_cons in Hs. apply StronglySorted_inv in Hs as [Hs H0].
  rewrite Forall_forall in H0.
  unfold total. cbn [foldr]. fold (total r (q p)).
  apply elem_of_cons in Hp as [->|Hp].
  - rewrite decide_True by reflexivity. rewrite total_notin; [lia|].
    intros Hin. destruct (H0 _ Hin) as [_ Hne]. by apply Hne.
  - rewrite decide_False.
    + rewrite IH by assumption. lia.
    + assert (Hin : q p ∈ q <$> r) by (apply list_elem_of_fmap; eauto).
      destruct (H0 _ Hin) as [_ Hne]. exact Hne.
Qed.

(** X6. The round [recentSummarizer.Update] builds from a batch lists
    each statement of the batch once, in strictly ascending byte order,
    with the number of times it occurs in the batch as an [int64]; that
    number is exact and at least 1 for a batch of fewer than 2^63
    statements. *)
Theorem round_lists_each_statement_once (b : list string) :
  StronglySorted text_lt (q <$> round_of b)
  /\ (forall x, x ∈ q <$> round_of b <-> x ∈ b)
  /\ (forall p, p ∈ round_of b -> c p = Int64.wrap64 (occurrences (q p) b))
  /\ (Z.of_nat (length b) < Int64.half ->
      forall p, p ∈ round_of b -> c p = occurrences (q p) b /\ 1 <= c p).
Proof.
  destruct (round_of_shape b) as [Hs Hr].
  assert (Hc : forall p, p ∈ round_of b -> c p = Int64.wrap64 (occurrences (q p) b)).
  { intros p Hp. destruct (round_of_batch b (q p)) as [_ Ht].
    fold (round_of b) in Ht. rewrite (total_of_entry _ p Hs Hp) in Ht.
    rewrite <- Ht. symmetry. apply wrap64_small.
    rewrite Forall_forall in Hr. by apply Hr. }
  split; [exact Hs|]. split; [intros x; apply (round_of_batch b x)|].
  split; [exact Hc|].
  intros Hlen p Hp.
  assert (Hin : q p ∈ b).
  { apply (round_of_batch b (q p)). apply list_elem_of_fmap. eauto. }
  pose proof (occurrences_le_length (q p) b) as Hle.
  assert (Hpos : 1 <= occurrences (q p) b).
  { unfold occurrences.
    assert (H : q p ∈ filter (fun y => y = q p) b) by (apply list_elem_of_filter; auto).
    destruct (filter (fun y => y = q p) b) as [|y l];
      [by apply elem_of_nil in H | simpl length; lia]. }
  rewrite (Hc p Hp), wrap64_small; [auto|].
  unfold Int64.in_range. unfold Int64.half in *. lia.
Qed.

Lemma round_lists_each_statement_once_witness :
  Forall (fun p => c p = occurrences (q p) ["b"; "a"; "b"]%string /\ 1 <= c p)
    (round_of ["b"; "a"; "b"]%string).
Proof.
  apply Forall_forall.
  apply (proj2 (proj2 (proj2 (round_lists_each_statement_once ["b"; "a"; "b"]%string)))).
  vm_compute. reflexivity.
Defined.

(** ** When an update panics *)

Lemma updates_returns (batches : list (list string)) :
  forall s, wf_summarizer s ->
            exists s', updates s batches = Returned s' /\ wf_summarizer s'.
Proof.
  induction batches as [|b rest IH]; intros s Hwf; cbn [updates]; [eauto|].
  destruct s as [s0|r].
  - cbn [Update]. destruct (summarizer_Update s0 b) as [s1 qs]. by apply IH.
  - cbn [Update]. destruct (recent_Update_returns r b Hwf) as (counts & -> & _).
    apply IH. exact Hwf.
Qed.

(** X7. [recentSummarizer.Update] panics exactly when it is called with
    an empty queue and a retention that is not positive: the slice
    [counts[1:]] of an empty slice.  It never exits the process.  A
    summarizer built by [NewSummarizer] never gets there: every run of
    updates on it returns. *)
Theorem Update_panics_only_on_empty_queue_without_retention :
  (forall (s : recentSummarizer) (b : list string),
      (exists e, recentSummarizer_Update s b = Panicked e)
      <-> r_counts s = [] /\ r_last s <= 0)
  /\ (forall (s : recentSummarizer) (b : list string) (n : Z),
         recentSummarizer_Update s b <> Exited n)
  /\ (forall (last : Z) (batches : list (list string)),
         exists s', updates (NewSummarizer last) batches = Returned s').
Proof.
  split; [|split].
  - intros s b. unfold recentSummarizer_Update.
    destruct (Z.geb_spec (Z.of_nat (length (r_counts s))) (r_last s)) as [Hge|Hlt].
    + destruct (r_counts s) as [|r0 rs]; simpl in *.
      * split; [intros _; split; [reflexivity | lia] | eauto].
      * split; [intros [e He]; discriminate | intros [H _]; discriminate].
    + split; [intros [e He]; discriminate|].
      intros [H0 Hl]. rewrite H0 in Hlt. simpl in Hlt. lia.
  - intros s b n. unfold recentSummarizer_Update.
    destruct (Z.of_nat (length (r_counts s)) >=? r_last s);
      [destruct (r_counts s)|]; discriminate.
  - intros last batches.
    destruct (updates_returns batches (NewSummarizer last) (NewSummarizer_wf last))
      as (s' & Hs' & _). eauto.
Qed.

Lemma Update_panics_only_on_empty_queue_without_retention_witness :
  exists e,
    recentSummarizer_Update {| r_last := 0; r_counts := [] |} ["SELECT N"]%string
    = Panicked e.
Proof.
  apply (proj2 (proj1 Update_panics_only_on_empty_queue_without_retention
                  {| r_last := 0; r_counts := [] |} ["SELECT N"]%string)).
  split; [reflexivity | simpl; lia].
Defined.

(** ** The report for any limit and any sink *)


Section TopEntries.

Context `{rt : GoRuntime}.


End TopEntries.


(** ** The sort interface of [pairList] *)



Lemma swap_index_inj (i j : nat) : Inj eq eq (swap_index i j).
Proof.
  intros a b. unfold swap_index.
  repeat destruct (decide _); intros; subst; congruence.
Qed.

(** X10. [Swap] on two indices in range exchanges the two entries and
    leaves every other entry, and the length, as they were; the result
    is a permutation of the list, and swapping again restores it.  With
    an index out of range it panics. *)
Theorem Swap_exchanges_two_entries (pl : pairList) (i j : nat) :
  ((i < Len pl)%nat -> (j < Len pl)%nat ->
   exists pl',
     Swap pl i j = Some pl'
     /\ pl' !! i = pl !! j /\ pl' !! j = pl !! i
     /\ (forall k, k <> i -> k <> j -> pl' !! k = pl !! k)
     /\ Len pl' = Len pl
     /\ pl' ≡ₚ pl
     /\ Swap pl' i j = Some pl)
  /\ (~ ((i < Len pl)%nat /\ (j < Len pl)%nat) -> Swap pl i j = None).
Proof.
  unfold Len, Swap, pairList in *. split.
  - intros Hi Hj.
    destruct (pl !! i) as [a|] eqn:Ha; [|apply lookup_ge_None in Ha; lia].
    destruct (pl !! j) as [b|] eqn:Hb; [|apply lookup_ge_None in Hb; lia].
    eexists. split; [reflexivity|].
    assert (Hlook : forall k, <[j:=a]> (<[i:=b]> pl) !! k = pl !! swap_index i j k).
    { intros k. unfold swap_index.
      destruct (decide (k = j)) as [->|Hkj].
      - rewrite list_lookup_insert_eq by (rewrite length_insert; lia).
        destruct (decide (j = i)) as [->|_]; [congruence|]. by rewrite Ha.
      - rewrite list_lookup_insert_ne by congruence.
        destruct (decide (k = i)) as [->|Hki].
        + rewrite list_lookup_insert_eq by lia. by rewrite Hb.
        + by rewrite list_lookup_insert_ne by congruence. }
    assert (Hi' : <[j:=a]> (<[i:=b]> pl) !! i = Some b).
    { rewrite Hlook. unfold swap_index. by rewrite decide_True. }
    assert (Hj' : <[j:=a]> (<[i:=b]> pl) !! j = Some a).
    { rewrite Hlook. unfold swap_index.
      destruct (decide (j = i)) as [->|_]; [congruence|]. by rewrite decide_True. }
    split; [exact Hi'|]. split; [exact Hj'|]. split; [|split; [|split]].
    + intros k Hki Hkj. rewrite Hlook. unfold swap_index.
      by rewrite !decide_False.
    + by rewrite !length_insert.
    + apply Permutation_inj. split; [by rewrite !length_insert|].
      exists (swap_index i j). split; [apply swap_index_inj | exact Hlook].
    + rewrite Hi', Hj'. f_equal.
      apply list_eq. intros k.
      destruct (decide (k = j)) as [->|Hkj].
      * rewrite list_lookup_insert_eq by (rewrite !length_insert; lia). by rewrite Hb.
      * rewrite list_lookup_insert_ne by congruence.
        destruct (decide (k = i)) as [->|Hki].
        -- rewrite list_lookup_insert_eq by (rewrite !length_insert; lia). by rewrite Ha.
        -- rewrite list_lookup_insert_ne by congruence.
           rewrite Hlook. unfold swap_index. by rewrite !decide_False.
  - intros Hn.
    destruct (pl !! i) as [a|] eqn:Ha; [|reflexivity].
    destruct (pl !! j) as [b|] eqn:Hb; [|reflexivity].
    apply lookup_lt_Some in Ha, Hb. tauto.
Qed.

Lemma Swap_exchanges_two_entries_witness :
  exists pl',
    Swap [{| q := "a"; c := 1 |}; {| q := "b"; c := 2 |}; {| q := "d"; c := 3 |}]%string 0 2
    = Some pl'
    /\ pl' !! 0%nat = Some {| q := "d"; c := 3 |}%string
    /\ pl' !! 2%nat = Some {| q := "a"; c := 1 |}%string.
Proof.
  destruct (proj1 (Swap_exchanges_two_entries
              [{| q := "a"; c := 1 |}; {| q := "b"; c := 2 |}; {| q := "d"; c := 3 |}]%string
              0 2)) as (pl' & H1 & H2 & H3 & _); [simpl; lia | simpl; lia |].
  exists pl'. split; [exact H1|]. split; [exact H2 | exact H3].
Defined.

(** ** Snapshots that end the program *)

Section Fatal.

Context `{rt : GoRuntime}.

(** X11. A snapshot whose column list cannot be read makes [processList]
    panic: the loop ends there, after the deferred [Close] has run and
    logged its own error if it had one.  A snapshot with a column count
    other than 8 or 9 ends the process with exit code 1 after one log
    line, without reading a row and without closing the row set.  In
    both cases no statement is dumped or counted and nothing is
    reported. *)
Theorem fatal_snapshot_ends_the_loop
    (cfg : Config) (st : LoopState) (e : Env) (rest : list Env) (rows : Rows) :
  env_db e procList = inr rows ->
  (forall err,
      Columns rows = inl err ->
      profile_loop cfg st (e :: rest)
      = (with_log st (close_rows rows (logged st)), Crashed err))
  /\ (forall cs,
         Columns rows = inr cs -> length cs <> 8%nat -> length cs <> 9%nat ->
         exists line,
           profile_loop cfg st (e :: rest)
           = (with_log st (logged st ++ [line]), Killed 1)).
Proof.
  intros Hq. split.
  - intros err Hc. cbn [profile_loop]. unfold iteration, processList.
    rewrite Hq, Hc. reflexivity.
  - intros cs Hc H8 H9. eexists. cbn [profile_loop]. unfold iteration, processList.
    rewrite Hq, Hc.
    destruct (Nat.eqb_spec (length cs) 8); [contradiction|].
    destruct (Nat.eqb_spec (length cs) 9); [contradiction|].
    reflexivity.
Qed.

End Fatal.

Lemma fatal_snapshot_ends_the_loop_witness :
  profile_loop (rt := merge_runtime) sample_cfg (profile_init sample_cfg sound_writer)
    [{| env_db := fun _ => inr {| Columns := inl "bad connection";
                                 scans := [sample_row (Some "SELECT 1")];
                                 Close := Some "already closed" |};
        env_now := "12:00" |};
     sample_env "12:01" ["SELECT 2"]]%string
  = (with_log (profile_init sample_cfg sound_writer)
       ["Error closing rows: already closed"]%string,
     Crashed "bad connection").
Proof.
  apply (proj1 (fatal_snapshot_ends_the_loop (rt := merge_runtime) sample_cfg
                  (profile_init sample_cfg sound_writer)
                  {| env_db := fun _ => inr {| Columns := inl "bad connection";
                                               scans := [sample_row (Some "SELECT 1")];
                                               Close := Some "already closed" |};
                     env_now := "12:00" |}%string
                  [sample_env "12:01" ["SELECT 2"]]%string
                  {| Columns := inl "bad connection";
                     scans := [sample_row (Some "SELECT 1")];
                     Close := Some "already closed" |}%string eq_refl));
    reflexivity.
Defined.

(** ** Why the loop ends *)

Section Reasons.

Context `{rt : GoRuntime}.

Lemma iteration_reason (cfg : Config) (st st' : LoopState) (e : Env) (status : Status) :
  wf_summarizer (summ st) ->
  iteration cfg st e = (st', status) ->
  match status with
  | Looping =>
      match dump st with
      | Some w => exists w', dump st' = Some w' /\ (sound w -> sound w')
      | None => dump st' = None
      end
  | Stopped => exists w, dump st = Some w /\ ~ sound w
  | Crashed err => exists rows, env_db e procList = inr rows /\ Columns rows = inl err
  | Killed code =>
      code = 1
      /\ exists rows cs,
          env_db e procList = inr rows /\ Columns rows = inr cs
          /\ length cs <> 8%nat /\ length cs <> 9%nat
  end.
Proof.
  intros Hwf. unfold iteration.
  destruct (processList (env_db e) (logged st)) as [[b|err|n] log] eqn:Hp.
  - unfold round.
    assert (Hu : exists s' qs, Update (summ st) (normalizeQuery <$> b) = Returned (s', qs)).
    { destruct (summ st) as [s0|r0]; cbn [Update].
      - eexists _, _. reflexivity.
      - simpl in Hwf.
        destruct (recent_Update_returns r0 (normalizeQuery <$> b) Hwf) as (cs & -> & _).
        eexists _, _. reflexivity. }
    destruct Hu as (s' & qs & Hu). rewrite Hu.
    destruct (dump st) as [w|].
    + destruct (dump_queries w b) as [w' [err|]] eqn:Hd.
      * intros [= <- <-]. exists w. split; [reflexivity|]. intros Hs.
        destruct (dump_queries_sound b w Hs) as (w2 & Hw2 & _). congruence.
      * destruct (Int64.incr (cnt st) >=? cfg_delay cfg); intros [= <- <-];
          (exists w'; split; [reflexivity|]; intros Hs;
           destruct (dump_queries_sound b w Hs) as (w2 & Hw2 & Hs2); congruence).
    + destruct (Int64.incr (cnt st) >=? cfg_delay cfg); by intros [= <- <-].
  - intros [= <- <-]. unfold processList in Hp.
    destruct (env_db e procList) as [err0|rows]; [discriminate|].
    destruct (Columns rows) as [err0|cs] eqn:Hc.
    + injection Hp as <- _. by exists rows.
    + destruct (negb (length cs =? 8)%nat && negb (length cs =? 9)%nat); [discriminate|].
      destruct (fold_left scan_row (scans rows) ([], logged st)). discriminate.
  - intros [= <- <-]. unfold processList in Hp.
    destruct (env_db e procList) as [err0|rows]; [discriminate|].
    destruct (Columns rows) as [err0|cs] eqn:Hc; [discriminate|].
    destruct (Nat.eqb_spec (length cs) 8) as [H8|H8]; simpl in Hp.
    { destruct (fold_left scan_row (scans rows) ([], logged st)). discriminate. }
    destruct (Nat.eqb_spec (length cs) 9) as [H9|H9]; simpl in Hp.
    { destruct (fold_left scan_row (scans rows) ([], logged st)). discriminate. }
    injection Hp as <- _. split; [reflexivity|]. by exists rows, cs.
Qed.

Lemma profile_loop_reason (cfg : Config) (envs : list Env) :
  forall st st' status,
    wf_summarizer (summ st) ->
    match cfg_dump cfg with
    | Some w0 => exists w, dump st = Some w /\ (sound w0 -> sound w)
    | None => dump st = None
    end ->
    profile_loop cfg st envs = (st', status) ->
    ends_for_a_reason cfg envs status.
Proof.
  induction envs as [|e rest IH]; intros st st' status Hwf Hd; cbn [profile_loop].
  - by intros [= _ <-].
  - destruct (iteration cfg st e) as [st1 status1] eqn:Hit.
    pose proof (iteration_wf _ _ _ _ _ Hwf Hit) as Hwf1.
    pose proof (iteration_reason _ _ _ _ _ Hwf Hit) as Hr.
    destruct status1.
    + intros Hl.
      assert (Hd1 : match cfg_dump cfg with
                    | Some w0 => exists w, dump st1 = Some w /\ (sound w0 -> sound w)
                    | None => dump st1 = None
                    end).
      { destruct (cfg_dump cfg) as [w0|].
        - destruct Hd as (w & Hw & Hs). rewrite Hw in Hr.
          destruct Hr as (w' & Hw' & Hs'). exists w'. split; [exact Hw' | tauto].
        - by rewrite Hd in Hr. }
      pose proof (IH st1 st' status Hwf1 Hd1 Hl) as H.
      destruct status as [| |err|code]; simpl in *; [exact I | exact H | |].
      * destruct H as (e0 & rows & He0 & H). exists e0, rows.
        split; [by right | exact H].
      * destruct H as (Hc & e0 & rows & cs & He0 & H). split; [exact Hc|].
        exists e0, rows, cs. split; [by right | exact H].
    + intros [= _ <-]. simpl. destruct Hr as (w & Hw & Hns).
      destruct (cfg_dump cfg) as [w0|].
      * destruct Hd as (w1 & Hw1 & Hs). exists w0. split; [reflexivity|].
        intros Hs0. apply Hns. rewrite Hw in Hw1. injection Hw1 as ->. by apply Hs.
      * congruence.
    + intros [= _ <-]. simpl. destruct Hr as (rows & H). exists e, rows.
      split; [by left | exact H].
    + intros [= _ <-]. simpl. destruct Hr as (Hc & rows & cs & H). split; [exact Hc|].
      exists e, rows, cs. split; [by left | exact H].
Qed.

(** X12. A run of [profile] ends only for one of three reasons: a
    write to the raw dump failed (so there is a dump file, and one of
    its writes fails), the column list of a snapshot could not be read
    (the panic carries that error), or a snapshot had a column count
    other than 8 or 9 (exit code 1).  In particular [Update] never
    panics in the loop, and neither the report sink nor a failing query
    ends it. *)
Theorem profile_ends_only_for_a_reason
    (cfg : Config) (out : Writer) (envs : list Env) (st : LoopState) (status : Status) :
  profile cfg out envs = (st, status) -> ends_for_a_reason cfg envs status.
Proof.
  unfold profile. apply profile_loop_reason.
  - apply NewSummarizer_wf.
  - simpl. destruct (cfg_dump cfg) as [w0|]; [|reflexivity]. by exists w0.
Qed.

End Reasons.

Lemma profile_ends_only_for_a_reason_witness :
  ends_for_a_reason (dumping broken_writer)
    [sample_env "12:00:01" ["SELECT 1"]; sample_env "12:00:02" ["SELECT 2"]]%string
    Stopped.
Proof.
  apply (profile_ends_only_for_a_reason (rt := merge_runtime) (dumping broken_writer)
           sound_writer
           [sample_env "12:00:01" ["SELECT 1"]; sample_env "12:00:02" ["SELECT 2"]]%string
           (fst (profile (rt := merge_runtime) (dumping broken_writer) sound_writer
                   [sample_env "12:00:01" ["SELECT 1"];
                    sample_env "12:00:02" ["SELECT 2"]]%string))).
  vm_compute. reflexivity.
Defined.

(** ** A run of the loop *)

Lemma dump_queries_trail (queries : list string) :
  forall w,
    sound w ->
    exists w', dump_queries w queries = (w', None) /\ sound w'
               /\ written w' = written w ++ dump_trail queries.
Proof.
  induction queries as [|x rest IH]; intros w Hs; cbn [dump_queries].
  - exists w. by rewrite app_nil_r.
  - destruct (Write_sound w x Hs) as (w1 & Hw1 & Hx1 & Hs1). rewrite Hw1.
    destruct (Write_sound w1 newline Hs1) as (w2 & Hw2 & Hx2 & Hs2). rewrite Hw2.
    destruct (IH w2 Hs2) as (w' & Hw' & Hs' & Hx'). exists w'.
    split; [exact Hw'|]. split; [exact Hs'|].
    rewrite Hx', Hx2, Hx1. unfold dump_trail. cbn [flat_map].
    by rewrite <- !app_assoc.
Qed.

Lemma dump_trail_app (l1 l2 : list string) :
  dump_trail (l1 ++ l2) = dump_trail l1 ++ dump_trail l2.
Proof. apply flat_map_app. Qed.

Section Run.

Context `{rt : GoRuntime}.

Lemma Show_sound (s : Summarizer) (w : Writer) (n : Z) :
  sound w ->
  written (Show s w n) = written w ++ written (Show s sound_writer n)
  /\ sound (Show s w n).
Proof.
  intros Hs.
  assert (H : forall sum,
             written (showSummary w sum n)
             = written w ++ written (showSummary sound_writer sum n)
             /\ sound (showSummary w sum n)).
  { intros sum. unfold showSummary.
    destruct (show_lines_sound (sort_Sort (pair_of <$> mapRange sum)) w 0 n Hs)
      as [Hw Hs'].
    destruct (show_lines_sound (sort_Sort (pair_of <$> mapRange sum)) sound_writer 0 n)
      as [Hw0 _]; [constructor|].
    split; [|exact Hs']. by rewrite Hw, Hw0. }
  destruct s as [s0|r0]; apply H.
Qed.

Lemma round_step (cfg : Config) (st : LoopState) (now : string) (b log : list string) :
  wf_summarizer (summ st) ->
  dump_ok (dump st) ->
  exists s' qs d',
    Update (summ st) (normalizeQuery <$> b) = Returned (s', qs)
    /\ wf_summarizer s'
    /\ dump_ok d'
    /\ written <$> d' = (fun w => written w ++ dump_trail b) <$> dump st
    /\ round cfg st now b log
       = (if Int64.incr (cnt st) >=? cfg_delay cfg
          then {| summ := s'; cnt := 0; dump := d';
                  stdout := Show s' (fst (Write (stdout st) (header now))) (cfg_topN cfg);
                  logged := log |}
          else {| summ := s'; cnt := Int64.incr (cnt st); dump := d';
                  stdout := stdout st; logged := log |},
          Looping).
Proof.
  intros Hwf Hd.
  assert (Hu : exists s' qs, Update (summ st) (normalizeQuery <$> b) = Returned (s', qs)).
  { destruct (summ st) as [s0|r0]; cbn [Update].
    - eexists _, _. reflexivity.
    - simpl in Hwf.
      destruct (recent_Update_returns r0 (normalizeQuery <$> b) Hwf) as (cs & -> & _).
      eexists _, _. reflexivity. }
  destruct Hu as (s' & qs & Hu). exists s', qs.
  pose proof (Update_wf _ _ _ _ Hwf Hu) as Hwf'.
  unfold round. rewrite Hu. destruct (dump st) as [w|].
  - destruct (dump_queries_trail b w Hd) as (w' & Hw & Hs' & Hx). rewrite Hw.
    exists (Some w'). repeat split; try assumption.
    + simpl. by rewrite Hx.
    + destruct (Int64.incr (cnt st) >=? cfg_delay cfg); reflexivity.
  - exists None. repeat split; try assumption.
    destruct (Int64.incr (cnt st) >=? cfg_delay cfg); reflexivity.
Qed.

Lemma loop_run (cfg : Config) (d : Z) :
  Int64.in_range (cfg_delay cfg) ->
  d = Z.max 1 (cfg_delay cfg) ->
  forall envs bs st,
    snapshots_return envs bs ->
    wf_summarizer (summ st) ->
    dump_ok (dump st) ->
    sound (stdout st) ->
    0 <= cnt st < d ->
    exists st' reports,
      profile_loop cfg st envs = (st', Looping)
      /\ updates (summ st) (normalized bs) = Returned (summ st')
      /\ written <$> dump st'
         = (fun w => written w ++ dump_trail (concat bs)) <$> dump st
      /\ cnt st' = (cnt st + Z.of_nat (length envs)) mod d
      /\ written (stdout st') = written (stdout st) ++ concat reports
      /\ Z.of_nat (length reports) = (cnt st + Z.of_nat (length envs)) / d
      /\ forall i r,
          reports !! i = Some r ->
          exists e s,
            envs !! Z.to_nat ((Z.of_nat i + 1) * d - 1 - cnt st) = Some e
            /\ updates (summ st)
                 (take (S (Z.to_nat ((Z.of_nat i + 1) * d - 1 - cnt st))) (normalized bs))
               = Returned s
            /\ r = report_of s (env_now e) (cfg_topN cfg).
Proof.
  intros Hrange Hd envs bs st Hsnap. revert st.
  induction Hsnap as [|e b envs bs Hb Hsnap IH]; intros st Hwf Hdump Hout Hcnt.
  - exists st, []. cbn [profile_loop updates normalized fmap list_fmap concat length].
    rewrite Z.add_0_r, Z.mod_small, Z.div_small by lia.
    repeat split; try reflexivity.
    + destruct (dump st); simpl; [|reflexivity]. unfold dump_trail. simpl.
      by rewrite app_nil_r.
    + by rewrite app_nil_r.
    + intros i r Hi. discriminate.
  - cbn [profile_loop]. rewrite (iteration_returned cfg st e b Hb).
    destruct (round_step cfg st (env_now e) b
                (snd (processList (env_db e) (logged st))) Hwf Hdump)
      as (s1 & qs & d1 & Hu & Hwf1 & Hd1 & Htr & ->).
    assert (Hincr : Int64.incr (cnt st) = cnt st + 1).
    { unfold Int64.incr, Int64.add. apply wrap64_small.
      unfold Int64.in_range, Int64.half in *. lia. }
    rewrite Hincr.
    assert (Hnorm : normalized (b :: bs) = (normalizeQuery <$> b) :: normalized bs)
      by reflexivity.
    assert (Htrail : forall st' : LoopState,
               written <$> dump st'
               = (fun w => written w ++ dump_trail (concat bs)) <$> d1 ->
               written <$> dump st'
               = (fun w => written w ++ dump_trail (concat (b :: bs))) <$> dump st).
    { intros st' H. rewrite H. cbn [concat]. rewrite dump_trail_app.
      destruct d1 as [w1|], (dump st) as [w|]; simpl in *; try discriminate;
        [|reflexivity].
      injection Htr as ->. by rewrite app_assoc. }
    destruct (Z.geb_spec (cnt st + 1) (cfg_delay cfg)) as [Hge|Hlt].
    + assert (Hfull : cnt st + 1 = d) by lia.
      destruct (Write_sound (stdout st) (header (env_now e)) Hout)
        as (out1 & Hw1 & Hx1 & Hs1).
      destruct (Show_sound s1 out1 (cfg_topN cfg) Hs1) as [Hx2 Hs2].
      rewrite Hw1. cbn [fst].
      destruct (IH {| summ := s1; cnt := 0; dump := d1;
                      stdout := Show s1 out1 (cfg_topN cfg);
                      logged := snd (processList (env_db e) (logged st)) |})
        as (st' & reports & Hloop & Hup & Htr' & Hc' & Hx' & Hlen & Hrep);
        [exact Hwf1 | exact Hd1 | exact Hs2 | simpl; lia |].
      cbn [summ cnt dump stdout] in *.
      exists st', (report_of s1 (env_now e) (cfg_topN cfg) :: reports).
      split; [exact Hloop|]. split; [by rewrite Hnorm; cbn [updates]; rewrite Hu|].
      split; [by apply Htrail|].
      cbn [length]. rewrite Nat2Z.inj_succ.
      replace (cnt st + Z.succ (Z.of_nat (length envs)))
        with (Z.of_nat (length envs) + 1 * d) by lia.
      rewrite Z_mod_plus_full, Z_div_plus_full by lia.
      rewrite Z.add_0_l in Hc', Hlen.
      split; [exact Hc'|]. split.
      { rewrite Hx', Hx2, Hx1. cbn [concat]. unfold report_of.
        by rewrite <- !app_assoc. }
      split; [rewrite Nat2Z.inj_succ; lia|].
      intros [|i] r Hi.
      * injection Hi as <-. exists e, s1.
        replace (Z.to_nat ((Z.of_nat 0 + 1) * d - 1 - cnt st)) with 0%nat by lia.
        split; [reflexivity|]. split; [|reflexivity].
        rewrite Hnorm. cbn [take updates]. rewrite Hu. by rewrite take_0.
      * destruct (Hrep i r Hi) as (e' & s & He' & Hs & ->). exists e', s.
        replace (Z.to_nat ((Z.of_nat (S i) + 1) * d - 1 - cnt st))
          with (S (Z.to_nat ((Z.of_nat i + 1) * d - 1 - 0))) by nia.
        split; [exact He'|]. split; [|reflexivity].
        rewrite Hnorm. cbn [take updates]. rewrite Hu. exact Hs.
    + destruct (IH {| summ := s1; cnt := cnt st + 1; dump := d1;
                      stdout := stdout st;
                      logged := snd (processList (env_db e) (logged st)) |})
        as (st' & reports & Hloop & Hup & Htr' & Hc' & Hx' & Hlen & Hrep);
        [exact Hwf1 | exact Hd1 | exact Hout | simpl; lia |].
      cbn [summ cnt dump stdout] in *.
      exists st', reports.
      split; [exact Hloop|]. split; [by rewrite Hnorm; cbn [updates]; rewrite Hu|].
      split; [by apply Htrail|].
      cbn [length]. rewrite Nat2Z.inj_succ.
      replace (cnt st + Z.succ (Z.of_nat (length envs)))
        with (cnt st + 1 + Z.of_nat (length envs)) by lia.
      split; [exact Hc'|]. split; [exact Hx'|]. split; [exact Hlen|].
      intros i r Hi.
      destruct (Hrep i r Hi) as (e' & s & He' & Hs & ->). exists e', s.
      replace (Z.to_nat ((Z.of_nat i + 1) * d - 1 - cnt st))
        with (S (Z.to_nat ((Z.of_nat i + 1) * d - 1 - (cnt st + 1)))) by nia.
      split; [exact He'|]. split; [|reflexivity].
      rewrite Hnorm. cbn [take updates]. rewrite Hu. exact Hs.
Qed.

(** X13. The reports of a run.  With a cadence [d] (the [delay], or 1
    when the [delay] is below 1), snapshots that all return and sinks
    that take every write, [k] rounds leave the counter at [k mod d]
    and have written [k / d] reports and nothing else on the report
    sink.  The report of index [i] is written in round [(i+1) * d]: its
    header carries the time of that round, and its lines are those
    [Show] gives for the summarizer after the updates of the first
    [(i+1) * d] batches, normalized. *)
Theorem reports_follow_the_cadence
    (cfg : Config) (out : Writer) (envs : list Env) (bs : list (list string)) :
  Int64.in_range (cfg_delay cfg) ->
  dump_ok (cfg_dump cfg) ->
  sound out ->
  snapshots_return envs bs ->
  exists st reports,
    profile cfg out envs = (st, Looping)
    /\ cnt st = Z.of_nat (length envs) mod Z.max 1 (cfg_delay cfg)
    /\ written (stdout st) = written out ++ concat reports
    /\ Z.of_nat (length reports) = Z.of_nat (length envs) / Z.max 1 (cfg_delay cfg)
    /\ forall i r,
        reports !! i = Some r ->
        exists e s,
          envs !! Z.to_nat ((Z.of_nat i + 1) * Z.max 1 (cfg_delay cfg) - 1) = Some e
          /\ updates (NewSummarizer (cfg_last cfg))
               (take (Z.to_nat ((Z.of_nat i + 1) * Z.max 1 (cfg_delay cfg)))
                  (normalized bs))
             = Returned s
          /\ r = report_of s (env_now e) (cfg_topN cfg).
Proof.
  intros Hrange Hdump Hout Hsnap.
  destruct (loop_run cfg (Z.max 1 (cfg_delay cfg)) Hrange eq_refl envs bs
              (profile_init cfg out) Hsnap)
    as (st & reports & Hloop & _ & _ & Hc & Hx & Hlen & Hrep);
    [apply NewSummarizer_wf | exact Hdump | exact Hout | simpl; lia |].
  cbn [profile_init summ cnt dump stdout] in *. rewrite Z.add_0_l in *.
  exists st, reports. split; [exact Hloop|]. split; [exact Hc|].
  split; [exact Hx|]. split; [exact Hlen|].
  intros i r Hi. destruct (Hrep i r Hi) as (e & s & He & Hs & ->).
  rewrite Z.sub_0_r in *. exists e, s. split; [exact He|]. split; [|reflexivity].
  replace (Z.to_nat ((Z.of_nat i + 1) * Z.max 1 (cfg_delay cfg)))
    with (S (Z.to_nat ((Z.of_nat i + 1) * Z.max 1 (cfg_delay cfg) - 1))) by nia.
  exact Hs.
Qed.

(** X14. The raw dump and the summarizer over a run.  With snapshots
    that all return and a dump file that takes every write, the dump
    receives the statements of all the batches in order, as they came
    from the process list and before normalization, each followed by a
    line feed; the summarizer is the one [NewSummarizer] built, updated
    with the normalized batches in order.  Without a dump file nothing
    is dumped. *)
Theorem dump_is_raw_and_counts_are_normalized
    (cfg : Config) (out : Writer) (envs : list Env) (bs : list (list string)) :
  Int64.in_range (cfg_delay cfg) ->
  dump_ok (cfg_dump cfg) ->
  sound out ->
  snapshots_return envs bs ->
  exists st,
    profile cfg out envs = (st, Looping)
    /\ updates (NewSummarizer (cfg_last cfg)) (normalized bs) = Returned (summ st)
    /\ written <$> dump st
       = (fun w => written w ++ dump_trail (concat bs)) <$> cfg_dump cfg.
Proof.
  intros Hrange Hdump Hout Hsnap.
  destruct (loop_run cfg (Z.max 1 (cfg_delay cfg)) Hrange eq_refl envs bs
              (profile_init cfg out) Hsnap)
    as (st & reports & Hloop & Hup & Htr & _);
    [apply NewSummarizer_wf | exact Hdump | exact Hout | simpl; lia |].
  exists st. split; [exact Hloop|]. split; [exact Hup | exact Htr].
Qed.

End Run.

Lemma reports_follow_the_cadence_witness :
  exists st reports,
    profile (rt := merge_runtime) cadence_two sound_writer
      [sample_env "12:00:01" ["SELECT 1"]; sample_env "12:00:02" ["SELECT 2"];
       sample_env "12:00:03" ["COMMIT"]]%string = (st, Looping)
    /\ cnt st = 1
    /\ written (stdout st) = concat reports
    /\ Z.of_nat (length reports) = 1.
Proof.
  destruct (reports_follow_the_cadence (rt := merge_runtime) cadence_two sound_writer
              [sample_env "12:00:01" ["SELECT 1"]; sample_env "12:00:02" ["SELECT 2"];
               sample_env "12:00:03" ["COMMIT"]]%string
              [["SELECT 1"]; ["SELECT 2"]; ["COMMIT"]]%string)
    as (st & reports & H1 & H2 & H3 & H4 & _).
  - unfold Int64.in_range, Int64.half. simpl. lia.
  - exact I.
  - constructor.
  - repeat constructor.
  - exists st, reports. split; [exact H1|]. split; [exact H2|].
    split; [exact H3 | exact H4].
Defined.

Lemma dump_is_raw_and_counts_are_normalized_witness :
  exists st,
    profile (rt := merge_runtime) (dumping sound_writer) sound_writer
      [sample_env "12:00:01" ["SELECT 1"; "SELECT 2"]; sample_env "12:00:02" ["COMMIT"]]%string
    = (st, Looping)
    /\ updates (NewSummarizer 0)
         [["SELECT N"; "SELECT N"]; ["COMMIT"]]%string = Returned (summ st)
    /\ written <$> dump st
       = Some ["SELECT 1"; newline; "SELECT 2"; newline; "COMMIT"; newline]%string.
Proof.
  apply (dump_is_raw_and_counts_are_normalized (rt := merge_runtime)
           (dumping sound_writer) sound_writer
           [sample_env "12:00:01" ["SELECT 1"; "SELECT 2"];
            sample_env "12:00:02" ["COMMIT"]]%string
           [["SELECT 1"; "SELECT 2"]; ["COMMIT"]]%string).
  - unfold Int64.in_range, Int64.half. simpl. lia.
  - constructor.
  - constructor.
  - repeat constructor.
Defined.

(** ** The normalizer never lengthens a statement *)

Lemma matches_minlen (r : regex) :
  forall prev s m,
    m ∈ matches r prev s -> (length (snd m) + minlen r <= length s)%nat.
Proof.
  induction r as [|neg ranges| |r1 IH1 r2 IH2|r1 IH1 r2 IH2|r1 IH1]; intros prev s m Hm.
  - cbn [matches] in Hm. apply list_elem_of_singleton in Hm. subst m. simpl. lia.
  - cbn [matches] in Hm. destruct s as [|a s']; [by apply elem_of_nil in Hm|].
    destruct (in_class neg ranges a); [|by apply elem_of_nil in Hm].
    apply list_elem_of_singleton in Hm. subst m. simpl. lia.
  - rewrite matches_WordB in Hm.
    destruct (at_word_boundary prev s); [|by apply elem_of_nil in Hm].
    apply list_elem_of_singleton in Hm. subst m. simpl. lia.
  - rewrite matches_Cat in Hm. apply elem_of_flat_map in Hm as (m1 & H1 & H2).
    specialize (IH1 _ _ _ H1). specialize (IH2 _ _ _ H2). cbn [minlen]. lia.
  - rewrite matches_Alt in Hm. cbn [minlen].
    apply elem_of_app in Hm as [H|H]; [specialize (IH1 _ _ _ H) | specialize (IH2 _ _ _ H)];
      lia.
  - pose proof (matches_length _ _ _ _ Hm). cbn [minlen]. lia.
Qed.

Lemma replaceAll_go_length (re : regex) (subs : list ascii) :
  (length subs <= minlen re)%nat ->
  forall fuel prev am s,
    (length (replaceAll_go fuel re subs prev am s) <= length s)%nat.
Proof.
  intros Hsub. induction fuel as [|f IH]; intros prev am s; [reflexivity|].
  cbn [replaceAll_go].
  assert (Hcopy : (length match s with
                          | [] => []
                          | c0 :: s' => c0 :: replaceAll_go f re subs (Some c0) false s'
                          end <= length s)%nat).
  { destruct s as [|c0 s']; [reflexivity|]. simpl.
    specialize (IH (Some c0) false s'). lia. }
  destruct (match_here re prev s) as [[p rest]|] eqn:Hm; [|exact Hcopy].
  apply match_here_elem, matches_minlen in Hm. cbn [snd] in Hm.
  destruct (Nat.ltb_spec (length rest) (length s)) as [Hlt|Hge].
  - rewrite length_app. specialize (IH p true rest). lia.
  - assert (subs = []) by (destruct subs; [reflexivity | simpl in Hsub; lia]).
    subst subs. destruct am; exact Hcopy.
Qed.

Lemma String_length_L (s : string) : String.length s = length (list_ascii_of_string s).
Proof. induction s as [|a s IH]; [reflexivity|]. simpl. by rewrite IH. Qed.

Lemma Normalize_length (p : NormalizePattern) (s : string) :
  (length (list_ascii_of_string (subs p)) <= minlen (re p))%nat ->
  (String.length (Normalize p s) <= String.length s)%nat.
Proof.
  intros Hp. rewrite !String_length_L, L_Normalize. by apply replaceAll_go_length.
Qed.

Lemma rules_shrink :
  Forall (fun p => (length (list_ascii_of_string (subs p)) <= minlen (re p))%nat)
    normalizePatterns.
Proof. repeat constructor; vm_compute; lia. Qed.

(** X15. No rule of the table lengthens a statement: each replacement
    is at most as long as the shortest text its pattern matches.  So
    the normalized statement is never longer than the statement. *)
Theorem normalizeQuery_never_lengthens (s : string) :
  (String.length (normalizeQuery s) <= String.length s)%nat
  /\ forall p, p ∈ normalizePatterns ->
               (String.length (Normalize p s) <= String.length s)%nat.
Proof.
  split.
  - unfold normalizeQuery. generalize rules_shrink. generalize normalizePatterns.
    intros ps. revert s. induction ps as [|p ps IH]; intros s Hps; [reflexivity|].
    apply Forall_cons in Hps as [Hp Hps]. cbn [fold_left].
    specialize (IH (Normalize p s) Hps).
    pose proof (Normalize_length p s Hp). lia.
  - intros p Hp. apply Normalize_length.
    pose proof rules_shrink as H. rewrite Forall_forall in H. apply H, Hp.
Qed.

Lemma normalizeQuery_never_lengthens_witness :
  (String.length (Normalize hexadecimal "id = 0x1f") <= String.length "id = 0x1f")%nat.
Proof.
  apply (proj2 (normalizeQuery_never_lengthens "id = 0x1f") hexadecimal).
  apply list_elem_of_lookup. by exists 2%nat.
Defined.

(** ** The first and the last rule *)

Lemma spaces_unspaced (fuel : nat) :
  forall prev am s,
    (length s < fuel)%nat ->
    unspaced (replaceAll_go fuel (re spaces) [sp] prev am s) = unspaced s.
Proof.
  induction fuel as [|f IH]; intros prev am s Hf; [lia|]. cbn [replaceAll_go].
  destruct s as [|a s']; [reflexivity|]. simpl in Hf.
  destruct (decide (a = sp)) as [->|Hne].
  - destruct (span_class (in_class false [(sp, sp)]) s') as (run & z & -> & Hrun & Hz).
    destruct (plus_class_greedy false [(sp, sp)] sp run z prev) as (p' & others & Hm);
      [reflexivity | exact Hrun | exact Hz |].
    unfold match_here. change (re spaces) with (Plus (Class false [(sp, sp)])).
    rewrite Hm. cbn [head].
    destruct (Nat.ltb_spec (length z) (length (sp :: run ++ z))) as [_|Hge];
      [|simpl in Hge; rewrite length_app in Hge; lia].
    unfold unspaced in *. cbn [app]. rewrite filter_cons_False by (intros H; by apply H).
    rewrite IH by (rewrite length_app in Hf; lia).
    rewrite filter_cons_False by (intros H; by apply H).
    rewrite filter_app.
    replace (filter (fun a => a <> sp) run) with (@nil ascii); [reflexivity|].
    symmetry. clear -Hrun. induction run as [|b run IH]; [reflexivity|].
    rewrite filter_cons_False.
    + apply IH. intros a Ha. apply Hrun. by right.
    + intros H. apply H. apply in_class_Chr, Hrun. by left.
  - pose proof (spaces_match_here prev (a :: s')) as H. cbn beta iota in H.
    rewrite decide_False in H by exact Hne. rewrite H.
    unfold unspaced in *. rewrite !filter_cons_True by exact Hne. f_equal.
    apply IH. lia.
Qed.

(** X16. The first rule, on any statement: the result has no two spaces
    in a row, the bytes other than spaces are kept in their order, the
    rule changes nothing more when applied again, and it leaves a
    statement as it is exactly when the statement has no two spaces in
    a row. *)
Theorem spaces_rule_collapses_runs (s : string) :
  single_spaced (list_ascii_of_string (Normalize spaces s))
  /\ unspaced (list_ascii_of_string (Normalize spaces s))
     = unspaced (list_ascii_of_string s)
  /\ Normalize spaces (Normalize spaces s) = Normalize spaces s
  /\ (Normalize spaces s = s <-> single_spaced (list_ascii_of_string s)).
Proof.
  assert (H1 : single_spaced (list_ascii_of_string (Normalize spaces s))).
  { rewrite L_Normalize. apply spaces_single_spaced. lia. }
  split; [exact H1|]. split; [|split].
  - rewrite L_Normalize. apply spaces_unspaced. lia.
  - apply Normalize_spaces_fixed, H1.
  - split; [|apply Normalize_spaces_fixed]. intros Heq. rewrite <- Heq. exact H1.
Qed.

Lemma spaces_rule_collapses_runs_witness :
  Normalize spaces "SELECT a FROM t" = "SELECT a FROM t"%string.
Proof.
  apply (proj2 (proj2 (proj2 (proj2 (spaces_rule_collapses_runs "SELECT a FROM t"))))).
  vm_compute. repeat split; discriminate.
Defined.

Lemma quiet_occurs_from (r : regex) (t : list ascii) :
  quiet r t -> forall prev, occurs_from r prev t = false.
Proof.
  induction t as [|a t IH]; intros [Hq Ht] prev; cbn [occurs_from];
    unfold match_here; rewrite Hq; [reflexivity|]. cbn [head]. by apply IH.
Qed.

(** X17. The last rule, on any statement: after it no run of four or
    more list items is left, and the rule changes nothing more when
    applied again. *)
Theorem long_list_rule_settles (s : string) :
  occurs (re long_list) (Normalize long_list s) = false
  /\ Normalize long_list (Normalize long_list s) = Normalize long_list s.
Proof.
  split.
  - unfold occurs. rewrite L_Normalize. apply quiet_occurs_from.
    apply (replaceAll_go_settles (fun d => d = "."%char) (re long_list)
             (list_ascii_of_string (subs long_list)));
      [reflexivity | reflexivity | by intros d -> | repeat constructor | discriminate | lia].
  - unfold Normalize at 1 3, ReplaceAllString. f_equal. rewrite L_Normalize.
    apply (replaceAll_idem (fun d => d = "."%char));
      [reflexivity | reflexivity | by intros d -> | repeat constructor | discriminate].
Qed.

(** X18. On a statement with no quote, no comma and no digit outside a
    word, only the first rule acts: the normalized statement is the
    statement with its runs of spaces collapsed. *)
Theorem normalizeQuery_only_collapses_spaces (x : string) :
  wordy x ->
  ~ holds x ","%char ->
  normalizeQuery x = Normalize spaces x.
Proof.
  intros Hw Hc.
  rewrite <- (string_of_list_ascii_of_string (normalizeQuery x)).
  rewrite <- (string_of_list_ascii_of_string (Normalize spaces x)). f_equal.
  rewrite (normalizeQuery_wordy x Hw), L_Normalize.
  apply (replaceAll_needs (fun a => Ascii.eqb a ","%char)); [reflexivity|].
  intros a Ha. apply replaceAll_go_elem in Ha as [Ha|Ha].
  - destruct (Ascii.eqb_spec a ","%char) as [->|]; [contradiction | reflexivity].
  - apply list_elem_of_singleton in Ha. by subst a.
Qed.

Lemma normalizeQuery_only_collapses_spaces_witness :
  normalizeQuery "SELECT  a1 FROM t2   WHERE b IS NULL"
  = Normalize spaces "SELECT  a1 FROM t2   WHERE b IS NULL".
Proof.
  apply (normalizeQuery_only_collapses_spaces "SELECT  a1 FROM t2   WHERE b IS NULL").
  - vm_compute. repeat split; discriminate.
  - intros H. absent_in H.
Defined.

(** ** Integer literals *)

Lemma sign_facts (a : ascii) : is_sign a = true -> is_digit a = false /\ is_word a = false.
Proof.
  intros H.
  pose proof (byte_forall
    (fun a => implb (is_sign a) (negb (is_digit a) && negb (is_word a))) eq_refl a) as Hb.
  cbv beta in Hb. rewrite H in Hb. cbn [implb] in Hb.
  apply andb_true_iff in Hb as [H1 H2]. by apply negb_true_iff in H1, H2.
Qed.

Lemma nonword_nondigit (a : ascii) : is_word a = false -> is_digit a = false.
Proof.
  intros H. destruct (is_digit a) eqn:Hd; [|reflexivity].
  rewrite (digit_is_word a Hd) in H. discriminate.
Qed.

Lemma bounded_digits_match (p : option ascii) (d : ascii) (run z : list ascii) :
  is_word_opt p = false ->
  is_digit d = true ->
  (forall a, a ∈ run -> is_digit a = true) ->
  match head z with Some a => is_word a = false | None => True end ->
  exists p' others,
    matches (Cat WordB (Cat (Plus digit) WordB)) p (d :: run ++ z) = (p', z) :: others.
Proof.
  intros Hp Hd Hrun Hz. rewrite matches_Cat, matches_WordB.
  unfold at_word_boundary at 1. cbn [head is_word_opt].
  rewrite Hp, (digit_is_word d Hd). cbn [xorb flat_map fst snd].
  rewrite app_nil_r, matches_Cat.
  destruct (plus_class_greedy false [("0", "9")]%char d run z p Hd Hrun)
    as (p' & others & Hm).
  { destruct (head z) as [a|]; [|exact I]. by apply nonword_nondigit. }
  unfold digit. rewrite Hm. cbn [flat_map fst snd]. rewrite matches_WordB.
  assert (Hp' : is_word_opt p' = true).
  { assert (Hin : (p', z) ∈ matches (Plus (Class false [("0", "9")]%char)) p
                                (d :: run ++ z)) by (rewrite Hm; left).
    apply matches_consumed in Hin as (w & Hw & Hfst). cbn [fst snd] in Hw, Hfst.
    change (d :: run ++ z) with ((d :: run) ++ z) in Hw.
    apply app_inv_tail in Hw. subst w. rewrite Hfst. unfold last_or.
    destruct (last (d :: run)) as [b|] eqn:Hl.
    - apply last_Some in Hl as (l' & Hl'). cbn [is_word_opt]. apply digit_is_word.
      assert (Hb : b ∈ d :: run) by (rewrite Hl'; apply elem_of_app; right; left).
      apply elem_of_cons in Hb as [->|Hb]; [exact Hd | by apply Hrun].
    - apply last_None in Hl. discriminate. }
  unfold at_word_boundary. rewrite Hp'.
  destruct (head z) as [a|]; cbn [is_word_opt]; [rewrite Hz|];
    cbn [xorb app]; eexists _, _; reflexivity.
Qed.

Lemma integer_match (p : option ascii) (sgl : list ascii) (d : ascii)
    (run z : list ascii) :
  (sgl = [] /\ is_word_opt p = false) \/ (exists sg, sgl = [sg] /\ is_sign sg = true) ->
  is_digit d = true ->
  (forall a, a ∈ run -> is_digit a = true) ->
  match head z with Some a => is_word a = false | None => True end ->
  exists p', match_here (re integer) p (sgl ++ d :: run ++ z) = Some (p', z).
Proof.
  intros Hsg Hd Hrun Hz. unfold match_here.
  change (re integer)
    with (Cat (Alt (Class false [("+", "+"); ("-", "-")]%char) Eps)
            (Cat WordB (Cat (Plus digit) WordB))).
  rewrite matches_Cat, matches_Alt, flat_map_app.
  destruct Hsg as [[-> Hp]|(sg & -> & Hsg)]; cbn [app].
  - assert (Hns : in_class false [("+", "+"); ("-", "-")]%char d = false).
    { destruct (in_class false [("+", "+"); ("-", "-")]%char d) eqn:Hs; [|reflexivity].
      apply sign_facts in Hs as [Hs _]. congruence. }
    assert (Hcl : matches (Class false [("+", "+"); ("-", "-")]%char) p (d :: run ++ z)
                  = []) by (cbn [matches]; by rewrite Hns).
    rewrite Hcl. change (matches Eps p (d :: run ++ z)) with [(p, d :: run ++ z)].
    cbn [flat_map fst snd app].
    destruct (bounded_digits_match p d run z Hp Hd Hrun Hz) as (p' & others & ->).
    by exists p'.
  - assert (Hcl : matches (Class false [("+", "+"); ("-", "-")]%char) p
                    (sg :: d :: run ++ z)
                  = [(Some sg, d :: run ++ z)]).
    { cbn [matches]. unfold is_sign in Hsg. by rewrite Hsg. }
    rewrite Hcl. cbn [flat_map fst snd].
    destruct (bounded_digits_match (Some sg) d run z) as (p' & others & ->);
      [by apply sign_facts | exact Hd | exact Hrun | exact Hz|].
    by exists p'.
Qed.

Lemma integer_none (p : option ascii) (a : ascii) (s : list ascii) :
  is_digit a = false ->
  (is_sign a = true ->
   match head s with Some b => is_digit b = false | None => True end) ->
  matches (re integer) p (a :: s) = [].
Proof.
  intros Ha Hs.
  change (re integer)
    with (Cat (Alt (Class false [("+", "+"); ("-", "-")]%char) Eps)
            (Cat WordB (Cat (Plus digit) WordB))).
  rewrite matches_Cat, matches_Alt, flat_map_app.
  change (matches Eps p (a :: s)) with [(p, a :: s)]. cbn [flat_map fst snd].
  rewrite (bounded_digits_none p (a :: s)) by (intros d [= ->] Hd; congruence).
  rewrite app_nil_r.
  destruct (in_class false [("+", "+"); ("-", "-")]%char a) eqn:Hsg.
  - assert (Hcl : matches (Class false [("+", "+"); ("-", "-")]%char) p (a :: s)
                  = [(Some a, s)]) by (cbn [matches]; by rewrite Hsg).
    rewrite Hcl. cbn [flat_map fst snd]. rewrite bounded_digits_none; [reflexivity|].
    intros d Hd Hdig. specialize (Hs Hsg). rewrite Hd in Hs. congruence.
  - assert (Hcl : matches (Class false [("+", "+"); ("-", "-")]%char) p (a :: s) = [])
      by (cbn [matches]; by rewrite Hsg).
    by rewrite Hcl.
Qed.

Lemma integer_skips (p : option ascii) (a : ascii) (s : list ascii) :
  is_digit a = false ->
  (is_sign a = true ->
   match head s with Some b => is_digit b = false | None => True end) ->
  match_here (re integer) p (a :: s) = None.
Proof. intros Ha Hs. unfold match_here. by rewrite integer_none. Qed.

Lemma replaceAll_integer (subs sgl : list ascii) (d : ascii) (run y : list ascii) :
  (sgl = [] \/ exists sg, sgl = [sg] /\ is_sign sg = true) ->
  is_digit d = true ->
  (forall a, a ∈ run -> is_digit a = true) ->
  (forall a, a ∈ y -> is_digit a = false) ->
  match head y with Some a => is_word a = false | None => True end ->
  forall x fuel prev am,
    (forall a, a ∈ x -> is_digit a = false) ->
    (sgl = [] ->
     match last x with
     | Some a => is_word a = false /\ is_sign a = false
     | None => is_word_opt prev = false
     end) ->
    (length (x ++ sgl ++ d :: run ++ y) < fuel)%nat ->
    replaceAll_go fuel (re integer) subs prev am (x ++ sgl ++ d :: run ++ y)
    = x ++ subs ++ y.
Proof.
  intros Hsgl Hd Hrun Hy Hy0.
  induction x as [|a x IH]; intros fuel prev am Hx Hlast Hf;
    (destruct fuel as [|f]; [lia|]); cbn [app replaceAll_go].
  - destruct (integer_match prev sgl d run y) as (p' & Hm);
      [destruct Hsgl as [->|H]; [left; split; [reflexivity | by apply Hlast] | by right]
      | exact Hd | exact Hrun | exact Hy0 |].
    rewrite Hm.
    destruct (Nat.ltb_spec (length y) (length (sgl ++ d :: run ++ y))) as [_|Hge];
      [|rewrite !length_app in Hge; simpl in Hge; rewrite length_app in Hge; lia].
    f_equal. apply replaceAll_go_quiet. by apply (needs_quiet is_digit).
  - assert (Ha : is_digit a = false) by (apply Hx; left).
    rewrite integer_skips; [| exact Ha |].
    + f_equal. apply IH.
      * intros b Hb. apply Hx. by right.
      * intros Hs. specialize (Hlast Hs). destruct x as [|b x'].
        -- cbn [last is_word_opt] in *. tauto.
        -- change (last (a :: b :: x')) with (last (b :: x')) in Hlast.
           destruct (last (b :: x')) eqn:Hl; [exact Hlast|].
           apply last_None in Hl. discriminate.
      * simpl in Hf. lia.
    + intros Hsa. destruct x as [|b x']; cbn [app head].
      * destruct Hsgl as [->|(sg & -> & Hsg)]; cbn [app head].
        -- specialize (Hlast eq_refl). cbn [last] in Hlast. destruct Hlast. congruence.
        -- by apply sign_facts.
      * apply Hx. right. left.
Qed.

Lemma Normalize_integer_literal (pre sg ds post : string) :
  (forall a, holds pre a -> is_digit a = false) ->
  (forall a, holds post a -> is_digit a = false) ->
  digits ds ->
  starts_open post ->
  (sg = ""%string /\ ends_open pre) \/ sg = "+"%string \/ sg = "-"%string ->
  Normalize integer (pre +:+ sg +:+ ds +:+ post) = (pre +:+ "N" +:+ post)%string.
Proof.
  intros Hpre Hpost [Hne Hds] Hso Hsg.
  unfold Normalize, ReplaceAllString. rewrite !L_app.
  destruct (list_ascii_of_string ds) as [|d run] eqn:Hl.
  { destruct ds; [contradiction | discriminate]. }
  assert (Hdr : forall a, a ∈ d :: run -> is_digit a = true).
  { intros a Ha. apply Hds. unfold holds. by rewrite Hl. }
  unfold replaceAll. cbn [app].
  rewrite (replaceAll_integer (list_ascii_of_string (subs integer))
             (list_ascii_of_string sg) d run (list_ascii_of_string post)).
  - rewrite !string_of_list_app, !string_of_list_ascii_of_string. reflexivity.
  - destruct Hsg as [[-> _]|[->| ->]]; [by left | right | right];
      eexists; split; reflexivity.
  - apply Hdr. left.
  - intros a Ha. apply Hdr. by right.
  - exact Hpost.
  - exact Hso.
  - exact Hpre.
  - intros Hs. destruct Hsg as [[_ Ho]|[->| ->]]; [|discriminate|discriminate].
    unfold ends_open in Ho. by destruct (last (list_ascii_of_string pre)).
  - lia.
Qed.

Lemma tame_not_wild (a : ascii) : tame_byte a = true -> wild_byte a = false.
Proof. unfold wild_byte. by intros ->. Qed.

(** X19. An integer literal between plain text becomes [N].  The text
    before and after holds no digit, quote, backslash or comma and the
    statement has no two spaces in a row; the literal is a run of
    digits that is followed by no word byte.  Without a sign it must
    not directly follow a word byte or a sign; a sign [+] or [-]
    directly before the digits is taken into the literal, whatever
    comes before it, so that [a-5] becomes [aN]. *)
Theorem integer_literal_becomes_N (pre sg ds post : string) :
  tame pre -> tame post ->
  digits ds ->
  starts_open post ->
  (sg = ""%string /\ ends_open pre) \/ sg = "+"%string \/ sg = "-"%string ->
  single_spaced (list_ascii_of_string (pre +:+ sg +:+ ds +:+ post)) ->
  normalizeQuery (pre +:+ sg +:+ ds +:+ post) = (pre +:+ "N" +:+ post)%string.
Proof.
  intros Hpre Hpost Hds Hso Hsg Hss.
  assert (Hnd : forall s a, tame s -> holds s a -> is_digit a = false).
  { intros s a Hs Ha. apply Hs in Ha.
    pose proof (byte_forall (fun a => implb (tame_byte a) (negb (is_digit a))) eq_refl a)
      as Hb.
    cbv beta in Hb. rewrite Ha in Hb. by apply negb_true_iff in Hb. }
  assert (Hout : forall a, holds (pre +:+ "N" +:+ post) a -> wild_byte a = false).
  { intros a Ha. apply holds_app in Ha as [Ha|Ha]; [apply tame_not_wild, Hpre, Ha|].
    apply holds_String in Ha as [->|Ha]; [reflexivity|].
    apply tame_not_wild, Hpost, Ha. }
  rewrite normalizeQuery_rules.
  rewrite (Normalize_spaces_fixed _ Hss).
  rewrite (Normalize_integer_literal pre sg ds post
             (fun a => Hnd pre a Hpre) (fun a => Hnd post a Hpost) Hds Hso Hsg).
  rewrite (Normalize_needs wild_byte hexadecimal) by (reflexivity || exact Hout).
  rewrite (Normalize_needs wild_byte escaped_squote) by (reflexivity || exact Hout).
  rewrite (Normalize_needs wild_byte escaped_dquote) by (reflexivity || exact Hout).
  rewrite (Normalize_needs wild_byte squoted) by (reflexivity || exact Hout).
  rewrite (Normalize_needs wild_byte dquoted) by (reflexivity || exact Hout).
  apply (Normalize_needs wild_byte long_list); [reflexivity | exact Hout].
Qed.

Lemma integer_literal_becomes_N_witness :
  normalizeQuery ("SELECT * FROM t WHERE a = b" +:+ "-" +:+ "150" +:+ " LIMIT x")
  = ("SELECT * FROM t WHERE a = b" +:+ "N" +:+ " LIMIT x")%string.
Proof.
  apply (integer_literal_becomes_N "SELECT * FROM t WHERE a = b" "-" "150" " LIMIT x").
  - intros a Ha. each_in Ha.
  - intros a Ha. each_in Ha.
  - split; [discriminate|]. intros a Ha. each_in Ha.
  - reflexivity.
  - right. by right.
  - vm_compute. repeat split; discriminate.
Defined.

(** ** Hexadecimal literals *)

Lemma hexdigit_facts (a : ascii) :
  is_hexdigit a = true -> is_word a = true /\ is_sign a = false.
Proof.
  intros H.
  pose proof (byte_forall
    (fun a => implb (is_hexdigit a) (is_word a && negb (is_sign a))) eq_refl a) as Hb.
  cbv beta in Hb. rewrite H in Hb. cbn [implb] in Hb.
  apply andb_true_iff in Hb as [H1 H2]. by apply negb_true_iff in H2.
Qed.

Lemma bounded_zero_x (p : option ascii) (rest : list ascii) :
  matches (Cat WordB (Cat (Plus digit) WordB)) p ("0" :: "x" :: rest)%char = [].
Proof.
  rewrite matches_Cat, matches_WordB.
  destruct (at_word_boundary p ("0" :: "x" :: rest)%char); reflexivity.
Qed.

Lemma integer_none_zero_x (p : option ascii) (rest : list ascii) :
  matches (re integer) p ("0" :: "x" :: rest)%char = [].
Proof.
  change (re integer)
    with (Cat (Alt (Class false [("+", "+"); ("-", "-")]%char) Eps)
            (Cat WordB (Cat (Plus digit) WordB))).
  rewrite matches_Cat, matches_Alt, flat_map_app.
  change (matches Eps p ("0" :: "x" :: rest)%char) with [(p, "0" :: "x" :: rest)%char].
  change (matches (Class false [("+", "+"); ("-", "-")]%char) p ("0" :: "x" :: rest)%char)
    with (@nil result).
  cbn [flat_map fst snd app]. by rewrite bounded_zero_x.
Qed.

Lemma integer_none_before_zero_x (p : option ascii) (a : ascii) (rest : list ascii) :
  is_digit a = false ->
  matches (re integer) p (a :: "0" :: "x" :: rest)%char = [].
Proof.
  intros Ha.
  change (re integer)
    with (Cat (Alt (Class false [("+", "+"); ("-", "-")]%char) Eps)
            (Cat WordB (Cat (Plus digit) WordB))).
  rewrite matches_Cat, matches_Alt, flat_map_app.
  change (matches Eps p (a :: "0" :: "x" :: rest)%char)
    with [(p, a :: "0" :: "x" :: rest)%char].
  cbn [flat_map fst snd].
  rewrite (bounded_digits_none p (a :: "0" :: "x" :: rest)%char)
    by (intros d [= ->] Hd; congruence).
  rewrite app_nil_r.
  destruct (in_class false [("+", "+"); ("-", "-")]%char a) eqn:Hsg.
  - assert (Hcl : matches (Class false [("+", "+"); ("-", "-")]%char) p
                    (a :: "0" :: "x" :: rest)%char
                  = [(Some a, "0" :: "x" :: rest)%char])
      by (cbn [matches]; by rewrite Hsg).
    rewrite Hcl. cbn [flat_map fst snd]. by rewrite bounded_zero_x.
  - assert (Hcl : matches (Class false [("+", "+"); ("-", "-")]%char) p
                    (a :: "0" :: "x" :: rest)%char = [])
      by (cbn [matches]; by rewrite Hsg).
    by rewrite Hcl.
Qed.

Lemma integer_none_after_word (p : option ascii) (a : ascii) (s : list ascii) :
  is_word_opt p = true -> is_sign a = false ->
  matches (re integer) p (a :: s) = [].
Proof.
  intros Hp Ha.
  change (re integer)
    with (Cat (Alt (Class false [("+", "+"); ("-", "-")]%char) Eps)
            (Cat WordB (Cat (Plus digit) WordB))).
  rewrite matches_Cat, matches_Alt, flat_map_app.
  change (matches Eps p (a :: s)) with [(p, a :: s)]. cbn [flat_map fst snd].
  rewrite (bounded_digits_none p (a :: s)) by (intros; exact Hp).
  assert (Hcl : matches (Class false [("+", "+"); ("-", "-")]%char) p (a :: s) = []).
  { cbn [matches]. unfold is_sign in Ha. by rewrite Ha. }
  by rewrite Hcl.
Qed.

Lemma integer_quiet_tail (y : list ascii) :
  (forall a, a ∈ y -> is_digit a = false) ->
  forall p, quiet_from (re integer) p y.
Proof.
  induction y as [|a y IH]; intros Hy p; cbn [quiet_from].
  - split; [|exact I]. apply (needs_no_match is_digit); [reflexivity|].
    intros a Ha. by apply elem_of_nil in Ha.
  - split.
    + apply integer_none; [apply Hy; left|]. intros _.
      destruct y as [|b y']; [exact I|]. apply Hy. right. left.
    + apply IH. intros b Hb. apply Hy. by right.
Qed.

Lemma integer_quiet_word_run (hs y : list ascii) :
  (forall a, a ∈ hs -> is_hexdigit a = true) ->
  (forall a, a ∈ y -> is_digit a = false) ->
  forall p, is_word_opt p = true -> quiet_from (re integer) p (hs ++ y).
Proof.
  intros Hhs Hy. induction hs as [|h hs IH]; intros p Hp; cbn [app].
  - by apply integer_quiet_tail.
  - cbn [quiet_from]. destruct (hexdigit_facts h) as [Hw Hs]; [apply Hhs; left|].
    split; [by apply integer_none_after_word|].
    apply IH; [|exact Hw]. intros a Ha. apply Hhs. by right.
Qed.

Lemma integer_quiet_hex (x hs y : list ascii) :
  (forall a, a ∈ x -> is_digit a = false) ->
  (forall a, a ∈ hs -> is_hexdigit a = true) ->
  (forall a, a ∈ y -> is_digit a = false) ->
  forall p, quiet_from (re integer) p (x ++ "0" :: "x" :: hs ++ y)%char.
Proof.
  intros Hx Hhs Hy. induction x as [|a x IH]; intros p; cbn [app].
  - cbn [quiet_from]. split; [apply integer_none_zero_x|].
    split; [by apply integer_none_after_word|].
    by apply integer_quiet_word_run.
  - cbn [quiet_from]. split.
    + destruct x as [|b x']; cbn [app].
      * apply integer_none_before_zero_x. apply Hx. left.
      * apply integer_none; [apply Hx; left|]. intros _. apply Hx. right. left.
    + apply IH. intros b Hb. apply Hx. by right.
Qed.

Lemma hexadecimal_match (p : option ascii) (h : ascii) (run z : list ascii) :
  is_word_opt p = false ->
  is_hexdigit h = true ->
  (forall a, a ∈ run -> is_hexdigit a = true) ->
  match head z with Some a => is_word a = false | None => True end ->
  exists p',
    match_here (re hexadecimal) p ("0" :: "x" :: h :: run ++ z)%char = Some (p', z).
Proof.
  intros Hp Hh Hrun Hz. unfold match_here.
  change (re hexadecimal)
    with (Cat WordB (Cat (Chr "0") (Cat (Chr "x") (Cat (Plus hexdigit) WordB)))).
  rewrite matches_Cat, matches_WordB.
  unfold at_word_boundary at 1. cbn [head is_word_opt]. rewrite Hp.
  change (xorb false (is_word "0")) with true. cbn [flat_map fst snd].
  rewrite app_nil_r, matches_Cat.
  change (matches (Chr "0") p ("0" :: "x" :: h :: run ++ z)%char)
    with [(Some "0"%char, "x" :: h :: run ++ z)%char].
  cbn [flat_map fst snd]. rewrite app_nil_r, matches_Cat.
  change (matches (Chr "x") (Some "0"%char) ("x" :: h :: run ++ z)%char)
    with [(Some "x"%char, h :: run ++ z)].
  cbn [flat_map fst snd]. rewrite app_nil_r, matches_Cat.
  destruct (plus_class_greedy false [("0", "9"); ("A", "F"); ("a", "f")]%char
              h run z (Some "x"%char) Hh Hrun) as (p' & others & Hm).
  { destruct (head z) as [a|]; [|exact I].
    destruct (in_class false [("0", "9"); ("A", "F"); ("a", "f")]%char a) eqn:Ha;
      [|reflexivity].
    apply hexdigit_facts in Ha as [Ha _]. congruence. }
  unfold hexdigit. rewrite Hm. cbn [flat_map fst snd]. rewrite matches_WordB.
  assert (Hp' : is_word_opt p' = true).
  { assert (Hin : (p', z) ∈ matches
                    (Plus (Class false [("0", "9"); ("A", "F"); ("a", "f")]%char))
                    (Some "x"%char) (h :: run ++ z)) by (rewrite Hm; left).
    apply matches_consumed in Hin as (w & Hw & Hfst). cbn [fst snd] in Hw, Hfst.
    change (h :: run ++ z) with ((h :: run) ++ z) in Hw.
    apply app_inv_tail in Hw. subst w. rewrite Hfst. unfold last_or.
    destruct (last (h :: run)) as [b|] eqn:Hl.
    - apply last_Some in Hl as (l' & Hl'). cbn [is_word_opt].
      assert (Hb : b ∈ h :: run) by (rewrite Hl'; apply elem_of_app; right; left).
      apply hexdigit_facts.
      apply elem_of_cons in Hb as [->|Hb]; [exact Hh | by apply Hrun].
    - apply last_None in Hl. discriminate. }
  unfold at_word_boundary. rewrite Hp'.
  destruct (head z) as [a|]; cbn [is_word_opt]; [rewrite Hz|];
    cbn [xorb app head]; eexists; reflexivity.
Qed.

Lemma hexadecimal_skips (p : option ascii) (a : ascii) (s : list ascii) :
  is_digit a = false -> match_here (re hexadecimal) p (a :: s) = None.
Proof.
  intros Ha. unfold match_here.
  change (re hexadecimal)
    with (Cat WordB (Cat (Chr "0") (Cat (Chr "x") (Cat (Plus hexdigit) WordB)))).
  rewrite matches_Cat, matches_WordB.
  destruct (at_word_boundary p (a :: s)); [|reflexivity].
  cbn [flat_map fst snd]. rewrite app_nil_r, matches_Cat.
  assert (H0 : matches (Chr "0") p (a :: s) = []); [|by rewrite H0].
  unfold Chr. cbn [matches]. rewrite not_Chr_false; [reflexivity|].
  intros ->. discriminate.
Qed.

Lemma replaceAll_hexadecimal (subs : list ascii) (h : ascii) (run y : list ascii) :
  is_hexdigit h = true ->
  (forall a, a ∈ run -> is_hexdigit a = true) ->
  (forall a, a ∈ y -> is_digit a = false) ->
  match head y with Some a => is_word a = false | None => True end ->
  forall x fuel prev am,
    (forall a, a ∈ x -> is_digit a = false) ->
    match last x with
    | Some a => is_word a = false
    | None => is_word_opt prev = false
    end ->
    (length (x ++ "0" :: "x" :: h :: run ++ y)%char < fuel)%nat ->
    replaceAll_go fuel (re hexadecimal) subs prev am
      (x ++ "0" :: "x" :: h :: run ++ y)%char
    = x ++ subs ++ y.
Proof.
  intros Hh Hrun Hy Hy0.
  induction x as [|a x IH]; intros fuel prev am Hx Hlast Hf;
    (destruct fuel as [|f]; [lia|]); cbn [app replaceAll_go].
  - destruct (hexadecimal_match prev h run y Hlast Hh Hrun Hy0) as (p' & Hm).
    rewrite Hm.
    destruct (Nat.ltb_spec (length y) (length ("0" :: "x" :: h :: run ++ y)%char))
      as [_|Hge]; [|simpl in Hge; rewrite length_app in Hge; lia].
    f_equal. apply replaceAll_go_quiet. by apply (needs_quiet is_digit).
  - rewrite hexadecimal_skips by (apply Hx; left). f_equal. apply IH.
    + intros b Hb. apply Hx. by right.
    + destruct x as [|b x'].
      * cbn [last is_word_opt] in *. exact Hlast.
      * change (last (a :: b :: x')) with (last (b :: x')) in Hlast.
        destruct (last (b :: x')) eqn:Hl; [exact Hlast|].
        apply last_None in Hl. discriminate.
    + simpl in Hf. lia.
Qed.

(** X20. A hexadecimal literal between plain text becomes [0xN].  The
    text before and after holds no digit, quote, backslash or comma and
    the statement has no two spaces in a row; the literal is [0x] and a
    run of hexadecimal digits, with no word byte directly before or
    after it.  The integer rule, which runs first, finds nothing in
    it. *)
Theorem hexadecimal_literal_becomes_0xN (pre hs post : string) :
  tame pre -> tame post ->
  hexdigits hs ->
  ends_outside_word pre ->
  starts_open post ->
  single_spaced (list_ascii_of_string (pre +:+ "0x" +:+ hs +:+ post)) ->
  Normalize integer (pre +:+ "0x" +:+ hs +:+ post) = (pre +:+ "0x" +:+ hs +:+ post)%string
  /\ normalizeQuery (pre +:+ "0x" +:+ hs +:+ post) = (pre +:+ "0xN" +:+ post)%string.
Proof.
  intros Hpre Hpost [Hne Hhs] Heo Hso Hss.
  assert (Hnd : forall s a, tame s -> holds s a -> is_digit a = false).
  { intros s a Hs Ha. apply Hs in Ha.
    pose proof (byte_forall (fun a => implb (tame_byte a) (negb (is_digit a))) eq_refl a)
      as Hb.
    cbv beta in Hb. rewrite Ha in Hb. by apply negb_true_iff in Hb. }
  assert (Hnm : forall s a, tame s -> holds s a -> is_mark a = false).
  { intros s a Hs Ha. apply Hs in Ha.
    pose proof (byte_forall (fun a => implb (tame_byte a) (negb (is_mark a))) eq_refl a)
      as Hb.
    cbv beta in Hb. rewrite Ha in Hb. by apply negb_true_iff in Hb. }
  destruct (list_ascii_of_string hs) as [|h run] eqn:Hl.
  { destruct hs; [contradiction | discriminate]. }
  assert (Hhr : forall a, a ∈ h :: run -> is_hexdigit a = true).
  { intros a Ha. apply Hhs. unfold holds. by rewrite Hl. }
  assert (Hint : Normalize integer (pre +:+ "0x" +:+ hs +:+ post)
                 = (pre +:+ "0x" +:+ hs +:+ post)%string).
  { unfold Normalize, ReplaceAllString. unfold replaceAll.
    rewrite replaceAll_go_quiet_from; [apply string_of_list_ascii_of_string|].
    rewrite !L_app. cbn [list_ascii_of_string app]. rewrite Hl.
    apply integer_quiet_hex; [exact (fun a => Hnd pre a Hpre) | exact Hhr
                             | exact (fun a => Hnd post a Hpost)]. }
  split; [exact Hint|].
  assert (Hhex : Normalize hexadecimal (pre +:+ "0x" +:+ hs +:+ post)
                 = (pre +:+ "0xN" +:+ post)%string).
  { unfold Normalize, ReplaceAllString. rewrite !L_app. cbn [list_ascii_of_string app].
    rewrite Hl. unfold replaceAll.
    rewrite (replaceAll_hexadecimal (list_ascii_of_string (subs hexadecimal)) h run
               (list_ascii_of_string post)).
    - rewrite !string_of_list_app, !string_of_list_ascii_of_string. reflexivity.
    - apply Hhr. left.
    - intros a Ha. apply Hhr. by right.
    - exact (fun a => Hnd post a Hpost).
    - exact Hso.
    - exact (fun a => Hnd pre a Hpre).
    - unfold ends_outside_word in Heo. by destruct (last (list_ascii_of_string pre)).
    - apply Nat.lt_succ_diag_r. }
  assert (Hout : forall a, holds (pre +:+ "0xN" +:+ post) a -> is_mark a = false).
  { intros a Ha. apply holds_app in Ha as [Ha|Ha]; [by apply (Hnm pre)|].
    apply holds_app in Ha as [Ha|Ha]; [|by apply (Hnm post)].
    each_in Ha. }
  rewrite normalizeQuery_rules.
  rewrite (Normalize_spaces_fixed _ Hss), Hint, Hhex.
  rewrite (Normalize_needs is_mark escaped_squote) by (reflexivity || exact Hout).
  rewrite (Normalize_needs is_mark escaped_dquote) by (reflexivity || exact Hout).
  rewrite (Normalize_needs is_mark squoted) by (reflexivity || exact Hout).
  rewrite (Normalize_needs is_mark dquoted) by (reflexivity || exact Hout).
  apply (Normalize_needs is_mark long_list); [reflexivity | exact Hout].
Qed.

Lemma hexadecimal_literal_becomes_0xN_witness :
  normalizeQuery ("SELECT x FROM t WHERE id = " +:+ "0x" +:+ "1fA0" +:+ " LIMIT y")
  = ("SELECT x FROM t WHERE id = " +:+ "0xN" +:+ " LIMIT y")%string.
Proof.
  apply (proj2 (hexadecimal_literal_becomes_0xN
                  "SELECT x FROM t WHERE id = " "1fA0" " LIMIT y"
                  ltac:(intros a Ha; each_in Ha)
                  ltac:(intros a Ha; each_in Ha)
                  ltac:(split; [discriminate | intros a Ha; each_in Ha])
                  eq_refl eq_refl
                  ltac:(vm_compute; repeat split; discriminate))).
Defined.

(** ** Escaped quotes *)

Lemma append_assoc (a b d : string) : ((a +:+ b) +:+ d = a +:+ (b +:+ d))%string.
Proof.
  induction a as [|x a IH]; [reflexivity|].
  change (String x ((a +:+ b) +:+ d) = String x (a +:+ (b +:+ d))). by rewrite IH.
Qed.

Lemma escaped_match_here (qc : ascii) (prev : option ascii) (y : list ascii) :
  match_here (escaped qc) prev (backslash :: qc :: y) = Some (Some qc, y).
Proof.
  unfold match_here, escaped. rewrite matches_Cat.
  change (matches (Chr backslash) prev (backslash :: qc :: y))
    with [(Some backslash, qc :: y)].
  cbn [flat_map fst snd]. rewrite app_nil_r. unfold Chr. cbn [matches].
  by rewrite (proj2 (in_class_Chr qc qc) eq_refl).
Qed.

Lemma escaped_no_match (qc a : ascii) (prev : option ascii) (s : list ascii) :
  a <> backslash -> match_here (escaped qc) prev (a :: s) = None.
Proof.
  intros Ha. unfold match_here, escaped. rewrite matches_Cat.
  assert (H0 : matches (Chr backslash) prev (a :: s) = []); [|by rewrite H0].
  unfold Chr. cbn [matches]. by rewrite not_Chr_false.
Qed.

Lemma replaceAll_escaped (qc : ascii) (x y : list ascii) :
  backslash ∉ x ->
  replaceAll (escaped qc) [] (x ++ backslash :: qc :: y)
  = x ++ replaceAll (escaped qc) [] y.
Proof.
  intros Hx. unfold replaceAll at 1.
  remember (S (length (x ++ backslash :: qc :: y))) as fuel eqn:Hfuel.
  assert (Hf : (length (x ++ backslash :: qc :: y) < fuel)%nat) by lia.
  clear Hfuel. generalize (@None ascii) as prev. generalize false as am.
  revert fuel Hf. induction x as [|a x IH]; intros fuel Hf am prev.
  - cbn [app] in *. destruct fuel as [|f]; [lia|]. cbn [replaceAll_go].
    rewrite escaped_match_here. simpl in Hf.
    destruct (Nat.ltb_spec (length y) (length (backslash :: qc :: y))) as [_|Hge];
      [|simpl in Hge; lia].
    cbn [app]. apply replaceAll_go_indep; [reflexivity | reflexivity | lia | lia].
  - apply not_elem_of_cons in Hx as [Ha Hx].
    destruct fuel as [|f]; [lia|]. cbn [app replaceAll_go].
    rewrite escaped_no_match by congruence. f_equal.
    apply (IH Hx). simpl in Hf. lia.
Qed.

Lemma Normalize_escaped (p : NormalizePattern) (qc : ascii) (x y : string) :
  re p = escaped qc -> subs p = ""%string ->
  ~ holds x backslash -> ~ holds y backslash ->
  Normalize p (x +:+ String backslash (String qc y)) = (x +:+ y)%string.
Proof.
  intros Hre Hsub Hx Hy. unfold Normalize, ReplaceAllString. rewrite Hre, Hsub.
  rewrite L_app. cbn [list_ascii_of_string]. rewrite replaceAll_escaped by exact Hx.
  rewrite (replaceAll_needs (in_class false [(backslash, backslash)]));
    [|reflexivity|].
  - by rewrite string_of_list_app, !string_of_list_ascii_of_string.
  - intros a Ha. apply not_Chr_false. intros ->. by apply Hy.
Qed.

Lemma plain_facts (a : ascii) :
  plain_byte a = true ->
  is_digit a = false /\ a <> squote /\ a <> dquote /\ a <> backslash.
Proof.
  intros Hp.
  pose proof (byte_forall
    (fun a => implb (plain_byte a)
                (negb (is_digit a)
                 && negb (in_class false [(squote, squote)] a)
                 && negb (in_class false [(dquote, dquote)] a)
                 && negb (in_class false [(backslash, backslash)] a)))
    eq_refl a) as H.
  cbv beta in H. rewrite Hp in H. cbn [implb] in H.
  apply andb_true_iff in H as [H H4]. apply andb_true_iff in H as [H H3].
  apply andb_true_iff in H as [H1 H2].
  apply negb_true_iff in H1, H2, H3, H4.
  split; [exact H1|].
  split; [|split]; intros ->.
  - by rewrite (proj2 (in_class_Chr squote squote) eq_refl) in H2.
  - by rewrite (proj2 (in_class_Chr dquote dquote) eq_refl) in H3.
  - by rewrite (proj2 (in_class_Chr backslash backslash) eq_refl) in H4.
Qed.

Lemma tame_more (a : ascii) :
  tame_byte a = true ->
  is_digit a = false /\ a <> squote /\ a <> dquote /\ a <> backslash /\ a <> ","%char.
Proof.
  intros Ht.
  pose proof (byte_forall
    (fun a => implb (tame_byte a)
                (negb (is_digit a)
                 && negb (in_class false [(backslash, backslash)] a)))
    eq_refl a) as H.
  cbv beta in H. rewrite Ht in H. cbn [implb] in H.
  apply andb_true_iff in H as [H1 H2]. apply negb_true_iff in H1, H2.
  destruct (tame_facts a Ht) as (_ & Hs & Hd & Hc).
  repeat split; try assumption. intros ->.
  by rewrite (proj2 (in_class_Chr backslash backslash) eq_refl) in H2.
Qed.

Lemma needs_quote (oq : ascii) (r : regex) :
  oq = squote \/ oq = dquote ->
  r = escaped oq \/ r = quoted oq ->
  needs (in_class false [(oq, oq)]) r = true.
Proof. intros [-> | ->] [-> | ->]; reflexivity. Qed.

Ltac split_holds H :=
  repeat first [ apply holds_app in H as [H|H]
               | apply holds_String in H as [->|H] ].

Ltac plain_text Hpre Hpost Hb1 Hb2 :=
  intros a Ha; split_holds Ha;
  first [ apply Hpre, tame_more in Ha | apply Hpost, tame_more in Ha
        | apply Hb1, plain_facts in Ha | apply Hb2, plain_facts in Ha
        | idtac ];
  try apply not_Chr_false; first [ tauto | discriminate | reflexivity ].

Lemma escaped_literal (qc : ascii) (pA pB qA qB : NormalizePattern)
    (oq : ascii) (pre b1 b2 post : string) :
  re pA = escaped qc -> subs pA = ""%string ->
  re pB = escaped oq -> subs pB = ""%string ->
  re qA = quoted qc -> subs qA = "S"%string ->
  re qB = quoted oq ->
  qc = squote \/ qc = dquote ->
  oq = squote \/ oq = dquote ->
  qc <> oq ->
  tame pre -> tame post -> plain b1 -> plain b2 ->
  let T := (pre +:+ String qc (b1 +:+ String backslash (String qc
             (b2 +:+ String qc post))))%string in
  let U := if decide ((b1 +:+ b2)%string = ""%string)
           then (pre +:+ String qc (String qc post))%string
           else (pre +:+ "S" +:+ post)%string in
  (forall a, holds T a -> is_digit a = false)
  /\ Normalize pA T = (pre +:+ String qc ((b1 +:+ b2) +:+ String qc post))%string
  /\ Normalize pB T = T
  /\ Normalize pB (pre +:+ String qc ((b1 +:+ b2) +:+ String qc post))
     = (pre +:+ String qc ((b1 +:+ b2) +:+ String qc post))%string
  /\ Normalize qA (pre +:+ String qc ((b1 +:+ b2) +:+ String qc post)) = U
  /\ Normalize qB T = T
  /\ Normalize qB (pre +:+ String qc ((b1 +:+ b2) +:+ String qc post))
     = (pre +:+ String qc ((b1 +:+ b2) +:+ String qc post))%string
  /\ Normalize qB U = U
  /\ Normalize long_list U = U.
Proof.
  intros HpA HsA HpB HsB HqA HsqA HqB Hqc Hoq Hne Hpre Hpost Hb1 Hb2 T U.
  assert (HqcT : is_digit qc = false /\ qc <> backslash /\ qc <> ","%char)
    by (destruct Hqc as [-> | ->]; repeat split; discriminate).
  assert (Hoqb : oq <> backslash)
    by (destruct Hoq as [-> | ->]; discriminate).
  assert (HT : forall a, holds T a ->
                 is_digit a = false /\ a <> oq).
  { intros a Ha. unfold T in Ha. split_holds Ha;
      try (split; [tauto | congruence]);
      try (split; [reflexivity | congruence]);
      first [ apply Hpre, tame_more in Ha | apply Hpost, tame_more in Ha
            | apply Hb1, plain_facts in Ha | apply Hb2, plain_facts in Ha ];
      (split; [tauto|]); destruct Hoq as [-> | ->]; tauto. }
  assert (HT' : forall a,
             holds (pre +:+ String qc ((b1 +:+ b2) +:+ String qc post)) a ->
             a <> oq /\ a <> backslash).
  { intros a Ha. split_holds Ha;
      try (split; [congruence | tauto]);
      first [ apply Hpre, tame_more in Ha | apply Hpost, tame_more in Ha
            | apply Hb1, plain_facts in Ha | apply Hb2, plain_facts in Ha ];
      (split; [|tauto]); destruct Hoq as [-> | ->]; tauto. }
  assert (HU : forall a, holds U a -> a <> oq /\ a <> ","%char).
  { assert (Hta : forall s a, tame s -> holds s a -> a <> oq /\ a <> ","%char).
    { intros s a Hs Ha. apply Hs, tame_more in Ha.
      split; [destruct Hoq as [-> | ->]; tauto | tauto]. }
    intros a Ha. unfold U in Ha.
    destruct (decide ((b1 +:+ b2)%string = ""%string)).
    - apply holds_app in Ha as [Ha|Ha]; [by apply (Hta pre)|].
      apply holds_String in Ha as [->|Ha]; [split; [congruence | tauto]|].
      apply holds_String in Ha as [->|Ha]; [split; [congruence | tauto]|].
      by apply (Hta post).
    - apply holds_app in Ha as [Ha|Ha]; [by apply (Hta pre)|].
      apply holds_app in Ha as [Ha|Ha]; [|by apply (Hta post)].
      apply holds_String in Ha as [->|Ha]; [|by apply elem_of_nil in Ha].
      split; [destruct Hoq as [-> | ->]; discriminate | discriminate]. }
  assert (Hnq : forall s, (tame s \/ plain s) -> ~ holds s qc).
  { intros s [Hs|Hs] Ha;
      [apply Hs, tame_more in Ha | apply Hs, plain_facts in Ha];
      destruct Hqc as [-> | ->]; tauto. }
  assert (Hnb : forall s, (tame s \/ plain s) -> ~ holds s backslash).
  { intros s [Hs|Hs] Ha;
      [apply Hs, tame_more in Ha | apply Hs, plain_facts in Ha]; tauto. }
  split; [intros a Ha; by apply HT|].
  split.
  { unfold T.
    replace (pre +:+ String qc (b1 +:+ String backslash (String qc
               (b2 +:+ String qc post))))%string
      with ((pre +:+ String qc b1) +:+ String backslash (String qc
               (b2 +:+ String qc post)))%string
      by (rewrite append_assoc; reflexivity).
    rewrite (Normalize_escaped pA qc _ _ HpA HsA).
    - rewrite (append_assoc pre). f_equal.
      change (String qc (b1 +:+ (b2 +:+ String qc post))
              = String qc ((b1 +:+ b2) +:+ String qc post)).
      by rewrite append_assoc.
    - intros Ha. apply holds_app in Ha as [Ha|Ha]; [by apply (Hnb pre); [left|]|].
      apply holds_String in Ha as [Heq|Ha]; [|by apply (Hnb b1); [right|]].
      destruct HqcT as (_ & Hb & _). by apply Hb.
    - intros Ha. apply holds_app in Ha as [Ha|Ha]; [by apply (Hnb b2); [right|]|].
      apply holds_String in Ha as [Heq|Ha]; [|by apply (Hnb post); [left|]].
      destruct HqcT as (_ & Hb & _). by apply Hb. }
  split.
  { apply (Normalize_needs (in_class false [(oq, oq)])); [apply needs_quote; auto|].
    intros a Ha. apply not_Chr_false. by apply HT. }
  split.
  { apply (Normalize_needs (in_class false [(oq, oq)])); [apply needs_quote; auto|].
    intros a Ha. apply not_Chr_false. by apply HT'. }
  split.
  { unfold U. destruct (decide ((b1 +:+ b2)%string = ""%string)) as [He|Hn].
    - rewrite He. change ("" +:+ String qc post)%string with (String qc post).
      apply (Normalize_empty_literal qA qc pre post HqA Hqc);
        [by apply (Hnq pre); left | by apply (Hnq post); left].
    - rewrite (Normalize_quoted qA qc pre (b1 +:+ b2) post HqA);
        [| by apply (Hnq pre); left | exact Hn |].
      + rewrite HsqA. f_equal. f_equal.
        apply (Normalize_needs (in_class false [(qc, qc)])); [apply needs_quote; auto|].
        intros a Ha. apply not_Chr_false. intros ->. by apply (Hnq post); [left|].
      + intros Ha. apply holds_app in Ha as [Ha|Ha];
          [by apply (Hnq b1); [right|] | by apply (Hnq b2); [right|]]. }
  split.
  { apply (Normalize_needs (in_class false [(oq, oq)])); [apply needs_quote; auto|].
    intros a Ha. apply not_Chr_false. by apply HT. }
  split.
  { apply (Normalize_needs (in_class false [(oq, oq)])); [apply needs_quote; auto|].
    intros a Ha. apply not_Chr_false. by apply HT'. }
  split.
  { apply (Normalize_needs (in_class false [(oq, oq)])); [apply needs_quote; auto|].
    intros a Ha. apply not_Chr_false. by apply HU. }
  apply (Normalize_needs (in_class false [(",", ",")]%char)); [reflexivity|].
  intros a Ha. apply not_Chr_false. by apply HU.
Qed.

(** X21. A quote after a backslash does not end a literal: rules 4 and
    5 take the pair out before the literals are looked for.  A literal
    with one escaped quote of its own kind inside, between plain text,
    becomes [S]; when the escaped quote is all the literal holds, what
    is left is an empty literal, which stays as it is. *)
Theorem escaped_quote_stays_inside_literal (qc : ascii) (pre b1 b2 post : string) :
  qc = squote \/ qc = dquote ->
  tame pre -> tame post -> plain b1 -> plain b2 ->
  single_spaced
    (list_ascii_of_string
       (pre +:+ String qc (b1 +:+ String backslash (String qc (b2 +:+ String qc post))))) ->
  normalizeQuery
    (pre +:+ String qc (b1 +:+ String backslash (String qc (b2 +:+ String qc post))))
  = if decide ((b1 +:+ b2)%string = ""%string)
    then (pre +:+ String qc (String qc post))%string
    else (pre +:+ "S" +:+ post)%string.
Proof.
  intros Hqc Hpre Hpost Hb1 Hb2 Hss. destruct Hqc as [-> | ->].
  - pose proof (escaped_literal squote escaped_squote escaped_dquote squoted dquoted
                  dquote pre b1 b2 post eq_refl eq_refl eq_refl eq_refl eq_refl eq_refl
                  eq_refl (or_introl eq_refl) (or_intror eq_refl) ltac:(discriminate)
                  Hpre Hpost Hb1 Hb2) as H.
    cbv zeta in H. destruct H as (Hd & HA & _ & HB & HQA & _ & _ & HQB & HL).
    rewrite normalizeQuery_rules, (Normalize_spaces_fixed _ Hss).
    rewrite (Normalize_needs is_digit integer) by (reflexivity || exact Hd).
    rewrite (Normalize_needs is_digit hexadecimal) by (reflexivity || exact Hd).
    rewrite HA, HB, HQA, HQB. exact HL.
  - pose proof (escaped_literal dquote escaped_dquote escaped_squote dquoted squoted
                  squote pre b1 b2 post eq_refl eq_refl eq_refl eq_refl eq_refl eq_refl
                  eq_refl (or_intror eq_refl) (or_introl eq_refl) ltac:(discriminate)
                  Hpre Hpost Hb1 Hb2) as H.
    cbv zeta in H. destruct H as (Hd & HA & HB & _ & HQA & _ & HQB & _ & HL).
    rewrite normalizeQuery_rules, (Normalize_spaces_fixed _ Hss).
    rewrite (Normalize_needs is_digit integer) by (reflexivity || exact Hd).
    rewrite (Normalize_needs is_digit hexadecimal) by (reflexivity || exact Hd).
    rewrite HB, HA, HQB, HQA. exact HL.
Qed.

Lemma escaped_quote_stays_inside_literal_witness :
  normalizeQuery
    ("a = " +:+ String squote ("it" +:+ String backslash (String squote
       ("s" +:+ String squote " AND b"))))
  = ("a = " +:+ "S" +:+ " AND b")%string.
Proof.
  apply (escaped_quote_stays_inside_literal squote "a = " "it" "s" " AND b").
  - by left.
  - intros a Ha. each_in Ha.
  - intros a Ha. each_in Ha.
  - intros a Ha. each_in Ha.
  - intros a Ha. each_in Ha.
  - vm_compute. repeat split; discriminate.
Defined.

(** ** The summarizer [NewSummarizer] picks *)

Lemma updates_cumulative (batches : list (list string)) :
  forall s, updates (OfSummarizer s) batches
            = Returned (OfSummarizer (summarizer_updates s batches)).
Proof.
  induction batches as [|b rest IH]; intros s; [reflexivity|].
  cbn [updates Update]. unfold summarizer_Update at 1. apply IH.
Qed.

Lemma updates_recent (batches : list (list string)) :
  forall s s',
    recent_updates s batches = Returned s' ->
    updates (OfRecent s) batches = Returned (OfRecent s').
Proof.
  induction batches as [|b rest IH]; intros s s'; cbn [recent_updates updates Update].
  - by intros [= ->].
  - destruct (recentSummarizer_Update s b) as [[s1 qs]|e|n]; [|discriminate..].
    apply IH.
Qed.

(** X22. [NewSummarizer] hands out a windowed summarizer for a positive
    [last] and the cumulative one for zero and for a negative [last].
    Through the interface, a run of updates leaves the first with the
    rounds of the last [last] batches and the second with the counts of
    all the batches. *)
Theorem NewSummarizer_picks_by_last (last : Z) (batches : list (list string)) :
  (0 < last ->
   updates (NewSummarizer last) batches
   = Returned (OfRecent {| r_last := last;
                           r_counts := round_of <$> last_n (Z.to_nat last) batches |}))
  /\ (last <= 0 ->
      updates (NewSummarizer last) batches
      = Returned (OfSummarizer (summarizer_updates {| s_counts := ∅ |} batches))).
Proof.
  unfold NewSummarizer. split; intros Hl.
  - destruct (Z.gtb_spec last 0); [|lia].
    apply updates_recent.
    apply (recent_updates_window last batches Hl []). simpl. lia.
  - destruct (Z.gtb_spec last 0); [lia|]. apply updates_cumulative.
Qed.

Lemma NewSummarizer_picks_by_last_witness :
  updates (NewSummarizer 1) [["a"]; ["b"; "b"]]%string
  = Returned (OfRecent {| r_last := 1;
                          r_counts := round_of <$> last_n (Z.to_nat 1)
                                                     [["a"]; ["b"; "b"]]%string |})
  /\ updates (NewSummarizer (-3)) [["a"]; ["b"; "b"]]%string
     = Returned (OfSummarizer
                   (summarizer_updates {| s_counts := ∅ |} [["a"]; ["b"; "b"]]%string)).
Proof.
  split.
  - apply (proj1 (NewSummarizer_picks_by_last 1 [["a"]; ["b"; "b"]]%string)). lia.
  - apply (proj2 (NewSummarizer_picks_by_last (-3) [["a"]; ["b"; "b"]]%string)). lia.
Defined.

(** ** The connection settings *)

Lemma nonempty_true (s : string) : nonempty s = true -> s <> ""%string.
Proof. unfold nonempty. intros H. apply negb_true_iff in H. by apply String.eqb_neq. Qed.

Lemma nonempty_false (s : string) : nonempty s = false -> s = ""%string.
Proof. unfold nonempty. intros H. apply negb_false_iff in H. by apply String.eqb_eq. Qed.

Lemma connection_config_fields
    (fl : Flags) (my_cnf : option MyConfig) (mysql_pwd : string)
    (current : option string) :
  let file := default zero_config my_cnf in
  let config := connection_config fl my_cnf mysql_pwd current in
  let h := if nonempty (flag_host fl) then flag_host fl else Host file in
  let u := if nonempty (flag_dbuser fl) then flag_dbuser fl else User file in
  Host config = (if nonempty h then h else "localhost"%string)
  /\ User config = (if nonempty u then u else default u current)
  /\ Password config
     = (if nonempty (flag_password fl) then flag_password fl
        else if nonempty mysql_pwd then mysql_pwd else Password file)
  /\ Port config = (if flag_port fl =? 0 then Port file else flag_port fl mod 65536).
Proof.
  cbv zeta. unfold connection_config, uint16.
  generalize (default zero_config my_cnf). intros file.
  destruct (nonempty (flag_host fl)), (nonempty (flag_dbuser fl)),
    (nonempty (flag_password fl)), (nonempty mysql_pwd), (flag_port fl =? 0);
    cbn [Host User Password Port negb];
    destruct (nonempty (flag_host fl)), (nonempty (Host file));
    cbn [Host User Password Port];
    destruct (nonempty (flag_dbuser fl)), (nonempty (User file));
    cbn [Host User Password Port];
    destruct current; cbn [Host User Password Port default from_option Datatypes.id];
    repeat split; reflexivity.
Qed.

(** X23. The connection settings [main] ends up with.  Host, user and
    password are each the first non-empty of a fixed list of candidates:
    the flag, then (for the password) [MYSQL_PWD], then the defaults
    file, then [localhost] for the host and the name of the current
    user for the user; so the host is never empty.  A port flag other
    than 0 replaces the port of the file after conversion to 16 bits: a
    flag in 1..65535 is taken as it is, while a non-zero multiple of
    65536 sets the port to 0. *)
Theorem connection_settings_precedence
    (fl : Flags) (my_cnf : option MyConfig) (mysql_pwd : string)
    (current : option string) :
  let file := default zero_config my_cnf in
  let config := connection_config fl my_cnf mysql_pwd current in
  Host config = first_nonempty [flag_host fl; Host file; "localhost"]
  /\ Host config <> ""%string
  /\ User config = first_nonempty [flag_dbuser fl; User file; default "" current]
  /\ Password config = first_nonempty [flag_password fl; mysql_pwd; Password file]
  /\ Port config = (if flag_port fl =? 0 then Port file else flag_port fl mod 65536)
  /\ (0 <= Port file < 65536 -> 0 <= Port config < 65536)
  /\ (0 < flag_port fl < 65536 -> Port config = flag_port fl)
  /\ (flag_port fl <> 0 -> flag_port fl mod 65536 = 0 -> Port config = 0).
Proof.
  destruct (connection_config_fields fl my_cnf mysql_pwd current)
    as (HH & HU & HP & HPort).
  cbv zeta in *. revert HH HU HP HPort.
  generalize (connection_config fl my_cnf mysql_pwd current).
  generalize (default zero_config my_cnf). intros file config HH HU HP HPort.
  cbn [first_nonempty]. change (nonempty "localhost") with true.
  split; [|split; [|split; [|split; [|split; [exact HPort|]]]]].
  - rewrite HH. destruct (nonempty (flag_host fl)) eqn:E1; cbv beta iota;
      [by rewrite E1|].
    destruct (nonempty (Host file)) eqn:E2; reflexivity.
  - rewrite HH. destruct (nonempty (flag_host fl)) eqn:E1; cbv beta iota.
    + rewrite E1. by apply nonempty_true.
    + destruct (nonempty (Host file)) eqn:E2; [by apply nonempty_true | discriminate].
  - rewrite HU. destruct (nonempty (flag_dbuser fl)) eqn:E1; cbv beta iota;
      [by rewrite E1|].
    destruct (nonempty (User file)) eqn:E2; [reflexivity|].
    apply nonempty_false in E2. destruct current as [name|];
      cbn [default from_option Datatypes.id].
    + destruct (nonempty name) eqn:E3; [reflexivity | by apply nonempty_false].
    + change (nonempty "") with false. exact E2.
  - rewrite HP. destruct (nonempty (flag_password fl)); [reflexivity|].
    destruct (nonempty mysql_pwd); [reflexivity|].
    destruct (nonempty (Password file)) eqn:E; [reflexivity | by apply nonempty_false].
  - rewrite HPort. split; [|split].
    + intros Hf. destruct (flag_port fl =? 0); [exact Hf|].
      apply Z.mod_pos_bound. lia.
    + intros Hf. destruct (Z.eqb_spec (flag_port fl) 0); [lia|].
      apply Z.mod_small. lia.
    + intros Hn Hm. destruct (Z.eqb_spec (flag_port fl) 0); [contradiction | exact Hm].
Qed.

Lemma connection_settings_precedence_witness :
  Port (connection_config
          {| flag_host := ""; flag_dbuser := ""; flag_password := ""; flag_port := 65536 |}
          (Some {| Host := "db1"; User := "app"; Password := "x"; Port := 3307 |})
          "secret" None) = 0.
Proof.
  apply (proj2 (proj2 (proj2 (proj2 (proj2 (proj2 (proj2
    (connection_settings_precedence
       {| flag_host := ""; flag_dbuser := ""; flag_password := ""; flag_port := 65536 |}
       (Some {| Host := "db1"; User := "app"; Password := "x"; Port := 3307 |})
       "secret" None))))))));
    [discriminate | reflexivity].
Defined.

(** ** Long lists *)

Lemma count_app (P : ascii -> bool) (l1 l2 : list ascii) :
  count P (l1 ++ l2) = (count P l1 + count P l2)%nat.
Proof. induction l1 as [|a l1 IH]; [reflexivity|]. cbn [app count]. rewrite IH. lia. Qed.

Lemma count_suffix (P : ascii -> bool) (t s : list ascii) :
  t `suffix_of` s -> (count P t <= count P s)%nat.
Proof. intros [k ->]. rewrite count_app. lia. Qed.

Lemma matches_mincount (P : ascii -> bool) (r : regex) :
  forall prev s m,
    m ∈ matches r prev s -> (count P (snd m) + mincount P r <= count P s)%nat.
Proof.
  induction r as [|neg ranges| |r1 IH1 r2 IH2|r1 IH1 r2 IH2|r1 IH1]; intros prev s m Hm.
  - cbn [matches] in Hm. apply list_elem_of_singleton in Hm. subst m. simpl. lia.
  - cbn [matches] in Hm. destruct s as [|a s']; [by apply elem_of_nil in Hm|].
    destruct (in_class neg ranges a) eqn:Ha; [|by apply elem_of_nil in Hm].
    apply list_elem_of_singleton in Hm. subst m. cbn [snd mincount count].
    destruct (forallb (fun a => implb (in_class neg ranges a) (P a)) all_bytes) eqn:Hf;
      [|lia].
    pose proof (byte_forall _ Hf a) as Hb. cbv beta in Hb. rewrite Ha in Hb.
    cbn [implb] in Hb. rewrite Hb. lia.
  - rewrite matches_WordB in Hm.
    destruct (at_word_boundary prev s); [|by apply elem_of_nil in Hm].
    apply list_elem_of_singleton in Hm. subst m. simpl. lia.
  - rewrite matches_Cat in Hm. apply elem_of_flat_map in Hm as (m1 & H1 & H2).
    specialize (IH1 _ _ _ H1). specialize (IH2 _ _ _ H2). cbn [mincount]. lia.
  - rewrite matches_Alt in Hm. cbn [mincount].
    apply elem_of_app in Hm as [H|H]; [specialize (IH1 _ _ _ H) | specialize (IH2 _ _ _ H)];
      lia.
  - apply matches_suffix in Hm. apply (count_suffix P) in Hm. cbn [mincount]. lia.
Qed.

Lemma few_quiet (P : ascii -> bool) (r : regex) (t : list ascii) :
  (count P t < mincount P r)%nat -> quiet r t.
Proof.
  induction t as [|a t IH]; intros Hc; cbn [quiet]; split.
  - intros prev. destruct (matches r prev []) as [|m l] eqn:Hm; [reflexivity|].
    assert (Hin : m ∈ matches r prev []) by (rewrite Hm; left).
    apply (matches_mincount P) in Hin. lia.
  - exact I.
  - intros prev. destruct (matches r prev (a :: t)) as [|m l] eqn:Hm; [reflexivity|].
    assert (Hin : m ∈ matches r prev (a :: t)) by (rewrite Hm; left).
    apply (matches_mincount P) in Hin. lia.
  - apply IH. cbn [count] in Hc. lia.
Qed.

Lemma item_byte_facts (a : ascii) :
  item_byte a = true -> is_space a = false /\ a <> ","%char.
Proof.
  intros H.
  pose proof (byte_forall
    (fun a => implb (item_byte a) (negb (is_space a) && negb (is_comma a))) eq_refl a)
    as Hb.
  cbv beta in Hb. rewrite H in Hb. cbn [implb] in Hb.
  apply andb_true_iff in Hb as [H1 H2]. apply negb_true_iff in H1, H2.
  split; [exact H1|]. intros ->. discriminate.
Qed.

Lemma comma_none (p : option ascii) (t : list ascii) :
  head t <> Some ","%char -> matches (Cat (Chr ",") (Star space)) p t = [].
Proof.
  intros Ht. rewrite matches_Cat.
  assert (H0 : matches (Chr ",") p t = []); [|by rewrite H0].
  unfold Chr. cbn [matches]. destruct t as [|a t']; [reflexivity|].
  rewrite not_Chr_false; [reflexivity|]. intros ->. by apply Ht.
Qed.

Lemma blanks_then_comma_none (run : list ascii) :
  forall z p n,
    (forall a, a ∈ run -> is_space a = true) ->
    match head z with
    | Some a => is_space a = false /\ a <> ","%char
    | None => True
    end ->
    flat_map (fun m => matches (Cat (Chr ",") (Star space)) (fst m) (snd m))
      (star_from (matches space) n p (run ++ z)) = [].
Proof.
  induction run as [|a run IH]; intros z p n Hrun Hz; cbn [app].
  - assert (Hc : matches (Cat (Chr ",") (Star space)) p z = []).
    { apply comma_none. destruct z as [|b z']; [discriminate|].
      cbn [head] in *. intros [= ->]. by destruct Hz. }
    destruct n as [|n']; cbn [star_from flat_map fst snd].
    + by rewrite Hc.
    + assert (Hs : matches space p z = []).
      { unfold space. cbn [matches]. destruct z as [|b z']; [reflexivity|].
        cbn [head] in Hz. destruct Hz as [Hz _]. unfold is_space in Hz. by rewrite Hz. }
      rewrite Hs. cbn [flat_map app fst snd]. by rewrite Hc.
  - assert (Ha : is_space a = true) by (apply Hrun; left).
    assert (Hc : matches (Cat (Chr ",") (Star space)) p (a :: run ++ z) = []).
    { apply comma_none. cbn [head]. intros [= ->]. discriminate. }
    destruct n as [|n']; cbn [star_from flat_map fst snd].
    + by rewrite Hc.
    + assert (Hs : matches space p (a :: run ++ z) = [(Some a, run ++ z)]).
      { unfold space. cbn [matches]. unfold is_space in Ha. by rewrite Ha. }
      rewrite Hs. cbn [flat_map fst snd]. rewrite app_nil_r, flat_map_app.
      cbn [flat_map fst snd]. rewrite Hc, !app_nil_r.
      destruct (length (run ++ z) <? length (a :: run ++ z))%nat; [|reflexivity].
      apply IH; [|exact Hz]. intros b Hb. apply Hrun. by right.
Qed.

Lemma item_none (p : option ascii) (a : ascii) (run z : list ascii) :
  (forall b, b ∈ run -> is_space b = true) ->
  match head z with
  | Some b => is_space b = false /\ b <> ","%char
  | None => True
  end ->
  matches list_item p (a :: run ++ z) = [].
Proof.
  intros Hrun Hz. unfold list_item. rewrite matches_Cat.
  destruct (in_class false [("N", "N"); ("S", "S")]%char a) eqn:Ha.
  - assert (Hcl : matches (Class false [("N", "N"); ("S", "S")]%char) p (a :: run ++ z)
                  = [(Some a, run ++ z)]) by (cbn [matches]; by rewrite Ha).
    rewrite Hcl. cbn [flat_map fst snd]. rewrite app_nil_r, matches_Cat.
    change (matches (Star space) (Some a) (run ++ z))
      with (star_from (matches space) (length (run ++ z)) (Some a) (run ++ z)).
    by apply blanks_then_comma_none.
  - assert (Hcl : matches (Class false [("N", "N"); ("S", "S")]%char) p (a :: run ++ z)
                  = []) by (cbn [matches]; by rewrite Ha).
    by rewrite Hcl.
Qed.

Lemma item_match (p : option ascii) (c : ascii) (s1 s2 rest : list ascii) :
  item_byte c = true ->
  (forall a, a ∈ s1 -> is_space a = true) ->
  (forall a, a ∈ s2 -> is_space a = true) ->
  match head rest with Some a => is_space a = false | None => True end ->
  exists p' others,
    matches list_item p (c :: s1 ++ "," :: s2 ++ rest)%char = (p', rest) :: others.
Proof.
  intros Hc H1 H2 Hrest. unfold list_item. rewrite matches_Cat.
  assert (Hcl : matches (Class false [("N", "N"); ("S", "S")]%char) p
                  (c :: s1 ++ "," :: s2 ++ rest)%char
                = [(Some c, s1 ++ "," :: s2 ++ rest)%char]).
  { cbn [matches]. unfold item_byte in Hc. by rewrite Hc. }
  rewrite Hcl. cbn [flat_map fst snd]. rewrite app_nil_r, matches_Cat.
  change (matches (Star space) (Some c) (s1 ++ "," :: s2 ++ rest)%char)
    with (star_from (matches space) (length (s1 ++ "," :: s2 ++ rest)%char) (Some c)
            (s1 ++ "," :: s2 ++ rest)%char).
  destruct (star_class_greedy false [("009", "010"); ("012", "013"); (" ", " ")]%char
              s1 ("," :: s2 ++ rest)%char (Some c)
              (length (s1 ++ "," :: s2 ++ rest)%char) H1)
    as (p1 & others1 & Hs1); [reflexivity | lia |].
  change (Class false [("009", "010"); ("012", "013"); (" ", " ")]%char) with space in Hs1.
  rewrite Hs1. cbn [flat_map fst snd]. rewrite matches_Cat.
  change (matches (Chr ",") p1 ("," :: s2 ++ rest)%char)
    with [(Some ","%char, s2 ++ rest)].
  cbn [flat_map fst snd]. rewrite app_nil_r.
  change (matches (Star space) (Some ","%char) (s2 ++ rest))
    with (star_from (matches space) (length (s2 ++ rest)) (Some ","%char) (s2 ++ rest)).
  destruct (star_class_greedy false [("009", "010"); ("012", "013"); (" ", " ")]%char
              s2 rest (Some ","%char) (length (s2 ++ rest)) H2)
    as (p2 & others2 & Hs2); [exact Hrest | lia |].
  change (Class false [("009", "010"); ("012", "013"); (" ", " ")]%char) with space in Hs2.
  rewrite Hs2. cbn [app]. eexists _, _. reflexivity.
Qed.

Lemma head_items (its : list (list ascii)) (post : list ascii) :
  Forall item_bytes its ->
  match head post with Some a => is_space a = false | None => True end ->
  match head (concat its ++ post) with Some a => is_space a = false | None => True end.
Proof.
  intros Hits Hpost. destruct Hits as [|it its (c & s1 & s2 & -> & Hc & _) _];
    [exact Hpost|].
  cbn [concat app head]. by apply item_byte_facts.
Qed.

Lemma star_items (post : list ascii) (its : list (list ascii)) :
  (forall p, matches list_item p post = []) ->
  match head post with Some a => is_space a = false | None => True end ->
  Forall item_bytes its ->
  forall n p,
    (length (concat its ++ post) <= n)%nat ->
    exists p' others,
      star_from (matches list_item) n p (concat its ++ post) = (p', post) :: others.
Proof.
  intros Hnone Hpost. induction 1 as [|it its (c & s1 & s2 & -> & Hc & H1 & H2) Hits IH];
    intros n p Hn; cbn [concat app].
  - destruct n as [|n']; cbn [star_from]; [by eexists _, _|].
    rewrite Hnone. cbn [flat_map app]. by eexists _, _.
  - destruct n as [|n']; [simpl in Hn; lia|]. cbn [star_from].
    rewrite <- ?app_assoc. cbn [app]. rewrite <- ?app_assoc. cbn [app].
    destruct (item_match p c s1 s2 (concat its ++ post) Hc H1 H2
                (head_items its post Hits Hpost)) as (p1 & others1 & ->).
    cbn [flat_map fst snd].
    destruct (Nat.ltb_spec (length (concat its ++ post))
                (length (c :: s1 ++ "," :: s2 ++ concat its ++ post)%char)) as [_|Hge];
      [|simpl in Hge; rewrite length_app in Hge; simpl in Hge;
        rewrite length_app in Hge; lia].
    destruct (IH n' p1) as (p' & others & ->).
    + simpl in Hn. rewrite <- !app_assoc, length_app in Hn. simpl in Hn.
      rewrite length_app in Hn. lia.
    + by eexists _, _.
Qed.

Lemma atleast_items (post : list ascii) (k : nat) :
  (forall p, matches list_item p post = []) ->
  match head post with Some a => is_space a = false | None => True end ->
  forall its p,
    Forall item_bytes its ->
    (k <= length its)%nat ->
    exists p' others,
      matches (AtLeast k list_item) p (concat its ++ post) = (p', post) :: others.
Proof.
  intros Hnone Hpost. induction k as [|k IH]; intros its p Hits Hk.
  - cbn [AtLeast].
    change (matches (Star list_item) p (concat its ++ post))
      with (star_from (matches list_item) (length (concat its ++ post)) p
              (concat its ++ post)).
    by apply star_items.
  - destruct Hits as [|it its (c & s1 & s2 & -> & Hc & H1 & H2) Hits];
      [simpl in Hk; lia|].
    cbn [AtLeast concat]. rewrite matches_Cat.
    rewrite <- ?app_assoc. cbn [app]. rewrite <- ?app_assoc. cbn [app].
    destruct (item_match p c s1 s2 (concat its ++ post) Hc H1 H2
                (head_items its post Hits Hpost)) as (p1 & others1 & ->).
    cbn [flat_map fst snd].
    destruct (IH its p1 Hits) as (p' & others & ->); [simpl in Hk; lia|].
    by eexists _, _.
Qed.

Lemma blanks_before (x tail : list ascii) :
  (forall a, a ∈ x -> a <> ","%char) ->
  match head tail with
  | Some b => is_space b = false /\ b <> ","%char
  | None => True
  end ->
  exists run z,
    x ++ tail = run ++ z
    /\ (forall a, a ∈ run -> is_space a = true)
    /\ match head z with
       | Some b => is_space b = false /\ b <> ","%char
       | None => True
       end.
Proof.
  intros Hx Ht. destruct (span_class is_space x) as (run & z0 & -> & Hrun & Hz0).
  exists run, (z0 ++ tail). split; [by rewrite app_assoc|]. split; [exact Hrun|].
  destruct z0 as [|b z0']; [exact Ht|]. cbn [app head] in *.
  split; [exact Hz0|]. apply Hx. apply elem_of_app. right. left.
Qed.

Lemma replaceAll_long_list (subs post : list ascii) (its : list (list ascii)) :
  (forall p, matches list_item p post = []) ->
  match head post with Some a => is_space a = false | None => True end ->
  Forall item_bytes its ->
  (4 <= length its)%nat ->
  forall x,
    (forall a, a ∈ x -> a <> ","%char) ->
    replaceAll (AtLeast 4 list_item) subs (x ++ concat its ++ post)
    = x ++ subs ++ replaceAll (AtLeast 4 list_item) subs post.
Proof.
  intros Hnone Hpost Hits Hlen x Hx. unfold replaceAll at 1.
  remember (S (length (x ++ concat its ++ post))) as fuel eqn:Hfuel.
  assert (Hf : (length (x ++ concat its ++ post) < fuel)%nat) by lia.
  clear Hfuel. generalize (@None ascii) as prev. generalize false as am.
  revert fuel Hf. induction x as [|a x IH]; intros fuel Hf am prev.
  - cbn [app] in *. destruct fuel as [|f]; [lia|]. cbn [replaceAll_go].
    destruct (atleast_items post 4 Hnone Hpost its prev Hits Hlen) as (p' & others & Hm).
    unfold match_here. rewrite Hm. cbn [head].
    assert (Hshort : (length post < length (concat its ++ post))%nat).
    { destruct Hits as [|it its (c & s1 & s2 & -> & _) _]; [simpl in Hlen; lia|].
      cbn [concat]. rewrite !length_app. simpl. lia. }
    destruct (Nat.ltb_spec (length post) (length (concat its ++ post))) as [_|Hge]; [|lia].
    f_equal. apply replaceAll_go_indep; [reflexivity | reflexivity | lia | lia].
  - destruct fuel as [|f]; [lia|]. cbn [app replaceAll_go].
    assert (Hno : match_here (AtLeast 4 list_item) prev (a :: x ++ concat its ++ post)
                  = None).
    { unfold match_here.
      change (AtLeast 4 list_item) with (Cat list_item (AtLeast 3 list_item)).
      rewrite matches_Cat.
      destruct (blanks_before x (concat its ++ post)) as (run & z & -> & Hrun & Hz).
      - intros b Hb. apply Hx. by right.
      - destruct Hits as [|it its (c & s1 & s2 & -> & Hc & _) _]; [simpl in Hlen; lia|].
        cbn [concat app head]. by apply item_byte_facts.
      - by rewrite item_none. }
    rewrite Hno. f_equal. apply IH.
    + intros b Hb. apply Hx. by right.
    + simpl in Hf. lia.
Qed.

Lemma L_join (its : list string) :
  list_ascii_of_string (join its) = concat (list_ascii_of_string <$> its).
Proof.
  induction its as [|s its IH]; [reflexivity|].
  cbn [join foldr fmap list_fmap concat]. fold (join its). by rewrite L_app, IH.
Qed.

Lemma item_item_bytes (s : string) : item s -> item_bytes (list_ascii_of_string s).
Proof.
  intros (c & s1 & s2 & -> & Hc & H1 & H2).
  exists c, (list_ascii_of_string s1), (list_ascii_of_string s2).
  cbn [list_ascii_of_string]. rewrite L_app. cbn [list_ascii_of_string].
  repeat split; assumption.
Qed.

(** X24. The last rule folds a run of four or more list items, and
    nothing less.  A statement with fewer than four commas is left as
    it is.  A run of four or more items, each [N] or [S] followed by
    blanks, a comma and blanks, that comes after text without a comma
    and is followed by something that is no item, is replaced by three
    dots as a whole; the rule goes on in the text after it. *)
Theorem long_list_folds_four_items_or_more :
  (forall s : string,
      (count is_comma (list_ascii_of_string s) < 4)%nat -> Normalize long_list s = s)
  /\ (forall (pre post : string) (its : list string),
         (4 <= length its)%nat ->
         Forall item its ->
         ~ holds pre ","%char ->
         no_item_at post ->
         Normalize long_list (pre +:+ join its +:+ post)
         = (pre +:+ "..." +:+ Normalize long_list post)%string).
Proof.
  split.
  - intros s Hc. unfold Normalize, ReplaceAllString, replaceAll.
    rewrite replaceAll_go_quiet; [apply string_of_list_ascii_of_string|].
    apply (few_quiet is_comma). exact Hc.
  - intros pre post its Hlen Hits Hpre [Hnone Hpost].
    unfold Normalize, ReplaceAllString. rewrite !L_app, L_join.
    change (re long_list) with (AtLeast 4 list_item).
    rewrite replaceAll_long_list.
    + by rewrite !string_of_list_app, !string_of_list_ascii_of_string.
    + exact Hnone.
    + exact Hpost.
    + apply Forall_fmap. eapply Forall_impl; [exact Hits|]. apply item_item_bytes.
    + by rewrite length_fmap.
    + intros a Ha ->. by apply Hpre.
Qed.

Lemma long_list_folds_four_items_or_more_witness :
  Normalize long_list "a IN (N, N, N, N, N)" = "a IN (...N)"%string.
Proof.
  pose proof (proj2 long_list_folds_four_items_or_more "a IN (" "N)"
                ["N, "; "N, "; "N, "; "N, "]%string) as H.
  cbn [join foldr] in H.
  rewrite (proj1 long_list_folds_four_items_or_more "N)") in H by (vm_compute; lia).
  apply H.
  - simpl. lia.
  - repeat constructor;
      (exists "N"%char, ""%string, " "%string; repeat split;
       intros a Ha; each_in Ha).
  - intros Ha. absent_in Ha.
  - split; [intros p; reflexivity | reflexivity].
Defined.

(** ** What the report owes to the runtime *)




(** With a tie the two runtimes write the tied lines in different
    orders. *)
Example report_with_a_tie :
  written (showSummary (rt := merge_runtime) sound_writer
             (<["SELECT N" := 3]> (<["COMMIT" := 3]> ∅))%string 10)
  <> written (showSummary (rt := reversed_runtime) sound_writer
                (<["SELECT N" := 3]> (<["COMMIT" := 3]> ∅))%string 10).
Proof. vm_compute. discriminate. Qed.

(** ** The report sink and the run *)

Section Sink.

Context `{rt : GoRuntime}.

Lemma iteration_sink (cfg : Config) (e : Env) (st1 st2 : LoopState) :
  same_but_stdout st1 st2 ->
  snd (iteration cfg st1 e) = snd (iteration cfg st2 e)
  /\ same_but_stdout (fst (iteration cfg st1 e)) (fst (iteration cfg st2 e)).
Proof.
  destruct st1 as [s1 c1 d1 o1 l1], st2 as [s2 c2 d2 o2 l2].
  unfold same_but_stdout. cbn [summ cnt dump logged].
  intros (<- & <- & <- & <-). unfold iteration. cbn [summ cnt dump stdout logged].
  destruct (processList (env_db e) l1) as [[b|err|n] log];
    [|by repeat split..].
  unfold round. cbn [summ cnt dump stdout logged].
  destruct (match d1 with
            | Some w => let '(w', err) := dump_queries w b in (Some w', err)
            | None => (None, None)
            end) as [d [err|]]; [by repeat split|].
  destruct (Update s1 (normalizeQuery <$> b)) as [[s' qs]|err|n]; [|by repeat split..].
  destruct (Int64.incr c1 >=? cfg_delay cfg); by repeat split.
Qed.

Lemma profile_loop_sink (cfg : Config) (envs : list Env) :
  forall st1 st2,
    same_but_stdout st1 st2 ->
    snd (profile_loop cfg st1 envs) = snd (profile_loop cfg st2 envs)
    /\ same_but_stdout (fst (profile_loop cfg st1 envs)) (fst (profile_loop cfg st2 envs)).
Proof.
  induction envs as [|e rest IH]; intros st1 st2 Hs; cbn [profile_loop]; [by split|].
  destruct (iteration_sink cfg e st1 st2 Hs) as [Hst Hsame].
  destruct (iteration cfg st1 e) as [st1' status1].
  destruct (iteration cfg st2 e) as [st2' status2].
  cbn [fst snd] in *. subst status2.
  destruct status1; [by apply IH | by split..].
Qed.

(** X26. The report sink has no say in the run.  Whatever the sink
    does with the writes, and whatever it holds, the loop ends or goes
    on in the same way and leaves the same summarizer, counter, raw
    dump and log: no error of [Show] or of the header line reaches the
    loop. *)
Theorem report_sink_does_not_influence_the_run
    (cfg : Config) (out1 out2 : Writer) (envs : list Env) :
  snd (profile cfg out1 envs) = snd (profile cfg out2 envs)
  /\ same_but_stdout (fst (profile cfg out1 envs)) (fst (profile cfg out2 envs)).
Proof. apply profile_loop_sink. by repeat split. Qed.

End Sink.
